(** * The Data Fabric: scrubbing gate, graph kernel and durable store

    A shallow embedding of [side/intelligence/scrubber.py] and
    [side/intelligence/graph_kernel.py].

    Modelling conventions.
    - Text is ASCII: a Python [str] is a [string], and the scanning functions
      work on its character list.  The classes [\d], [\s], [\w] are their
      ASCII parts.
    - Python's [re] module is library code.  It is modelled by a backtracking
      matcher for the fragment of the regular-expression language that
      [SovereignScrubber.PATTERNS] is written in: character classes, [\b],
      concatenation, ordered alternation and greedy bounded or unbounded
      repetition of a character class.
    - [sqlite3] and [json] are library code as well.  The database file at
      [storage_path] is a pair of relations; a [with sqlite3.connect(..)] block
      is one transaction that either commits or raises, leaving the file as it
      was.  A [data] column holds either the serialisation of a property map or
      text that [json.loads] rejects.
    - The in-memory index [self.objects] is a finite map, a link set is a
      finite set.
    - The audit file of the scrubber is the list of the lines appended to
      it; an attempt to append either adds its line or raises and leaves the
      file as it was. *)

From Stdlib Require Import ZArith Ascii String.
From stdpp Require Import gmap strings list fin_maps sorting pretty.

#[local] Set Warnings "-register-all".
#[local] Open Scope string_scope.
#[local] Open Scope list_scope.
#[local] Open Scope nat_scope.

(* ===================================================================== *)
(** * Part I: definitions *)
(* ===================================================================== *)

(** ** Characters and character classes *)

Definition code (c : ascii) : N := N_of_ascii c.

Definition in_range (lo hi c : ascii) : bool :=
  ((code lo <=? code c) && (code c <=? code hi))%N.

Definition is_char (a c : ascii) : bool := (code a =? code c)%N.

Definition is_lower (c : ascii) : bool := in_range "a" "z" c.
Definition is_upper (c : ascii) : bool := in_range "A" "Z" c.
Definition is_digit (c : ascii) : bool := in_range "0" "9" c.

(** [str.lower] and [str.upper] on one ASCII character. *)
Definition lower (c : ascii) : ascii :=
  if is_upper c then ascii_of_N (code c + 32) else c.
Definition upper (c : ascii) : ascii :=
  if is_lower c then ascii_of_N (code c - 32) else c.

(** [\w], [\s] and [\d] on ASCII text. *)
Definition is_word (c : ascii) : bool :=
  is_lower c || is_upper c || is_digit c || is_char "_" c.
Definition is_space (c : ascii) : bool :=
  ((9 <=? code c) && (code c <=? 13) || (28 <=? code c) && (code c <=? 32))%N.

(** A class compiled with [re.IGNORECASE] accepts a character when the class
    as written accepts one of its two cases. *)
Definition ci (p : ascii → bool) (c : ascii) : bool := p (lower c) || p (upper c).

(** ** Regular expressions *)

Inductive regex :=
| Eps
| Chr (p : ascii → bool)
| Bnd
| Cat (r1 r2 : regex)
| Alt (r1 r2 : regex)
| Rep (p : ascii → bool) (lo : nat) (hi : option nat).

(** [\b]: exactly one of the two neighbours is a word character. *)
Definition word_before (prev : option ascii) : bool :=
  match prev with Some c => is_word c | None => false end.
Definition word_after (s : list ascii) : bool :=
  match s with c :: _ => is_word c | [] => false end.
Definition boundary (prev : option ascii) (s : list ascii) : bool :=
  xorb (word_before prev) (word_after s).

Definition hi_pred (hi : option nat) : option nat :=
  match hi with Some h => Some (pred h) | None => None end.
Definition hi_open (hi : option nat) : bool :=
  match hi with Some 0 => false | _ => true end.

(** Greedy repetition [p{lo,hi}]: take a character while the class and the
    upper bound allow it, and give characters back, one at a time, until the
    rest of the pattern (the continuation [k]) matches. *)
Fixpoint rep (p : ascii → bool) (lo : nat) (hi : option nat)
    (prev : option ascii) (s : list ascii)
    (k : option ascii → list ascii → option nat) : option nat :=
  let stop := match lo with 0 => k prev s | S _ => None end in
  match s with
  | c :: s' =>
      if p c && hi_open hi then
        match rep p (pred lo) (hi_pred hi) (Some c) s' k with
        | Some n => Some (S n)
        | None => stop
        end
      else stop
  | [] => stop
  end.

(** The backtracking matcher, in continuation-passing style.  [prev] is the
    character before the current position, [s] the text from the current
    position on; the result is the number of characters the match consumes.
    Alternatives are tried left to right, as [re] does. *)
Fixpoint mt (r : regex) (prev : option ascii) (s : list ascii)
    (k : option ascii → list ascii → option nat) : option nat :=
  match r with
  | Eps => k prev s
  | Chr p =>
      match s with
      | c :: s' => if p c then S <$> k (Some c) s' else None
      | [] => None
      end
  | Bnd => if boundary prev s then k prev s else None
  | Cat r1 r2 => mt r1 prev s (λ prev' s', mt r2 prev' s' k)
  | Alt r1 r2 =>
      match mt r1 prev s k with
      | Some n => Some n
      | None => mt r2 prev s k
      end
  | Rep p lo hi => rep p lo hi prev s k
  end.

(** [pattern.match] at one position: the length of the match found there. *)
Definition match_at (r : regex) (prev : option ascii) (s : list ascii) : option nat :=
  mt r prev s (λ _ _, Some 0).

(** [pattern.sub(repl, text)], scanning left to right.  [skip] counts the
    characters of the current match that are still to be dropped.  No
    registered pattern matches the empty string (see [match_at_pos]); an
    empty match is replaced and the scan moves on by one character. *)
Fixpoint sub_from (r : regex) (repl : list ascii) (prev : option ascii)
    (s : list ascii) (skip : nat) : list ascii :=
  match s with
  | [] => match skip, match_at r prev [] with 0, Some _ => repl | _, _ => [] end
  | c :: s' =>
      match skip with
      | S n => sub_from r repl (Some c) s' n
      | 0 =>
          match match_at r prev s with
          | Some 0 => repl ++ c :: sub_from r repl (Some c) s' 0
          | Some (S n) => repl ++ sub_from r repl (Some c) s' n
          | None => c :: sub_from r repl (Some c) s' 0
          end
      end
  end.

Definition sub (r : regex) (repl s : list ascii) : list ascii :=
  sub_from r repl None s 0.

(** [pattern.findall(text)]: the non-overlapping matches, left to right.  (For
    a pattern with one group [re] lists the group's text instead of the whole
    match; the number of entries is the same, and the scrubber only uses
    that.) *)
Fixpoint findall_from (r : regex) (prev : option ascii) (s : list ascii)
    (skip : nat) : list (list ascii) :=
  match s with
  | [] => match skip, match_at r prev [] with 0, Some _ => [[]] | _, _ => [] end
  | c :: s' =>
      match skip with
      | S n => findall_from r (Some c) s' n
      | 0 =>
          match match_at r prev s with
          | Some 0 => [] :: findall_from r (Some c) s' 0
          | Some (S n) => take (S n) s :: findall_from r (Some c) s' n
          | None => findall_from r (Some c) s' 0
          end
      end
  end.

Definition findall (r : regex) (s : list ascii) : list (list ascii) :=
  findall_from r None s 0.

(** ** The scrubber's patterns *)

Definition chars (s : string) : list ascii := list_ascii_of_string s.

(** One literal character, case-insensitively. *)
Definition lit (a : ascii) : regex := Chr (ci (is_char a)).

(** A literal word. *)
Definition word (s : string) : regex :=
  foldr (λ a r, Cat (lit a) r) Eps (chars s).

Definition plus (p : ascii → bool) : regex := Rep p 1 None.
Definition star (p : ascii → bool) : regex := Rep p 0 None.
Definition opt (p : ascii → bool) : regex := Rep p 0 (Some 1).

Definition one_of (s : string) (c : ascii) : bool :=
  existsb (λ a, is_char a c) (chars s).
Definition alnum (c : ascii) : bool := is_lower c || is_upper c || is_digit c.

(** [[a-zA-Z0-9_.+-]], [[a-zA-Z0-9-]] and [[a-zA-Z0-9-.]]. *)
Definition email_local (c : ascii) : bool := alnum c || one_of "_.+-" c.
Definition email_host (c : ascii) : bool := alnum c || one_of "-" c.
Definition email_tld (c : ascii) : bool := alnum c || one_of "-." c.
(** [[A-Za-z0-9\-\._~\+\/]] *)
Definition token_char (c : ascii) : bool := alnum c || one_of "-._~+/" c.
(** [[0-9A-Z]] *)
Definition key_char (c : ascii) : bool := is_digit c || is_upper c.
(** The quote class (double or single quote), [[:=]] and [[A-Za-z0-9_\-]] *)
Definition quote_char (c : ascii) : bool :=
  is_char (ascii_of_N 34) c || is_char "'" c.
Definition assign_char (c : ascii) : bool := one_of ":=" c.
Definition secret_char (c : ascii) : bool := alnum c || one_of "_-" c.

Definition email_re : regex :=
  Cat (plus (ci email_local))
 (Cat (lit "@")
 (Cat (plus (ci email_host))
 (Cat (lit ".")
      (plus (ci email_tld))))).

Definition octet : regex := Rep is_digit 1 (Some 3).

Definition ip_re : regex :=
  Cat Bnd
 (Cat octet (Cat (lit ".")
 (Cat octet (Cat (lit ".")
 (Cat octet (Cat (lit ".")
 (Cat octet Bnd))))))).

Definition bearer_token_re : regex :=
  Cat (word "Bearer")
 (Cat (plus is_space)
 (Cat (plus (ci token_char))
      (star (ci (is_char "="))))).

Definition aws_key_re : regex :=
  Cat (word "AKIA") (Rep (ci key_char) 12 (Some 20)).

Definition generic_secret_re : regex :=
  Cat (Alt (word "api_key")
      (Alt (word "secret")
      (Alt (word "password")
      (Alt (word "token")
           (word "auth_token")))))
 (Cat (opt (ci quote_char))
 (Cat (star is_space)
 (Cat (Chr (ci assign_char))
 (Cat (star is_space)
 (Cat (opt (ci quote_char))
      (Rep (ci secret_char) 12 None)))))).

(** [PATTERNS], in the order of the dictionary literal, which is the order
    [scrub_text] iterates in. *)
Definition PATTERNS : list (string * regex) :=
  [ ("email", email_re);
    ("ip", ip_re);
    ("bearer_token", bearer_token_re);
    ("aws_key", aws_key_re);
    ("generic_secret", generic_secret_re) ].

(** ** SovereignScrubber *)

(** [f"[REDACTED_{name.upper()}]"] *)
Definition placeholder (name : string) : list ascii :=
  chars "[REDACTED_" ++ map upper (chars name) ++ chars "]".

(** One round of the loop in [scrub_text].  (The call to [_log_redaction]
    only appends a line to the audit file and swallows its own failure; it
    does not touch the text.) *)
Definition scrub_step (scrubbed : list ascii) (d : string * regex) : list ascii :=
  match findall d.2 scrubbed with
  | [] => scrubbed
  | _ :: _ => sub d.2 (placeholder d.1) scrubbed
  end.

Definition scrub_chars (text : list ascii) : list ascii :=
  foldl scrub_step text PATTERNS.

Definition scrub_text (text : string) : string :=
  match text with
  | EmptyString => ""
  | _ => string_of_list_ascii (scrub_chars (chars text))
  end.

(** JSON-serialisable values: what a property map holds. *)
Inductive json :=
| JNull
| JBool (b : bool)
| JInt (z : Z)
| JReal (repr : string)
| JStr (s : string)
| JList (l : list json)
| JDict (m : gmap string json).

Fixpoint scrub_object (data : json) : json :=
  match data with
  | JStr s => JStr (scrub_text s)
  | JDict m => JDict (scrub_object <$> m)
  | JList l => JList (map scrub_object l)
  | _ => data
  end.

(** [validate_ingestion] is [scrub_object] at a dictionary (see
    [validate_ingestion_scrub_object]); the debug line is not modelled. *)
Definition validate_ingestion (uid obj_type : string)
    (properties : gmap string json) : gmap string json :=
  scrub_object <$> properties.

(** ** The audit log *)

(** The file at [audit_log_path], one entry per line written, and what went
    to [logger.error].  The environment: [io_faults] says of each coming
    attempt to append to the file whether it succeeds ([None]) or raises an
    exception with the given text, an empty list meaning that all succeed;
    [audit_clock] holds the coming readings of [datetime.now(..)]. *)
Record Audit := {
  audit_file : list string;
  error_log : list string;
  io_faults : list (option string);
  audit_clock : list string
}.

Definition newline : string := String (ascii_of_N 10) EmptyString.

Definition _log_redaction (pattern_name : string) (count : nat) (a : Audit) : Audit :=
  let ts := hd "" (audit_clock a) in
  let log_entry := "[" +:+ ts +:+ "] SECURITY_EVENT: Redacted " +:+ pretty count
                   +:+ " instances of " +:+ pattern_name +:+ newline in
  match io_faults a with
  | Some e :: fs =>
      {| audit_file := audit_file a;
         error_log := error_log a ++ ["Failed to write security audit log: " +:+ e];
         io_faults := fs; audit_clock := tl (audit_clock a) |}
  | fs =>
      {| audit_file := audit_file a ++ [log_entry]; error_log := error_log a;
         io_faults := tl fs; audit_clock := tl (audit_clock a) |}
  end.

(** One round of the loop in [scrub_text], with the audit log. *)
Definition scrub_step_audited (st : list ascii * Audit) (d : string * regex)
    : list ascii * Audit :=
  match findall d.2 st.1 with
  | [] => st
  | matches =>
      (sub d.2 (placeholder d.1) st.1, _log_redaction d.1 (length matches) st.2)
  end.

(** [scrub_text] with what it does to the audit log. *)
Definition scrub_text_audited (text : string) (a : Audit) : string * Audit :=
  match text with
  | EmptyString => ("", a)
  | _ =>
      let st := foldl scrub_step_audited (chars text, a) PATTERNS in
      (string_of_list_ascii st.1, st.2)
  end.

(** ** GraphObject *)

Record GraphObject := {
  uid : string;
  type : string;
  properties : gmap string json;
  links : gset (string * string);
  created_at : string
}.

Definition with_properties (p : gmap string json) (o : GraphObject) : GraphObject :=
  {| uid := uid o; type := type o; properties := p; links := links o;
     created_at := created_at o |}.
Definition with_links (l : gset (string * string)) (o : GraphObject) : GraphObject :=
  {| uid := uid o; type := type o; properties := properties o; links := l;
     created_at := created_at o |}.

Definition add_link (neighbor_uid link_type : string) (o : GraphObject) : GraphObject :=
  with_links (links o ∪ {[ (neighbor_uid, link_type) ]}) o.

(** ** The database file *)

(** The text of a [data] column, up to what [json.loads] makes of it. *)
Inductive blob :=
| Dumped (p : gmap string json)
| Garbled (text : string).

Definition json_dumps (p : gmap string json) : blob := Dumped p.
Definition json_loads (b : blob) : option (gmap string json) :=
  match b with Dumped p => Some p | Garbled _ => None end.

Record row := {
  row_uid : string;
  row_type : string;
  row_data : blob;
  row_created_at : string
}.

(** The [objects] relation in rowid order and the [links] relation, whose
    primary key is the whole triple. *)
Record Disk := {
  objects_rel : list row;
  links_rel : gset (string * string * string)
}.

(** [INSERT OR REPLACE INTO objects]: the row with the same primary key is
    deleted and the new row gets a fresh rowid. *)
Definition insert_or_replace (r : row) (d : Disk) : Disk :=
  {| objects_rel := filter (λ r', row_uid r' ≠ row_uid r) (objects_rel d) ++ [r];
     links_rel := links_rel d |}.

(** [INSERT OR IGNORE INTO links] *)
Definition insert_or_ignore (e : string * string * string) (d : Disk) : Disk :=
  {| objects_rel := objects_rel d; links_rel := links_rel d ∪ {[ e ]} |}.

(** ** The kernel and its environment *)

Inductive exn := OperationalError | JSONDecodeError | TypeError | KeyError.

Inductive outcome (A : Type) :=
| Ok (a : A)
| Raise (e : exn).
Arguments Ok {A} a.
Arguments Raise {A} e.

(** [objects] is [self.objects], [disk] the file at [self.storage_path],
    [warnings] what went to [logger.warning].  The environment: [faults] says
    of each coming transaction whether it commits ([true]) or raises, an empty
    list meaning that all commit; [clock] holds the coming readings of
    [datetime.now()]. *)
Record Kernel := {
  objects : gmap string GraphObject;
  disk : Disk;
  warnings : list string;
  faults : list bool;
  clock : list string
}.

Definition M (A : Type) : Type := Kernel → outcome A * Kernel.

#[export] Instance M_ret : MRet M := λ A a k, (Ok a, k).
#[export] Instance M_bind : MBind M := λ A B f m k,
  match m k with
  | (Ok a, k') => f a k'
  | (Raise e, k') => (Raise e, k')
  end.

Definition raise {A} (e : exn) : M A := λ k, (Raise e, k).

Definition get_objects : M (gmap string GraphObject) := λ k, (Ok (objects k), k).

Definition set_objects (objs : gmap string GraphObject) : M unit := λ k,
  (Ok (), {| objects := objs; disk := disk k; warnings := warnings k;
             faults := faults k; clock := clock k |}).

Definition warning (msg : string) : M unit := λ k,
  (Ok (), {| objects := objects k; disk := disk k; warnings := warnings k ++ [msg];
             faults := faults k; clock := clock k |}).

(** [datetime.now(..)], formatted. *)
Definition now : M string := λ k,
  (Ok (hd "" (clock k)),
   {| objects := objects k; disk := disk k; warnings := warnings k;
      faults := faults k; clock := tl (clock k) |}).

(** One [with sqlite3.connect(self.storage_path) as conn: .. conn.commit()]
    block that applies [f] to the file. *)
Definition transaction (f : Disk → Disk) : M unit := λ k,
  match faults k with
  | false :: fs =>
      (Raise OperationalError,
       {| objects := objects k; disk := disk k; warnings := warnings k;
          faults := fs; clock := clock k |})
  | fs =>
      (Ok (),
       {| objects := objects k; disk := f (disk k); warnings := warnings k;
          faults := tl fs; clock := clock k |})
  end.

(** ** GraphKernel.upsert_object *)

Definition row_of (obj : GraphObject) : row :=
  {| row_uid := uid obj; row_type := type obj;
     row_data := json_dumps (properties obj); row_created_at := created_at obj |}.

Definition merge_into (obj : GraphObject) (objs : gmap string GraphObject)
    : gmap string GraphObject :=
  match objs !! uid obj with
  | Some old =>
      <[uid obj := with_links (links old ∪ links obj)
                     (with_properties (properties obj ∪ properties old) old)]> objs
  | None => <[uid obj := obj]> objs
  end.

Definition persist (obj : GraphObject) (d : Disk) : Disk :=
  set_fold (λ l d', insert_or_ignore (uid obj, l.1, l.2) d')
           (insert_or_replace (row_of obj) d) (links obj).

Definition upsert_object (obj : GraphObject) : M unit :=
  let obj := with_properties
               (validate_ingestion (uid obj) (type obj) (properties obj)) obj in
  objs ← get_objects;
  set_objects (merge_into obj objs);;
  transaction (persist obj).

(** ** GraphKernel.link *)

Definition inverse (link_type : string) : string := "inverse_" +:+ link_type.

Definition link (source_uid target_uid link_type : string) (bidirectional : bool)
    : M unit :=
  objs ← get_objects;
  if decide (is_Some (objs !! source_uid) ∧ is_Some (objs !! target_uid)) then
    let objs1 := alter (add_link target_uid link_type) source_uid objs in
    let objs2 := if bidirectional
                 then alter (add_link source_uid (inverse link_type)) target_uid objs1
                 else objs1 in
    set_objects objs2;;
    transaction (λ d,
      let d1 := insert_or_ignore (source_uid, target_uid, link_type) d in
      if bidirectional
      then insert_or_ignore (target_uid, source_uid, inverse link_type) d1
      else d1)
  else
    warning ("Failed to link " +:+ source_uid +:+ " -> " +:+ target_uid
             +:+ ": One or both missing.").

(** ** GraphKernel.get_neighborhood *)

Section traversal.

(** The order in which Python iterates over a set is not specified: [iter]
    stands for it. *)
Variable iter : gset (string * string) → list (string * string).

(** One round of the [for] loop.  [cluster] is the insertion-ordered
    dictionary, [queue] the list used as a queue. *)
Definition visit (objs : gmap string GraphObject) (current_depth : Z)
    (st : list (string * GraphObject) * list (string * Z))
    (l : string * string) : list (string * GraphObject) * list (string * Z) :=
  let neighbor_uid := l.1 in
  if decide (neighbor_uid ∈ st.1.*1) then st
  else match objs !! neighbor_uid with
       | Some o => ((st.1 ++ [(neighbor_uid, o)])%list,
                    (st.2 ++ [(neighbor_uid, (current_depth + 1)%Z)])%list)
       | None => st
       end.

(** The [while queue:] loop; [fuel] bounds the number of rounds. *)
Fixpoint bfs (fuel : nat) (objs : gmap string GraphObject) (depth : Z)
    (cluster : list (string * GraphObject)) (queue : list (string * Z))
    : option (outcome (list (string * GraphObject))) :=
  match queue with
  | [] => Some (Ok cluster)
  | (current_uid, current_depth) :: queue' =>
      match fuel with
      | 0 => None
      | S fuel' =>
          if (current_depth >=? depth)%Z then bfs fuel' objs depth cluster queue'
          else match objs !! current_uid with
               | None => Some (Raise KeyError)
               | Some o =>
                   let st := foldl (visit objs current_depth) (cluster, queue')
                                   (iter (links o)) in
                   bfs fuel' objs depth st.1 st.2
               end
      end
  end.

(** [None] would mean that the loop did not finish within [size objs] rounds;
    [bfs_returns] shows that it always does. *)
Definition get_neighborhood (objs : gmap string GraphObject) (uid : string)
    (depth : Z) : option (outcome (list GraphObject)) :=
  match objs !! uid with
  | None => Some (Ok [])
  | Some o =>
      match bfs (size objs) objs depth [(uid, o)] [(uid, 0%Z)] with
      | Some (Ok cluster) => Some (Ok cluster.*2)
      | Some (Raise e) => Some (Raise e)
      | None => None
      end
  end.

End traversal.

(** ** The ingestion helpers *)

Definition new_object (uid type : string) (properties : gmap string json) : M GraphObject :=
  t ← now;
  mret {| uid := uid; type := type; properties := properties; links := ∅;
          created_at := t |}.

(** [if module_uid not in self.objects: self.upsert_object(GraphObject(..))] *)
Definition ensure_module (module_uid : string) (name : json) : M unit :=
  objs ← get_objects;
  match objs !! module_uid with
  | Some _ => mret ()
  | None =>
      obj ← new_object module_uid "module" {[ "name" := name ]};
      upsert_object obj
  end.

Definition ingest_symbol (rel_path name symbol_type : string)
    (properties : gmap string json) : M string :=
  let uid := "symbol:" +:+ rel_path +:+ ":" +:+ name in
  obj ← new_object uid "symbol"
          (properties ∪ {[ "name" := JStr name; "file_path" := JStr rel_path;
                           "symbol_type" := JStr symbol_type ]});
  upsert_object obj;;
  let module_uid := "module:" +:+ rel_path in
  ensure_module module_uid (JStr rel_path);;
  link module_uid uid "defines" true;;
  mret uid.

Section formatting.

(** [str(v)] for a property value that is not a string, as an f-string
    formats it. *)
Variable py_str : json → string.

Definition format (v : json) : string :=
  match v with JStr s => s | _ => py_str v end.

(** [if symbol_uid in self.objects: self.link(uid, symbol_uid, link_type)] for
    a [symbol_uid] read from the property map: a list or a dictionary is not
    hashable, and no other value that is not a string is a key. *)
Definition link_if_known (uid : string) (symbol_uid : json) (link_type : string)
    : M unit :=
  match symbol_uid with
  | JStr s =>
      objs ← get_objects;
      if decide (is_Some (objs !! s)) then link uid s link_type true else mret ()
  | JList _ | JDict _ => raise TypeError
  | _ => mret ()
  end.

Definition ingest_intent (intent_id content : string)
    (properties : gmap string json) : M string :=
  let uid := "intent:" +:+ intent_id in
  obj ← new_object uid "intent" (properties ∪ {[ "content" := JStr content ]});
  upsert_object obj;;
  match properties !! "focus_symbol" with
  | Some symbol_uid => link_if_known uid symbol_uid "clarifies"
  | None => mret ()
  end;;
  match properties !! "file_path" with
  | Some file_path =>
      let module_uid := "module:" +:+ format file_path in
      ensure_module module_uid file_path;;
      link uid module_uid "described_in" true
  | None => mret ()
  end;;
  mret uid.

(** The uid ends in [datetime.now().timestamp()], a reading of the clock. *)
Definition ingest_finding (rel_path finding_type severity message : string)
    (properties : gmap string json) : M string :=
  stamp ← now;
  let uid := "finding:" +:+ rel_path +:+ ":" +:+ finding_type +:+ ":" +:+ stamp in
  obj ← new_object uid "finding"
          (properties ∪ {[ "finding_type" := JStr finding_type;
                           "severity" := JStr severity;
                           "message" := JStr message;
                           "file_path" := JStr rel_path ]});
  upsert_object obj;;
  let module_uid := "module:" +:+ rel_path in
  ensure_module module_uid (JStr rel_path);;
  link uid module_uid "violates" true;;
  match properties !! "focus_symbol" with
  | Some focus =>
      let symbol_uid := "symbol:" +:+ rel_path +:+ ":" +:+ format focus in
      objs ← get_objects;
      if decide (is_Some (objs !! symbol_uid))
      then link uid symbol_uid "targets" true else mret ()
  | None => mret ()
  end;;
  mret uid.

End formatting.

(** ** A caller's loop *)

(** [for name in names: graph.ingest_symbol(rel_path, name, symbol_type, props)],
    the loop of the scaling case of the stress test. *)
Definition ingest_symbols (rel_path : string) (names : list string)
    (symbol_type : string) (props : gmap string json) : M unit :=
  foldr (λ name rest, ingest_symbol rel_path name symbol_type props;; rest)
        (mret ()) names.

(** ** GraphKernel._load and the constructor *)

Definition loaded (r : row) (p : gmap string json) : GraphObject :=
  {| uid := row_uid r; type := row_type r; properties := p; links := ∅;
     created_at := row_created_at r |}.

(** The first [for] loop of [_load]: [json.loads] raises on a blob it cannot
    parse, and nothing catches it. *)
Fixpoint load_objects (rows : list row) (objs : gmap string GraphObject)
    : outcome unit * gmap string GraphObject :=
  match rows with
  | [] => (Ok (), objs)
  | r :: rows' =>
      match json_loads (row_data r) with
      | Some p => load_objects rows' (<[row_uid r := loaded r p]> objs)
      | None => (Raise JSONDecodeError, objs)
      end
  end.

(** The second loop. *)
Definition load_link (objs : gmap string GraphObject) (e : string * string * string)
    : gmap string GraphObject :=
  let '(source, target, link_type) := e in
  match objs !! source with
  | Some _ => alter (add_link target link_type) source objs
  | None => objs
  end.

Definition load_links (es : list (string * string * string))
    (objs : gmap string GraphObject) : gmap string GraphObject :=
  foldl load_link objs es.

(** [_load] runs after [_init_db] has created the file, so its guard on the
    file's existence is passed.  Reading is one transaction. *)
Definition _load : M unit := λ k,
  match transaction id k with
  | (Raise e, k') => (Raise e, k')
  | (Ok _, k') =>
      match load_objects (objects_rel (disk k')) (objects k') with
      | (Raise e, objs) => (Raise e, (set_objects objs k').2)
      | (Ok _, objs) =>
          set_objects (load_links (elements (links_rel (disk k'))) objs) k'
      end
  end.

(** [GraphKernel(storage_path)]: a new kernel on the file of [k]. *)
Definition __init__ : M unit :=
  set_objects ∅;;
  transaction id;;
  _load.

(* ===================================================================== *)
(** * Part I, continued: the vocabulary of the properties *)
(* ===================================================================== *)

(** ** Kernel states and what the operations leave *)

Definition fresh_kernel (d : Disk) (fs : list bool) (ts : list string) : Kernel :=
  {| objects := ∅; disk := d; warnings := []; faults := fs; clock := ts |}.

Definition empty_disk : Disk := {| objects_rel := []; links_rel := ∅ |}.

Definition plain_object (u t : string) (p : gmap string json) (c : string) : GraphObject :=
  {| uid := u; type := t; properties := p; links := ∅; created_at := c |}.

(** What [upsert_object] stores: the object with its properties scrubbed. *)
Definition scrubbed (obj : GraphObject) : GraphObject :=
  with_properties (validate_ingestion (uid obj) (type obj) (properties obj)) obj.

(** The index [link] leaves when both ends are known. *)
Definition linked (source_uid target_uid link_type : string) (bidirectional : bool)
    (objs : gmap string GraphObject) : gmap string GraphObject :=
  let objs1 := alter (add_link target_uid link_type) source_uid objs in
  if bidirectional
  then alter (add_link source_uid (inverse link_type)) target_uid objs1
  else objs1.

Definition link_disk (a b t : string) (bidi : bool) (d : Disk) : Disk :=
  let d1 := insert_or_ignore (a, b, t) d in
  if bidi then insert_or_ignore (b, a, inverse t) d1 else d1.

(** The links [link a b t bidi] adds to the object stored under [u]. *)
Definition added_links (a b t : string) (bidi : bool) (u : string)
    : gset (string * string) :=
  (if decide (u = a) then {[ (b, t) ]} else ∅)
  ∪ (if bidi then if decide (u = b) then {[ (a, inverse t) ]} else ∅ else ∅).

Definition symbol_uid_of (rel_path name : string) : string :=
  "symbol:" +:+ rel_path +:+ ":" +:+ name.

Definition module_uid_of (rel_path : string) : string := "module:" +:+ rel_path.

Definition symbol_properties (rel_path name symbol_type : string)
    (props : gmap string json) : gmap string json :=
  props ∪ {[ "name" := JStr name; "file_path" := JStr rel_path;
             "symbol_type" := JStr symbol_type ]}.

(** The kernel after an [ingest_symbol] all of whose writes commit. *)
Definition after_ingest_symbol (rel_path name symbol_type : string)
    (props : gmap string json) (k : Kernel) : Kernel :=
  let u := symbol_uid_of rel_path name in
  let m := module_uid_of rel_path in
  let obj := scrubbed (plain_object u "symbol"
                         (symbol_properties rel_path name symbol_type props)
                         (hd "" (clock k))) in
  let objs1 := merge_into obj (objects k) in
  let d1 := persist obj (disk k) in
  match objs1 !! m with
  | Some _ =>
      {| objects := linked m u "defines" true objs1;
         disk := link_disk m u "defines" true d1;
         warnings := warnings k; faults := []; clock := tl (clock k) |}
  | None =>
      let mobj := scrubbed (plain_object m "module" {[ "name" := JStr rel_path ]}
                              (hd "" (tl (clock k)))) in
      {| objects := linked m u "defines" true (merge_into mobj objs1);
         disk := link_disk m u "defines" true (persist mobj d1);
         warnings := warnings k; faults := []; clock := tl (tl (clock k)) |}
  end.

(** The rows of the [objects] relation that carry the uid [u]. *)
Definition rows_of (u : string) (d : Disk) : list row :=
  filter (λ r, row_uid r = u) (objects_rel d).

Definition parses (r : row) : Prop := is_Some (json_loads (row_data r)).

(** The targets of the edges of [es] that leave [u]. *)
Definition out_links (es : list (string * string * string)) (u : string)
    : gset (string * string) :=
  list_to_set (omap (λ e, if decide (e.1.1 = u) then Some (e.1.2, e.2) else None) es).

(** ** Rows that have passed the gate *)

(** A row whose [data] column is an output of [validate_ingestion]. *)
Definition gate_passed (r : row) : Prop :=
  ∃ p, row_data r = json_dumps (validate_ingestion (row_uid r) (row_type r) p).

(** Every row of [d'] is a row of [d] or has passed the gate. *)
Definition only_scrubbed_rows (d d' : Disk) : Prop :=
  ∀ r, r ∈ objects_rel d' → r ∈ objects_rel d ∨ gate_passed r.

(** A computation that adds no row but scrubbed ones, however it ends. *)
Definition writes_scrubbed {A} (m : M A) : Prop :=
  ∀ k, only_scrubbed_rows (disk k) (disk (m k).2).

(** ** Chains of links and the invariant of the traversal *)

(** [v] is the target of a link of the object stored under [u]. *)
Definition hop (objs : gmap string GraphObject) (u v : string) : Prop :=
  ∃ o lt, objs !! u = Some o ∧ (v, lt) ∈ links o.

(** [path objs u n v]: a chain of [n] links from [u] to [v]. *)
Inductive path (objs : gmap string GraphObject) (u : string) : nat → string → Prop :=
| path_refl : path objs u 0 u
| path_step n v w : path objs u n v → hop objs v w → path objs u (S n) w.

(** A discovered uid with its depth, as the queue holds it. *)
Definition queued (x : string * nat) : string * Z := (x.1, Z.of_nat x.2).

(** The invariant of the [while] loop.  [P] lists the uids taken off the
    queue and [Q] those still in it, each with its depth; together, in this
    order, they are the cluster. *)
Record bfs_inv (objs : gmap string GraphObject) (seed : string) (k : nat)
    (P Q : list (string * nat)) (cluster : list (string * GraphObject))
    (queue : list (string * Z)) : Prop := {
  inv_keys : cluster.*1 = (P ++ Q).*1;
  inv_queue : queue = queued <$> Q;
  inv_objs : ∀ u o, (u, o) ∈ cluster → objs !! u = Some o;
  inv_nodup : NoDup (P ++ Q).*1;
  inv_head : head (P ++ Q) = Some (seed, 0);
  inv_sorted : StronglySorted le (P ++ Q).*2;
  inv_near : ∀ x q : string * nat, x ∈ P ++ Q → q ∈ Q → (x.2 ≤ S q.2)%nat;
  inv_path : ∀ x : string * nat,
             x ∈ P ++ Q → (x.2 ≤ k)%nat ∧ path objs seed x.2 x.1;
  inv_done : ∀ (x : string * nat) (v : string),
             x ∈ P → (x.2 < k)%nat → hop objs x.1 v → is_Some (objs !! v) →
             ∃ y : string * nat, y ∈ P ++ Q ∧ y.1 = v ∧ (y.2 ≤ S x.2)%nat
}.

(** ** The words of a pattern *)

(** The character before the position reached after reading [w]. *)
Definition lastc (prev : option ascii) (w : list ascii) : option ascii :=
  foldl (λ _ c, Some c) prev w.

Definition within (hi : option nat) (n : nat) : Prop :=
  match hi with Some h => n ≤ h | None => True end.

(** The words a pattern can match, [\b] read as the empty word whatever
    stands around it. *)
Fixpoint sem (r : regex) (w : list ascii) : Prop :=
  match r with
  | Eps => w = []
  | Chr p => ∃ c, w = [c] ∧ p c = true
  | Bnd => w = []
  | Cat r1 r2 => ∃ w1 w2, w = w1 ++ w2 ∧ sem r1 w1 ∧ sem r2 w2
  | Alt r1 r2 => sem r1 w ∨ sem r2 w
  | Rep p lo hi => Forall (λ c, p c = true) w ∧ lo ≤ length w ∧ within hi (length w)
  end.

(** No [\b] in the pattern: what it matches does not depend on what stands
    around the match. *)
Fixpoint bfree (r : regex) : bool :=
  match r with
  | Bnd => false
  | Cat r1 r2 | Alt r1 r2 => bfree r1 && bfree r2
  | _ => true
  end.

Fixpoint nullable (r : regex) : bool :=
  match r with
  | Eps | Bnd => true
  | Chr _ => false
  | Cat r1 r2 => nullable r1 && nullable r2
  | Alt r1 r2 => nullable r1 || nullable r2
  | Rep _ lo _ => match lo with 0 => true | S _ => false end
  end.

(** Some class of the pattern accepts [c]. *)
Fixpoint accepts (r : regex) (c : ascii) : bool :=
  match r with
  | Eps | Bnd => false
  | Chr p | Rep p _ _ => p c
  | Cat r1 r2 | Alt r1 r2 => accepts r1 c || accepts r2 c
  end.

(** No part of [s] is a word of the pattern. *)
Definition matchless (d : regex) (s : list ascii) : Prop :=
  ∀ A w B, s = A ++ w ++ B → ¬ sem d w.

(** ** Brackets and placeholders *)

Definition is_bracket (c : ascii) : bool := is_char "[" c || is_char "]" c.

(** No bracket in [w]. *)
Definition plain (w : list ascii) : Prop := Forall (λ c, is_bracket c = false) w.

(** The pattern has no class with a bracket in it. *)
Definition bracketless (d : regex) : bool :=
  negb (accepts d "[") && negb (accepts d "]").

(** A placeholder with [iq] inside. *)
Definition bracketed (iq : list ascii) : list ascii := "["%char :: iq ++ ["]"%char].

(** The inside of a placeholder: [REDACTED_<NAME>]. *)
Definition interior (name : string) : list ascii :=
  chars "REDACTED_" ++ map upper (chars name).

(** [w] occurs in [s]. *)
Definition part_of (w s : list ascii) : Prop := ∃ A B, s = A ++ w ++ B.

Fixpoint prefixb (w s : list ascii) : bool :=
  match w, s with
  | [], _ => true
  | x :: w', y :: s' => is_char x y && prefixb w' s'
  | _ :: _, [] => false
  end.

(** [w in s], decided. *)
Fixpoint occursb (w s : list ascii) : bool :=
  prefixb w s || match s with [] => false | _ :: s' => occursb w s' end.

(** What [scrub_text] relies on in a detector: no empty match, and no
    bracket in a match. *)
Definition sound_detector (d : string * regex) : Prop :=
  nullable d.2 = false ∧ bracketless d.2 = true.

(** ** Sample inputs *)

Definition leaky_properties : gmap string json :=
  {[ "owner" := JStr "contact me at a@b.com" ]}.

Definition first_version : GraphObject :=
  plain_object "intent:d1" "intent" {[ "content" := JStr "Limit is 10000" ]} "2024-01-01".

Definition second_version : GraphObject :=
  plain_object "intent:d1" "intent" {[ "owner" := JStr "billing team" ]} "2024-06-30".

Definition upsert_first : outcome unit * Kernel :=
  upsert_object first_version (fresh_kernel empty_disk [] []).

Definition upsert_twice : outcome unit * Kernel :=
  (upsert_object first_version;; upsert_object second_version)
    (fresh_kernel empty_disk [] []).

Definition two_objects : gmap string GraphObject :=
  {[ "module:a.py" := plain_object "module:a.py" "module" ∅ "t0";
     "symbol:a.py:f" := plain_object "symbol:a.py:f" "symbol" ∅ "t1" ]}.

Definition two_objects_kernel : Kernel :=
  {| objects := two_objects; disk := empty_disk; warnings := []; faults := [];
     clock := [] |}.

Definition two_objects_failing : Kernel :=
  {| objects := two_objects; disk := empty_disk; warnings := []; faults := [false];
     clock := [] |}.

Definition garbled_row : row :=
  {| row_uid := "symbol:a.py:f"; row_type := "symbol";
     row_data := Garbled "{name: "; row_created_at := "2024-01-01" |}.

Definition sound_row : row :=
  {| row_uid := "symbol:a.py:g"; row_type := "symbol";
     row_data := json_dumps {[ "name" := JStr "g" ]}; row_created_at := "2024-01-02" |}.

Definition damaged_disk : Disk :=
  {| objects_rel := [garbled_row; sound_row]; links_rel := ∅ |}.

Definition sound_disk : Disk :=
  {| objects_rel := [sound_row];
     links_rel := {[ ("symbol:a.py:g", "module:a.py", "inverse_defines") ]} |}.

(** A cycle of three objects, one of them with a link that dangles. *)
Definition ring : gmap string GraphObject :=
  {[ "a" := {| uid := "a"; type := "symbol"; properties := ∅;
               links := {[ ("b", "calls"); ("zz", "calls") ]}; created_at := "t" |};
     "b" := {| uid := "b"; type := "symbol"; properties := ∅;
               links := {[ ("c", "calls"); ("a", "inverse_calls") ]}; created_at := "t" |};
     "c" := {| uid := "c"; type := "symbol"; properties := ∅;
               links := {[ ("a", "calls") ]}; created_at := "t" |} ]}.

Definition key_then_address : string := "AKIAAAAAAAAAAAAAAAAAAAAA1.2.3.4".

(** ** What a write never undoes *)

(** [o'] is [o] with, at most, more links and more properties. *)
Definition extends (o o' : GraphObject) : Prop :=
  uid o' = uid o ∧ type o' = type o ∧ created_at o' = created_at o
  ∧ links o ⊆ links o' ∧ dom (properties o) ⊆ dom (properties o').

(** Every object of [objs] is in [objs'], extended at most. *)
Definition index_grows (objs objs' : gmap string GraphObject) : Prop :=
  ∀ u o, objs !! u = Some o → ∃ o', objs' !! u = Some o' ∧ extends o o'.

(** Every edge of [d] is in [d'], and every uid with a row in [d] has one in
    [d']. *)
Definition disk_grows (d d' : Disk) : Prop :=
  links_rel d ⊆ links_rel d'
  ∧ ∀ r, r ∈ objects_rel d → ∃ r', r' ∈ objects_rel d' ∧ row_uid r' = row_uid r.

(** A computation that, however it ends, removes nothing from the index and
    nothing from the file. *)
Definition append_only {A} (m : M A) : Prop :=
  ∀ k, index_grows (objects k) (objects (m k).2)
       ∧ disk_grows (disk k) (disk (m k).2).

(** Every object is stored under its own uid. *)
Definition keyed (objs : gmap string GraphObject) : Prop :=
  ∀ u o, objs !! u = Some o → uid o = u.

(** A computation that, however it ends, keeps it so. *)
Definition keeps_keyed {A} (m : M A) : Prop :=
  ∀ k, keyed (objects k) → keyed (objects (m k).2).

(** ** The index and the file in step *)

(** The index that a kernel constructed on the file [d] starts with. *)
Definition stored (d : Disk) : gmap string GraphObject :=
  load_links (elements (links_rel d)) (load_objects (objects_rel d) ∅).2.

(** The object that the rows and the edges of [d] give for [u]: the last row
    with this uid, and the edges that leave it. *)
Definition stored_at (d : Disk) (u : string) : option GraphObject :=
  r ← last (rows_of u d);
  p ← json_loads (row_data r);
  Some {| uid := row_uid r; type := row_type r; properties := p;
          links := out_links (elements (links_rel d)) u;
          created_at := row_created_at r |}.

(** Every blob parses, and every edge leaves a uid that has a row. *)
Definition well_formed (d : Disk) : Prop :=
  Forall parses (objects_rel d)
  ∧ ∀ s t lt, (s, t, lt) ∈ links_rel d → ∃ r, r ∈ objects_rel d ∧ row_uid r = s.

(** The index is what a kernel constructed on the file would start with. *)
Definition in_sync (k : Kernel) : Prop :=
  well_formed (disk k) ∧ stored (disk k) = objects k.

(** A computation that keeps the index and the file in step when every
    write commits. *)
Definition durable {A} (m : M A) : Prop :=
  ∀ k, in_sync k → faults k = [] → in_sync (m k).2 ∧ faults (m k).2 = [].

(** The stored object and the incoming one agree on what [upsert_object]
    writes without merging. *)
Definition same_record (obj old : GraphObject) : Prop :=
  type obj = type old ∧ created_at obj = created_at old
  ∧ dom (properties old) ⊆ dom (properties obj).

(** [w] can be reached from [u] by a chain of at most [k] links. *)
Definition within_reach (objs : gmap string GraphObject) (u : string) (k : nat)
    (w : string) : Prop :=
  ∃ n, n ≤ k ∧ path objs u n w.

(** ** How the ingestion calls end *)

(** With every write committing, [m] returns normally, with a value that
    satisfies [P], and leaves no fault pending. *)
Definition returns {A} (m : M A) (P : A → Prop) : Prop :=
  ∀ k, faults k = [] → ∃ a, (m k).1 = Ok a ∧ P a ∧ faults (m k).2 = [].

(** A list or a dictionary: a value that cannot be a dictionary key. *)
Definition unhashable (v : json) : bool :=
  match v with JList _ | JDict _ => true | _ => false end.

(** The uid of a finding, [stamp] being the reading of the clock. *)
Definition finding_uid_of (rel_path finding_type stamp : string) : string :=
  "finding:" +:+ rel_path +:+ ":" +:+ finding_type +:+ ":" +:+ stamp.

(** The module of [rel_path] is in the index, linked to the symbol [name],
    which is in the index too. *)
Definition defined_in (objs : gmap string GraphObject) (rel_path name : string) : Prop :=
  (∃ mo, objs !! module_uid_of rel_path = Some mo
         ∧ (symbol_uid_of rel_path name, "defines") ∈ links mo)
  ∧ is_Some (objs !! symbol_uid_of rel_path name).

(** ** Counting placeholders *)

(** The number of opening brackets in [s]. *)
Definition opened (s : list ascii) : nat :=
  length (filter (λ c, is_char "[" c = true) s).

(** The calls of [_log_redaction] that one run of the loop of [scrub_text]
    makes: the name of each detector that matches at its turn, with the
    number of its matches. *)
Fixpoint redactions_from (ds : list (string * regex)) (scrubbed : list ascii)
    : list (string * nat) :=
  match ds with
  | [] => []
  | d :: ds' =>
      match findall d.2 scrubbed with
      | [] => redactions_from ds' scrubbed
      | matches =>
          (d.1, length matches) :: redactions_from ds' (sub d.2 (placeholder d.1) scrubbed)
      end
  end.

Definition redactions (text : string) : list (string * nat) :=
  match text with
  | EmptyString => []
  | _ => redactions_from PATTERNS (chars text)
  end.

(** ** The audit log: what it records *)

(** The audit log after the calls [es] of [_log_redaction]. *)
Definition logged (es : list (string * nat)) (a : Audit) : Audit :=
  foldl (λ a e, _log_redaction e.1 e.2 a) a es.

(** ** The shape of a value *)

(** The number of values in a value, itself included. *)
Fixpoint json_size (j : json) : nat :=
  match j with
  | JList l => S (foldr (λ x n, json_size x + n) 0 l)
  | JDict m => S (map_fold (λ _ x n, json_size x + n) 0 m)
  | _ => 1
  end.

(** A value with its strings blanked: the keys, at every depth, the lengths
    of the lists and everything that is not a string stay. *)
Fixpoint skeleton (j : json) : json :=
  match j with
  | JStr _ => JStr ""
  | JDict m => JDict (skeleton <$> m)
  | JList l => JList (map skeleton l)
  | _ => j
  end.

(** Every string in the value, at any depth, satisfies [P].  Keys are not
    values. *)
Inductive every_string (P : string → Prop) : json → Prop :=
| every_string_null : every_string P JNull
| every_string_bool b : every_string P (JBool b)
| every_string_int z : every_string P (JInt z)
| every_string_real x : every_string P (JReal x)
| every_string_str s : P s → every_string P (JStr s)
| every_string_list l : Forall (every_string P) l → every_string P (JList l)
| every_string_dict m : map_Forall (λ _, every_string P) m → every_string P (JDict m).

(** ** What is stored is redacted *)

(** No pattern but the ip pattern matches in [s]. *)
Definition redacted (s : string) : Prop :=
  ∀ d : string * regex, d ∈ PATTERNS → d.1 ≠ "ip" → findall d.2 (chars s) = [].

(** Every string among the values of [p], at any depth, is redacted. *)
Definition redacted_map (p : gmap string json) : Prop :=
  every_string redacted (JDict p).

(** A row whose blob parses to a redacted map. *)
Definition redacted_row (r : row) : Prop :=
  ∃ p, row_data r = json_dumps p ∧ redacted_map p.

(** Every object of the index has a redacted property map. *)
Definition redacted_index (objs : gmap string GraphObject) : Prop :=
  ∀ u o, objs !! u = Some o → redacted_map (properties o).

(** Every property value in the index and in the file is redacted. *)
Definition redacted_kernel (k : Kernel) : Prop :=
  redacted_index (objects k) ∧ Forall redacted_row (objects_rel (disk k)).

(** A computation that, however it ends, keeps it so. *)
Definition keeps_redacted {A} (m : M A) : Prop :=
  ∀ k, redacted_kernel k → redacted_kernel (m k).2.

(** ** Letter case *)

(** [str.upper()] on ASCII text. *)
Definition upper_string (s : string) : string :=
  string_of_list_ascii (upper <$> chars s).

(** Every class of the pattern is blind to the case of a letter. *)
Fixpoint case_blind (r : regex) : Prop :=
  match r with
  | Chr p | Rep p _ _ => ∀ c, p (upper c) = p c
  | Cat r1 r2 | Alt r1 r2 => case_blind r1 ∧ case_blind r2
  | _ => True
  end.

(* ===================================================================== *)
(** * Part II: properties *)
(* ===================================================================== *)

(** ** Writes that fail *)

Lemma upsert_object_fails obj k fs :
  faults k = false :: fs →
  upsert_object obj k =
    (Raise OperationalError,
     {| objects := merge_into (scrubbed obj) (objects k); disk := disk k;
        warnings := warnings k; faults := fs; clock := clock k |}).
Proof.
  intros Hf. unfold upsert_object, mbind, M_bind, get_objects, set_objects, transaction.
  simpl. rewrite Hf. reflexivity.
Qed.

Lemma upsert_object_commits obj k :
  hd true (faults k) = true →
  upsert_object obj k =
    (Ok (),
     {| objects := merge_into (scrubbed obj) (objects k);
        disk := persist (scrubbed obj) (disk k);
        warnings := warnings k; faults := tl (faults k); clock := clock k |}).
Proof.
  intros Hf. unfold upsert_object, mbind, M_bind, get_objects, set_objects, transaction.
  simpl. destruct (faults k) as [|[] fs]; simpl in *; first [reflexivity|discriminate].
Qed.

Lemma link_fails a b t bidi k fs :
  is_Some (objects k !! a) → is_Some (objects k !! b) →
  faults k = false :: fs →
  link a b t bidi k =
    (Raise OperationalError,
     {| objects := linked a b t bidi (objects k); disk := disk k;
        warnings := warnings k; faults := fs; clock := clock k |}).
Proof.
  intros Ha Hb Hf. unfold link, mbind, M_bind, get_objects. simpl.
  rewrite decide_True by done.
  unfold set_objects, transaction. simpl. rewrite Hf. reflexivity.
Qed.

Lemma link_commits a b t bidi k :
  is_Some (objects k !! a) → is_Some (objects k !! b) →
  hd true (faults k) = true →
  link a b t bidi k =
    (Ok (),
     {| objects := linked a b t bidi (objects k); disk := link_disk a b t bidi (disk k);
        warnings := warnings k; faults := tl (faults k); clock := clock k |}).
Proof.
  intros Ha Hb Hf. unfold link, mbind, M_bind, get_objects. simpl.
  rewrite decide_True by done.
  unfold set_objects, transaction. simpl.
  destruct (faults k) as [|[] fs]; simpl in *; first [reflexivity|discriminate].
Qed.

Lemma link_skips a b t bidi k :
  ¬ (is_Some (objects k !! a) ∧ is_Some (objects k !! b)) →
  link a b t bidi k =
    (Ok (),
     {| objects := objects k; disk := disk k;
        warnings := warnings k ++ ["Failed to link " +:+ a +:+ " -> " +:+ b
                                   +:+ ": One or both missing."];
        faults := faults k; clock := clock k |}).
Proof.
  intros Hn. unfold link, mbind, M_bind, get_objects. simpl.
  rewrite decide_False by done. reflexivity.
Qed.

(** C1, as stated, fails: a new object whose durable write raises is in the
    index afterwards, and the file does not have it. *)
Lemma failed_upsert_is_indexed :
  let k := fresh_kernel empty_disk [false] [] in
  let obj := plain_object "symbol:a.py:f" "symbol" ∅ "t0" in
  ∃ k', upsert_object obj k = (Raise OperationalError, k')
        ∧ objects k !! "symbol:a.py:f" = None
        ∧ objects k' !! "symbol:a.py:f" = Some obj
        ∧ objects k' ≠ objects k
        ∧ disk k' = disk k.
Proof.
  intros k obj. eexists. split; [apply upsert_object_fails; reflexivity|].
  simpl. split; [done|]. split; [vm_compute; reflexivity|]. split; [|done].
  intros H. apply (f_equal (λ m, m !! "symbol:a.py:f")) in H.
  vm_compute in H. discriminate.
Qed.

(** C1 (amended): when the durable write of [upsert_object] or of [link]
    raises, the exception reaches the caller and the file is as it was before
    the call, but the index has already been updated and is not rolled back:
    it holds the object merged, or the links added, as after a call that
    commits. *)
Theorem failed_write_propagates (k : Kernel) (fs : list bool) :
  faults k = false :: fs →
  (∀ obj, ∃ k',
      upsert_object obj k = (Raise OperationalError, k')
      ∧ objects k' = merge_into (scrubbed obj) (objects k)
      ∧ disk k' = disk k)
  ∧ (∀ a b t bidi,
      is_Some (objects k !! a) → is_Some (objects k !! b) →
      ∃ k',
        link a b t bidi k = (Raise OperationalError, k')
        ∧ objects k' = linked a b t bidi (objects k)
        ∧ disk k' = disk k).
Proof.
  intros Hf. split.
  - intros obj. eexists. split; [by apply upsert_object_fails|done].
  - intros a b t bidi Ha Hb. eexists. split; [by apply link_fails|done].
Qed.

Lemma failed_write_propagates_witness :
  (∃ k', upsert_object (plain_object "a" "symbol" ∅ "t0")
                       (fresh_kernel empty_disk [false] [])
         = (Raise OperationalError, k')
     ∧ objects k' = merge_into (scrubbed (plain_object "a" "symbol" ∅ "t0")) ∅
     ∧ disk k' = empty_disk)
  ∧ (∃ k', link "module:a.py" "symbol:a.py:f" "defines" true two_objects_failing
           = (Raise OperationalError, k')
     ∧ objects k' = linked "module:a.py" "symbol:a.py:f" "defines" true two_objects
     ∧ disk k' = empty_disk).
Proof.
  split.
  - exact (proj1 (failed_write_propagates (fresh_kernel empty_disk [false] []) []
                    eq_refl) (plain_object "a" "symbol" ∅ "t0")).
  - apply (proj2 (failed_write_propagates two_objects_failing [] eq_refl)
             "module:a.py" "symbol:a.py:f" "defines" true).
    + eexists. vm_compute. reflexivity.
    + eexists. vm_compute. reflexivity.
Defined.

(** ** The scrubbing gate on every write path *)

Lemma validate_ingestion_scrub_object u t p :
  scrub_object (JDict p) = JDict (validate_ingestion u t p).
Proof. reflexivity. Qed.

Lemma only_scrubbed_rows_refl d : only_scrubbed_rows d d.
Proof. intros r Hr. by left. Qed.

Lemma only_scrubbed_rows_trans d1 d2 d3 :
  only_scrubbed_rows d1 d2 → only_scrubbed_rows d2 d3 → only_scrubbed_rows d1 d3.
Proof.
  intros H12 H23 r Hr. destruct (H23 r Hr) as [Hr2|Hg]; [by apply H12|by right].
Qed.

Lemma objects_rel_set_fold_ignore (u : string) (ls : gset (string * string)) (d : Disk) :
  objects_rel (set_fold (λ l d', insert_or_ignore (u, l.1, l.2) d') d ls) = objects_rel d.
Proof.
  apply (set_fold_ind_L (λ d' _, objects_rel d' = objects_rel d)); [done|].
  intros x X d' Hx IH. exact IH.
Qed.

Lemma objects_rel_persist obj d :
  objects_rel (persist obj d)
  = filter (λ r', row_uid r' ≠ uid obj) (objects_rel d) ++ [row_of obj].
Proof. unfold persist. by rewrite objects_rel_set_fold_ignore. Qed.

Lemma gate_passed_scrubbed obj : gate_passed (row_of (scrubbed obj)).
Proof. exists (properties obj). reflexivity. Qed.

Lemma writes_scrubbed_ret {A} (a : A) : writes_scrubbed (mret a).
Proof. intros k. apply only_scrubbed_rows_refl. Qed.

Lemma writes_scrubbed_bind {A B} (m : M A) (f : A → M B) :
  writes_scrubbed m → (∀ a, writes_scrubbed (f a)) → writes_scrubbed (m ≫= f).
Proof.
  intros Hm Hf k. unfold mbind, M_bind. specialize (Hm k).
  destruct (m k) as [[a|e] k1]; simpl in *; [|done].
  eapply only_scrubbed_rows_trans; [exact Hm|apply Hf].
Qed.

Lemma writes_scrubbed_raise {A} e : writes_scrubbed (@raise A e).
Proof. intros k. apply only_scrubbed_rows_refl. Qed.

Lemma writes_scrubbed_get_objects : writes_scrubbed get_objects.
Proof. intros k. apply only_scrubbed_rows_refl. Qed.

Lemma writes_scrubbed_set_objects objs : writes_scrubbed (set_objects objs).
Proof. intros k. apply only_scrubbed_rows_refl. Qed.

Lemma writes_scrubbed_warning msg : writes_scrubbed (warning msg).
Proof. intros k. apply only_scrubbed_rows_refl. Qed.

Lemma writes_scrubbed_now : writes_scrubbed now.
Proof. intros k. apply only_scrubbed_rows_refl. Qed.

Lemma writes_scrubbed_transaction f :
  (∀ d, only_scrubbed_rows d (f d)) → writes_scrubbed (transaction f).
Proof.
  intros Hf k. unfold transaction.
  destruct (faults k) as [|[] fs]; simpl; first [apply Hf|apply only_scrubbed_rows_refl].
Qed.

Create HintDb gate discriminated.
#[local] Hint Resolve writes_scrubbed_ret writes_scrubbed_raise
  writes_scrubbed_get_objects writes_scrubbed_set_objects writes_scrubbed_warning
  writes_scrubbed_now : gate.

Ltac gate_step :=
  repeat first
    [ solve [eauto with gate]
    | apply writes_scrubbed_bind; [|intros ?]
    | match goal with
      | |- writes_scrubbed (match ?x with Some _ => _ | None => _ end) => destruct x
      | |- writes_scrubbed (if ?x then _ else _) => destruct x
      end ].

Lemma writes_scrubbed_upsert_object obj : writes_scrubbed (upsert_object obj).
Proof.
  unfold upsert_object. gate_step.
  apply writes_scrubbed_transaction. intros d r.
  rewrite objects_rel_persist, elem_of_app, list_elem_of_filter, list_elem_of_singleton.
  intros [[_ Hr]| ->]; [by left|right]. apply gate_passed_scrubbed.
Qed.

Lemma writes_scrubbed_link a b t bidi : writes_scrubbed (link a b t bidi).
Proof.
  unfold link. gate_step.
  apply writes_scrubbed_transaction. intros d r.
  destruct bidi; simpl; by left.
Qed.

#[local] Hint Resolve writes_scrubbed_upsert_object writes_scrubbed_link : gate.

Lemma writes_scrubbed_new_object u t p : writes_scrubbed (new_object u t p).
Proof. unfold new_object. gate_step. Qed.

#[local] Hint Resolve writes_scrubbed_new_object : gate.

Lemma writes_scrubbed_ensure_module u n : writes_scrubbed (ensure_module u n).
Proof. unfold ensure_module. gate_step. Qed.

#[local] Hint Resolve writes_scrubbed_ensure_module : gate.

Lemma writes_scrubbed_ingest_symbol p n t props :
  writes_scrubbed (ingest_symbol p n t props).
Proof. unfold ingest_symbol. gate_step. Qed.

Lemma writes_scrubbed_link_if_known u v t : writes_scrubbed (link_if_known u v t).
Proof. unfold link_if_known. destruct v; gate_step. Qed.

#[local] Hint Resolve writes_scrubbed_link_if_known : gate.

Lemma writes_scrubbed_ingest_intent py_str i c props :
  writes_scrubbed (ingest_intent py_str i c props).
Proof. unfold ingest_intent. gate_step. Qed.

Lemma writes_scrubbed_ingest_finding py_str p f s m props :
  writes_scrubbed (ingest_finding py_str p f s m props).
Proof. unfold ingest_finding. gate_step. Qed.

(** C2: on every write path the property map handed to the persistence
    layer is the output of [validate_ingestion] on the incoming properties.
    An [upsert_object] that commits leaves, for its uid, exactly the row whose
    [data] column is [json.dumps] of the scrubbed incoming map; and
    [upsert_object], [ingest_symbol], [ingest_intent] and [ingest_finding],
    however they end, add no row to the [objects] relation but rows whose
    [data] column is such an output. *)
Theorem scrubbing_gate_on_every_write (py_str : json → string) (k : Kernel) :
  (∀ obj k', upsert_object obj k = (Ok (), k') →
     objects_rel (disk k')
     = filter (λ r, row_uid r ≠ uid obj) (objects_rel (disk k))
       ++ [ {| row_uid := uid obj; row_type := type obj;
               row_data := json_dumps
                 (validate_ingestion (uid obj) (type obj) (properties obj));
               row_created_at := created_at obj |} ])
  ∧ (∀ obj, only_scrubbed_rows (disk k) (disk (upsert_object obj k).2))
  ∧ (∀ rel_path name symbol_type props,
       only_scrubbed_rows (disk k)
         (disk (ingest_symbol rel_path name symbol_type props k).2))
  ∧ (∀ intent_id content props,
       only_scrubbed_rows (disk k)
         (disk (ingest_intent py_str intent_id content props k).2))
  ∧ (∀ rel_path finding_type severity message props,
       only_scrubbed_rows (disk k)
         (disk (ingest_finding py_str rel_path finding_type severity message props k).2)).
Proof.
  split; [|split; [|split; [|split]]].
  - intros obj k' Hk.
    destruct (faults k) as [|[] fs] eqn:Hf.
    + rewrite upsert_object_commits in Hk by (by rewrite Hf).
      injection Hk as <-. simpl. apply objects_rel_persist.
    + rewrite upsert_object_commits in Hk by (by rewrite Hf).
      injection Hk as <-. simpl. apply objects_rel_persist.
    + rewrite (upsert_object_fails _ _ fs) in Hk by done. discriminate.
  - intros obj. apply writes_scrubbed_upsert_object.
  - intros. apply writes_scrubbed_ingest_symbol.
  - intros. apply writes_scrubbed_ingest_intent.
  - intros. apply writes_scrubbed_ingest_finding.
Qed.

Lemma scrubbing_gate_on_every_write_witness :
  let k := fresh_kernel empty_disk [] ["t0"; "t1"] in
  let r := ingest_symbol "billing.py" "process_payment" "function" leaky_properties k in
  r.1 = Ok "symbol:billing.py:process_payment"
  ∧ only_scrubbed_rows (disk k) (disk r.2)
  ∧ row_data <$> objects_rel (disk r.2)
    = [ json_dumps {[ "name" := JStr "process_payment";
                      "file_path" := JStr "billing.py";
                      "symbol_type" := JStr "function";
                      "owner" := JStr "contact me at [REDACTED_EMAIL]" ]};
        json_dumps {[ "name" := JStr "billing.py" ]} ].
Proof.
  intros k r. split; [vm_compute; reflexivity|]. split.
  - exact (proj1 (proj2 (proj2 (scrubbing_gate_on_every_write (λ _, "") k)))
             "billing.py" "process_payment" "function" leaky_properties).
  - vm_compute; reflexivity.
Defined.

(** ** Upserting a uid that exists *)

Lemma filter_none {A} (P : A → Prop) `{!∀ x, Decision (P x)} (l : list A) :
  (∀ x, x ∈ l → ¬ P x) → filter P l = [].
Proof.
  induction l as [|a l IH]; intros Hl; [done|].
  rewrite filter_cons_False by (apply Hl; left).
  apply IH. intros x Hx. apply Hl. by right.
Qed.

Lemma filter_uid_replaced (u : string) (rows : list row) :
  filter (λ r, row_uid r = u) (filter (λ r, row_uid r ≠ u) rows) = [].
Proof. apply filter_none. intros r [Hr _]%list_elem_of_filter. done. Qed.

(** What an [upsert_object] that commits does to an object already in the
    index: the index holds the merged map and keeps the first [created_at],
    the file's row holds the incoming map and the incoming [created_at]. *)
Lemma upsert_existing obj old k :
  objects k !! uid obj = Some old →
  hd true (faults k) = true →
  ∃ k', upsert_object obj k = (Ok (), k')
    ∧ objects k' !! uid obj
      = Some {| uid := uid old; type := type old;
                properties := validate_ingestion (uid obj) (type obj) (properties obj)
                              ∪ properties old;
                links := links old ∪ links obj;
                created_at := created_at old |}
    ∧ filter (λ r, row_uid r = uid obj) (objects_rel (disk k'))
      = [ {| row_uid := uid obj; row_type := type obj;
             row_data := json_dumps
               (validate_ingestion (uid obj) (type obj) (properties obj));
             row_created_at := created_at obj |} ].
Proof.
  intros Hold Hf. eexists. split; [by apply upsert_object_commits|]. simpl. split.
  - unfold merge_into. simpl. rewrite Hold. by rewrite lookup_insert_eq.
  - rewrite objects_rel_persist, filter_app.
    rewrite (filter_cons_True _ (row_of (scrubbed obj))) by done.
    rewrite filter_nil. simpl. by rewrite filter_uid_replaced.
Qed.

(** C3 at its failing input: after two upserts of one uid the index holds
    both properties, the file's row for the uid only the second call's. *)
Lemma upsert_existing_row_not_merged :
  ∃ k', upsert_twice = (Ok (), k')
    ∧ properties <$> objects k' !! "intent:d1"
      = Some {[ "content" := JStr "Limit is 10000"; "owner" := JStr "billing team" ]}
    ∧ row_data <$> objects_rel (disk k')
      = [ json_dumps {[ "owner" := JStr "billing team" ]} ].
Proof.
  exists upsert_twice.2. split; [vm_compute; reflexivity|].
  split; vm_compute; reflexivity.
Qed.

(** C7 at its failing input: the index keeps the first [created_at], the
    file's row takes the second call's, and a kernel constructed from the file
    afterwards shows the second. *)
Lemma upsert_existing_created_at_rewritten :
  ∃ k' k'', upsert_twice = (Ok (), k')
    ∧ created_at <$> objects k' !! "intent:d1" = Some "2024-01-01"
    ∧ row_created_at <$> objects_rel (disk k') = [ "2024-06-30" ]
    ∧ __init__ k' = (Ok (), k'')
    ∧ created_at <$> objects k'' !! "intent:d1" = Some "2024-06-30".
Proof.
  exists upsert_twice.2, (__init__ upsert_twice.2).2.
  repeat split; vm_compute; reflexivity.
Qed.

(** In the index [created_at] never changes: whatever [upsert_object] is given
    and however it ends, an object that was in the index keeps its
    [created_at]. *)
Lemma upsert_object_keeps_created_at obj k u old :
  objects k !! u = Some old →
  ∃ o, objects (upsert_object obj k).2 !! u = Some o ∧ created_at o = created_at old.
Proof.
  intros Hold.
  assert (objects (upsert_object obj k).2 = merge_into (scrubbed obj) (objects k)) as ->.
  { destruct (faults k) as [|[] fs] eqn:Hf.
    - rewrite upsert_object_commits by (by rewrite Hf). done.
    - rewrite upsert_object_commits by (by rewrite Hf). done.
    - by rewrite (upsert_object_fails _ _ fs). }
  unfold merge_into. simpl.
  destruct (decide (uid obj = u)) as [->|Hne].
  - rewrite Hold, lookup_insert_eq. eauto.
  - destruct (objects k !! uid obj); rewrite lookup_insert_ne by done; eauto.
Qed.

(** ** Linking *)

Lemma with_links_id o : with_links (links o) o = o.
Proof. by destruct o. Qed.

Lemma with_links_with_links l1 l2 o : with_links l1 (with_links l2 o) = with_links l1 o.
Proof. by destruct o. Qed.

Lemma links_with_links l o : links (with_links l o) = l.
Proof. by destruct o. Qed.

Lemma linked_lookup a b t bidi (objs : gmap string GraphObject) u :
  linked a b t bidi objs !! u
  = (λ o, with_links (links o ∪ added_links a b t bidi u) o) <$> objs !! u.
Proof.
  unfold linked, added_links, add_link.
  destruct bidi; rewrite ?lookup_alter; repeat case_decide; subst; try done;
    destruct (objs !! u) as [o|]; simpl; try done; f_equal;
    rewrite ?with_links_with_links, ?links_with_links;
    try (rewrite <- (with_links_id o) at 1); f_equal; set_solver.
Qed.



(** ** Ingesting a symbol twice *)

Lemma merge_into_lookup_self obj (objs : gmap string GraphObject) :
  is_Some (merge_into obj objs !! uid obj).
Proof.
  unfold merge_into. destruct (objs !! uid obj); rewrite lookup_insert_eq; eauto.
Qed.

Lemma merge_into_lookup_ne obj (objs : gmap string GraphObject) u :
  uid obj ≠ u → merge_into obj objs !! u = objs !! u.
Proof.
  intros Hne. unfold merge_into.
  destruct (objs !! uid obj); by rewrite lookup_insert_ne.
Qed.

Lemma merge_into_is_Some obj (objs : gmap string GraphObject) u :
  is_Some (objs !! u) → is_Some (merge_into obj objs !! u).
Proof.
  intros Hu. destruct (decide (uid obj = u)) as [<-|Hne].
  - apply merge_into_lookup_self.
  - by rewrite merge_into_lookup_ne.
Qed.

Lemma ingest_symbol_commits rel_path name symbol_type props k :
  faults k = [] →
  ingest_symbol rel_path name symbol_type props k
  = (Ok (symbol_uid_of rel_path name),
     after_ingest_symbol rel_path name symbol_type props k).
Proof.
  intros Hf. unfold ingest_symbol, after_ingest_symbol.
  fold (symbol_uid_of rel_path name) (module_uid_of rel_path)
       (symbol_properties rel_path name symbol_type props).
  set (u := symbol_uid_of rel_path name). set (m := module_uid_of rel_path).
  unfold new_object, ensure_module, mbind, M_bind, now, get_objects, mret, M_ret.
  simpl. rewrite upsert_object_commits by (simpl; by rewrite Hf). simpl.
  rewrite Hf. simpl.
  set (obj := scrubbed _).
  destruct (merge_into obj (objects k) !! m) as [mo|] eqn:Hm.
  - rewrite link_commits; simpl; [done|by rewrite Hm|apply (merge_into_lookup_self obj)|done].
  - rewrite upsert_object_commits by done. simpl.
    set (mobj := scrubbed _).
    rewrite link_commits; simpl;
      [done|apply (merge_into_lookup_self mobj)
      |apply merge_into_is_Some, (merge_into_lookup_self obj)|done].
Qed.

Lemma with_properties_id o : with_properties (properties o) o = o.
Proof. by destruct o. Qed.

Lemma linked_idem a b t bidi (objs : gmap string GraphObject) :
  linked a b t bidi (linked a b t bidi objs) = linked a b t bidi objs.
Proof.
  apply map_eq. intros u. rewrite !linked_lookup.
  destruct (objs !! u) as [o|]; simpl; [|done].
  f_equal. destruct o. unfold with_links. simpl. f_equal. set_solver.
Qed.

Lemma linked_is_Some a b t bidi (objs : gmap string GraphObject) u :
  is_Some (linked a b t bidi objs !! u) ↔ is_Some (objs !! u).
Proof. rewrite linked_lookup. apply fmap_is_Some. Qed.

(** What [merge_into] stores holds the properties merged in. *)
Lemma merge_into_absorbs obj (objs : gmap string GraphObject) :
  ∃ o, merge_into obj objs !! uid obj = Some o
       ∧ properties obj ∪ properties o = properties o.
Proof.
  unfold merge_into.
  destruct (objs !! uid obj) as [old|]; rewrite lookup_insert_eq; eexists;
    (split; [done|]); simpl.
  - by rewrite map_union_assoc, map_union_idemp.
  - apply map_union_idemp.
Qed.

Lemma merge_into_same obj (objs : gmap string GraphObject) o :
  objs !! uid obj = Some o → properties obj ∪ properties o = properties o →
  links obj = ∅ → merge_into obj objs = objs.
Proof.
  intros Ho Hp Hl. unfold merge_into. rewrite Ho. apply insert_id. rewrite Ho.
  f_equal. rewrite Hp, Hl. destruct o. unfold with_links, with_properties. simpl.
  f_equal. set_solver.
Qed.

(** Merging again what was merged before [link] ran changes nothing. *)
Lemma merge_into_again obj1 obj2 a b t bidi (objs : gmap string GraphObject) :
  uid obj2 = uid obj1 → properties obj2 = properties obj1 → links obj2 = ∅ →
  merge_into obj2 (linked a b t bidi (merge_into obj1 objs))
  = linked a b t bidi (merge_into obj1 objs).
Proof.
  intros Hu Hp Hl.
  destruct (merge_into_absorbs obj1 objs) as (o & Ho & Hpo).
  apply (merge_into_same _ _
           (with_links (links o ∪ added_links a b t bidi (uid obj1)) o)).
  - by rewrite Hu, linked_lookup, Ho.
  - rewrite Hp. by destruct o.
  - done.
Qed.

Lemma merge_into_again_other obj0 obj1 obj2 a b t bidi (objs : gmap string GraphObject) :
  uid obj0 ≠ uid obj1 →
  uid obj2 = uid obj1 → properties obj2 = properties obj1 → links obj2 = ∅ →
  merge_into obj2 (linked a b t bidi (merge_into obj0 (merge_into obj1 objs)))
  = linked a b t bidi (merge_into obj0 (merge_into obj1 objs)).
Proof.
  intros Hne Hu Hp Hl.
  destruct (merge_into_absorbs obj1 objs) as (o & Ho & Hpo).
  apply (merge_into_same _ _
           (with_links (links o ∪ added_links a b t bidi (uid obj1)) o)).
  - by rewrite Hu, linked_lookup, merge_into_lookup_ne, Ho.
  - rewrite Hp. by destruct o.
  - done.
Qed.

Lemma symbol_uid_not_module rel_path name :
  module_uid_of rel_path ≠ symbol_uid_of rel_path name.
Proof. unfold module_uid_of, symbol_uid_of. simpl. discriminate. Qed.

Lemma filter_split_length {A} (P : A → Prop) `{!∀ x, Decision (P x)} (l : list A) :
  length (filter P l) + length (filter (λ x, ¬ P x) l) = length l.
Proof.
  induction l as [|a l IH]; [done|].
  destruct (decide (P a)).
  - rewrite filter_cons_True, (filter_cons_False (λ x, ¬ P x)) by tauto. simpl. lia.
  - rewrite filter_cons_False, (filter_cons_True (λ x, ¬ P x)) by tauto. simpl. lia.
Qed.

Lemma links_rel_persist obj d :
  links obj = ∅ → links_rel (persist obj d) = links_rel d.
Proof. intros Hl. unfold persist. rewrite Hl, set_fold_empty. done. Qed.

Lemma objects_rel_link_disk a b t bidi d :
  objects_rel (link_disk a b t bidi d) = objects_rel d.
Proof. unfold link_disk. by destruct bidi. Qed.

Lemma links_rel_link_disk a b t d :
  links_rel (link_disk a b t true d)
  = links_rel d ∪ {[ (a, b, t) ]} ∪ {[ (b, a, inverse t) ]}.
Proof. done. Qed.

Lemma rows_of_persist obj d : rows_of (uid obj) (persist obj d) = [row_of obj].
Proof.
  unfold rows_of. rewrite objects_rel_persist, filter_app, filter_uid_replaced.
  by rewrite filter_cons_True, filter_nil.
Qed.

Lemma rows_of_persist_ne obj d u :
  uid obj ≠ u → rows_of u (persist obj d) = rows_of u d.
Proof.
  intros Hne. unfold rows_of.
  rewrite objects_rel_persist, filter_app, filter_cons_False, filter_nil, app_nil_r by done.
  rewrite list_filter_filter. apply list_filter_iff. intros r. naive_solver.
Qed.

Lemma rows_of_link_disk a b t bidi d u :
  rows_of u (link_disk a b t bidi d) = rows_of u d.
Proof. unfold rows_of. by rewrite objects_rel_link_disk. Qed.

Lemma length_persist obj d :
  length (rows_of (uid obj) d) = 1 →
  length (objects_rel (persist obj d)) = length (objects_rel d).
Proof.
  intros H1. rewrite objects_rel_persist, length_app. simpl.
  pose proof (filter_split_length (λ r, row_uid r = uid obj) (objects_rel d)) as Hs.
  unfold rows_of in H1. lia.
Qed.

Lemma after_ingest_symbol_faults p n t props k :
  faults (after_ingest_symbol p n t props k) = [].
Proof. unfold after_ingest_symbol. cbv zeta. by destruct (_ !! _). Qed.

Lemma after_ingest_symbol_rows p n t props k :
  length (rows_of (symbol_uid_of p n) (disk (after_ingest_symbol p n t props k))) = 1
  ∧ ∀ r, r ∈ rows_of (symbol_uid_of p n) (disk (after_ingest_symbol p n t props k)) →
         row_type r = "symbol".
Proof.
  unfold after_ingest_symbol. cbv zeta.
  set (obj := scrubbed (plain_object (symbol_uid_of p n) _ _ _)).
  assert (uid obj = symbol_uid_of p n) as Hu by done.
  destruct (_ !! _); cbn [disk]; rewrite rows_of_link_disk.
  - rewrite <- Hu, rows_of_persist. split; [done|].
    by intros r ->%list_elem_of_singleton.
  - rewrite rows_of_persist_ne by apply symbol_uid_not_module.
    rewrite <- Hu, rows_of_persist. split; [done|].
    by intros r ->%list_elem_of_singleton.
Qed.

Lemma after_ingest_symbol_indexed p n t props k :
  is_Some (objects (after_ingest_symbol p n t props k) !! symbol_uid_of p n)
  ∧ is_Some (objects (after_ingest_symbol p n t props k) !! module_uid_of p).
Proof.
  unfold after_ingest_symbol. cbv zeta.
  set (obj := scrubbed (plain_object (symbol_uid_of p n) _ _ _)).
  destruct (merge_into obj (objects k) !! module_uid_of p) eqn:Hm; cbn [objects];
    rewrite !linked_is_Some.
  - split; [apply (merge_into_lookup_self obj)|by rewrite Hm].
  - set (mobj := scrubbed _). split.
    + apply merge_into_is_Some, (merge_into_lookup_self obj).
    + apply (merge_into_lookup_self mobj).
Qed.

Lemma after_ingest_symbol_again p n t props k :
  let k1 := after_ingest_symbol p n t props k in
  let k2 := after_ingest_symbol p n t props k1 in
  objects k2 = objects k1
  ∧ links_rel (disk k2) = links_rel (disk k1)
  ∧ length (objects_rel (disk k2)) = length (objects_rel (disk k1)).
Proof.
  intros k1 k2.
  pose proof (after_ingest_symbol_indexed p n t props k) as [_ Hm].
  pose proof (after_ingest_symbol_rows p n t props k) as [Hrows _].
  fold k1 in Hm, Hrows.
  set (obj2 := scrubbed (plain_object (symbol_uid_of p n) "symbol"
                           (symbol_properties p n t props) (hd "" (clock k1)))).
  assert (merge_into obj2 (objects k1) = objects k1) as Hmerge.
  { unfold k1, after_ingest_symbol. cbv zeta.
    destruct (merge_into _ (objects k) !! module_uid_of p); cbn [objects].
    - by apply merge_into_again.
    - apply merge_into_again_other; first [done|apply symbol_uid_not_module]. }
  assert (linked (module_uid_of p) (symbol_uid_of p n) "defines" true (objects k1)
          = objects k1) as Hlinked.
  { unfold k1, after_ingest_symbol. cbv zeta.
    destruct (merge_into _ (objects k) !! module_uid_of p); cbn [objects]; apply linked_idem. }
  assert ({[ (module_uid_of p, symbol_uid_of p n, "defines");
             (symbol_uid_of p n, module_uid_of p, inverse "defines") ]}
          ⊆ links_rel (disk k1)) as Hedges.
  { unfold k1, after_ingest_symbol. cbv zeta.
    destruct (merge_into _ (objects k) !! module_uid_of p); cbn [disk]; rewrite links_rel_link_disk;
      set_solver. }
  unfold k2, after_ingest_symbol. cbv zeta. fold obj2.
  rewrite Hmerge. destruct Hm as [mo ->]. cbn [objects disk].
  rewrite Hlinked, objects_rel_link_disk, links_rel_link_disk, links_rel_persist by done.
  split; [done|]. split; [set_solver|].
  by apply length_persist.
Qed.

(** C9: two calls of [ingest_symbol] with the same arguments, with every
    write committing, both return [symbol:<path>:<name>]; afterwards the index
    has an object under that uid and the [objects] relation exactly one row
    for it, of type [symbol]; the second call changes neither the index nor
    the [links] relation nor the number of rows. *)
Theorem ingest_symbol_twice (k : Kernel) (rel_path name symbol_type : string)
    (props : gmap string json) :
  faults k = [] →
  ∃ k1 k2,
    ingest_symbol rel_path name symbol_type props k
      = (Ok ("symbol:" +:+ rel_path +:+ ":" +:+ name), k1)
    ∧ ingest_symbol rel_path name symbol_type props k1
      = (Ok ("symbol:" +:+ rel_path +:+ ":" +:+ name), k2)
    ∧ is_Some (objects k2 !! ("symbol:" +:+ rel_path +:+ ":" +:+ name))
    ∧ (∃ r, filter (λ r, row_uid r = "symbol:" +:+ rel_path +:+ ":" +:+ name)
                   (objects_rel (disk k2)) = [r]
            ∧ row_type r = "symbol")
    ∧ objects k2 = objects k1
    ∧ links_rel (disk k2) = links_rel (disk k1)
    ∧ length (objects_rel (disk k2)) = length (objects_rel (disk k1)).
Proof.
  intros Hf.
  exists (after_ingest_symbol rel_path name symbol_type props k).
  exists (after_ingest_symbol rel_path name symbol_type props
            (after_ingest_symbol rel_path name symbol_type props k)).
  split; [by apply ingest_symbol_commits|].
  split; [apply ingest_symbol_commits, after_ingest_symbol_faults|].
  split; [apply after_ingest_symbol_indexed|].
  split; [|apply after_ingest_symbol_again].
  pose proof (after_ingest_symbol_rows rel_path name symbol_type props
                (after_ingest_symbol rel_path name symbol_type props k)) as [Hlen Hty].
  unfold rows_of, symbol_uid_of in Hlen, Hty.
  destruct (filter _ _) as [|r [|r' rows]]; simpl in Hlen; try discriminate.
  exists r. split; [done|]. apply Hty. by left.
Qed.

Lemma ingest_symbol_twice_witness :
  ∃ k1 k2,
    ingest_symbol "billing.py" "process_payment" "function" ∅
                  (fresh_kernel empty_disk [] ["t0"; "t1"; "t2"])
      = (Ok ("symbol:" +:+ "billing.py" +:+ ":" +:+ "process_payment"), k1)
    ∧ ingest_symbol "billing.py" "process_payment" "function" ∅ k1
      = (Ok ("symbol:" +:+ "billing.py" +:+ ":" +:+ "process_payment"), k2)
    ∧ is_Some (objects k2 !! ("symbol:" +:+ "billing.py" +:+ ":" +:+ "process_payment"))
    ∧ (∃ r, filter (λ r, row_uid r
                         = "symbol:" +:+ "billing.py" +:+ ":" +:+ "process_payment")
                   (objects_rel (disk k2)) = [r]
            ∧ row_type r = "symbol")
    ∧ objects k2 = objects k1
    ∧ links_rel (disk k2) = links_rel (disk k1)
    ∧ length (objects_rel (disk k2)) = length (objects_rel (disk k1)).
Proof.
  exact (ingest_symbol_twice (fresh_kernel empty_disk [] ["t0"; "t1"; "t2"])
           "billing.py" "process_payment" "function" ∅ eq_refl).
Defined.

(** ** Loading *)

Lemma load_link_lookup (objs : gmap string GraphObject) e u :
  load_link objs e !! u
  = (λ o, with_links (links o ∪ out_links [e] u) o) <$> objs !! u.
Proof.
  destruct e as [[s t] lt]. unfold load_link, out_links. simpl.
  case_decide as Hs; simpl.
  - subst s. destruct (objs !! u) as [o|] eqn:Ho; simpl.
    + rewrite lookup_alter, decide_True, Ho by done. simpl. f_equal.
      unfold add_link. f_equal. set_solver.
    + by rewrite Ho.
  - assert (∀ o : GraphObject, with_links (links o ∪ list_to_set []) o = o) as Hid.
    { intros o. destruct o. unfold with_links. simpl. f_equal. set_solver. }
    destruct (objs !! s); [rewrite lookup_alter_ne by done|];
      destruct (objs !! u) as [o|]; simpl; by rewrite ?Hid.
Qed.

Lemma out_links_cons e es u : out_links (e :: es) u = out_links [e] u ∪ out_links es u.
Proof. unfold out_links. simpl. destruct (decide _); simpl; set_solver. Qed.

Lemma load_links_lookup es (objs : gmap string GraphObject) u :
  load_links es objs !! u
  = (λ o, with_links (links o ∪ out_links es u) o) <$> objs !! u.
Proof.
  revert objs. induction es as [|e es IH]; intros objs.
  - simpl. destruct (objs !! u) as [o|]; simpl; [|done]. f_equal.
    destruct o. unfold with_links, out_links. simpl. f_equal. set_solver.
  - unfold load_links in *. simpl. rewrite (out_links_cons e es), IH, load_link_lookup.
    destruct (objs !! u) as [o|]; [|done]. cbn [fmap option_fmap option_map]. f_equal.
    destruct o. unfold with_links. cbn [links uid type properties created_at].
    f_equal. by rewrite (assoc_L (∪)).
Qed.

Lemma elem_of_out_links es u t lt :
  (t, lt) ∈ out_links es u ↔ (u, t, lt) ∈ es.
Proof.
  unfold out_links. rewrite elem_of_list_to_set, list_elem_of_omap. split.
  - intros ([[s t'] lt'] & He & Hd). simpl in Hd.
    case_decide; simplify_eq. done.
  - intros He. exists (u, t, lt). split; [done|]. simpl. by rewrite decide_True.
Qed.

Lemma load_objects_parses rows (objs : gmap string GraphObject) :
  Forall parses rows → (load_objects rows objs).1 = Ok ().
Proof.
  intros Hrows. revert objs. induction Hrows as [|r rows [p Hp] _ IH]; intros objs.
  - done.
  - simpl. rewrite Hp. apply IH.
Qed.

Lemma load_objects_keeps rows (objs : gmap string GraphObject) u :
  is_Some (objs !! u) → is_Some ((load_objects rows objs).2 !! u).
Proof.
  revert objs. induction rows as [|r rows IH]; intros objs Ho; [done|].
  simpl. destruct (json_loads (row_data r)) as [p|]; [|done].
  apply IH. destruct (decide (row_uid r = u)) as [->|Hne].
  - rewrite lookup_insert_eq. eauto.
  - by rewrite lookup_insert_ne.
Qed.

Lemma load_objects_loaded rows (objs : gmap string GraphObject) r :
  Forall parses rows → r ∈ rows → is_Some ((load_objects rows objs).2 !! row_uid r).
Proof.
  intros Hrows. revert objs.
  induction Hrows as [|r0 rows [p Hp] Hrows IH]; intros objs Hr.
  - by apply not_elem_of_nil in Hr.
  - simpl. rewrite Hp. apply elem_of_cons in Hr as [->|Hr]; [|by apply IH].
    apply load_objects_keeps. rewrite lookup_insert_eq. eauto.
Qed.

(** After a load an entry of the index is either untouched or does not
    depend on the index the load started from. *)
Lemma load_objects_indep rows (m1 m2 : gmap string GraphObject) u :
  ((load_objects rows m1).2 !! u = m1 !! u ∧ (load_objects rows m2).2 !! u = m2 !! u)
  ∨ (load_objects rows m1).2 !! u = (load_objects rows m2).2 !! u.
Proof.
  revert m1 m2. induction rows as [|r rows IH]; intros m1 m2; [by left|].
  simpl. destruct (json_loads (row_data r)) as [p|] eqn:Hp; [|by left].
  destruct (IH (<[row_uid r:=loaded r p]> m1) (<[row_uid r:=loaded r p]> m2))
    as [[H1 H2]|H]; [|by right].
  destruct (decide (row_uid r = u)) as [<-|Hne].
  - right. by rewrite H1, H2, !lookup_insert_eq.
  - left. by rewrite H1, H2, !lookup_insert_ne.
Qed.

Lemma load_objects_untouched rows (objs : gmap string GraphObject) u :
  (∀ r, r ∈ rows → row_uid r ≠ u) → (load_objects rows objs).2 !! u = objs !! u.
Proof.
  revert objs. induction rows as [|r rows IH]; intros objs Hu; [done|].
  simpl. destruct (json_loads (row_data r)) as [p|]; [|done].
  rewrite IH by (intros r' Hr'; apply Hu; by right).
  apply lookup_insert_ne, Hu. by left.
Qed.

Lemma load_objects_aborts rows1 r rows2 (objs : gmap string GraphObject) :
  Forall parses rows1 → ¬ parses r →
  load_objects (rows1 ++ r :: rows2) objs
  = (Raise JSONDecodeError, (load_objects rows1 objs).2).
Proof.
  intros Hrows Hr. revert objs.
  induction Hrows as [|r1 rows1 [p Hp] _ IH]; intros objs; simpl.
  - destruct (json_loads (row_data r)) eqn:Hp; [|done].
    exfalso. apply Hr. unfold parses. rewrite Hp. eauto.
  - rewrite Hp. apply IH.
Qed.

Lemma _load_commits k :
  faults k = [] → Forall parses (objects_rel (disk k)) →
  _load k =
    (Ok (),
     {| objects := load_links (elements (links_rel (disk k)))
                     (load_objects (objects_rel (disk k)) (objects k)).2;
        disk := disk k; warnings := warnings k; faults := []; clock := clock k |}).
Proof.
  intros Hf Hrows. unfold _load, transaction. rewrite Hf. simpl.
  pose proof (load_objects_parses _ (objects k) Hrows) as Hok.
  destruct (load_objects _ _) as [[[]|e] objs]; simpl in *; [done|discriminate].
Qed.

Lemma _load_aborts k rows1 r rows2 :
  faults k = [] → objects_rel (disk k) = rows1 ++ r :: rows2 →
  Forall parses rows1 → ¬ parses r →
  _load k =
    (Raise JSONDecodeError,
     {| objects := (load_objects rows1 (objects k)).2;
        disk := disk k; warnings := warnings k; faults := []; clock := clock k |}).
Proof.
  intros Hf Hrows H1 Hr. unfold _load, transaction. rewrite Hf. simpl.
  rewrite Hrows, load_objects_aborts by done. done.
Qed.

Lemma load_again (objs : gmap string GraphObject) rows es :
  let objs' := load_links es (load_objects rows objs).2 in
  load_links es (load_objects rows objs').2 = objs'.
Proof.
  intros objs'. apply map_eq. intros u. unfold objs'.
  rewrite !load_links_lookup.
  destruct (load_objects_indep rows objs (load_links es (load_objects rows objs).2) u)
    as [[H1 H2]|H].
  - rewrite H2, load_links_lookup.
    destruct (_ !! u) as [o|]; [|done]. simpl. f_equal.
    destruct o. unfold with_links. simpl. f_equal. set_solver.
  - by rewrite <- H.
Qed.




(** ** Neighbourhoods *)

Section traversal_properties.

Variable iter : gset (string * string) → list (string * string).
Hypothesis iter_spec : ∀ s x, x ∈ iter s ↔ x ∈ s.

Variable objs : gmap string GraphObject.

Lemma visit_known d st v lt : v ∈ st.1.*1 → visit objs d st (v, lt) = st.
Proof. intros Hv. unfold visit. simpl. by rewrite decide_True. Qed.

Lemma visit_absent d st v lt :
  objs !! v = None → visit objs d st (v, lt) = st.
Proof. intros Hv. unfold visit. simpl. rewrite Hv. by case_decide. Qed.

Lemma visit_new d cluster queue v lt o :
  v ∉ cluster.*1 → objs !! v = Some o →
  visit objs d (cluster, queue) (v, lt)
  = (cluster ++ [(v, o)], queue ++ [(v, (d + 1)%Z)]).
Proof. intros Hn Hv. unfold visit. simpl. rewrite decide_False by done. by rewrite Hv. Qed.

(** The [for] loop over the links of an object at depth [d]: [L] lists the
    uids discovered before it with their depths, [N] those it discovers. *)
Lemma visit_fold ns d (cluster : list (string * GraphObject))
    (queue : list (string * Z)) (L : list (string * nat)) :
  cluster.*1 = L.*1 →
  (∀ u o, (u, o) ∈ cluster → objs !! u = Some o) →
  NoDup L.*1 →
  ∃ N, (foldl (visit objs (Z.of_nat d)) (cluster, queue) ns).1.*1 = (L ++ N).*1
    ∧ (foldl (visit objs (Z.of_nat d)) (cluster, queue) ns).2 = queue ++ (queued <$> N)
    ∧ (∀ u o, (u, o) ∈ (foldl (visit objs (Z.of_nat d)) (cluster, queue) ns).1 →
              objs !! u = Some o)
    ∧ NoDup (L ++ N).*1
    ∧ (∀ x, x ∈ N → x.2 = S d ∧ ∃ lt, (x.1, lt) ∈ ns)
    ∧ (∀ v lt, (v, lt) ∈ ns → is_Some (objs !! v) → v ∈ (L ++ N).*1).
Proof.
  revert cluster queue L. induction ns as [|[v lt] ns IH]; intros cluster queue L Hk Ho Hnd.
  - exists []. simpl. rewrite !app_nil_r.
    split; [done|]. split; [done|]. split; [done|]. split; [done|]. split.
    + intros x Hx. by apply not_elem_of_nil in Hx.
    + intros v lt Hv. by apply not_elem_of_nil in Hv.
  - cbn [foldl].
    destruct (decide (v ∈ cluster.*1)) as [Hin|Hnin].
    { rewrite visit_known by done.
      destruct (IH cluster queue L Hk Ho Hnd) as (N & H1 & H2 & H3 & H4 & H5 & H6).
      exists N. split; [done|]. split; [done|]. split; [done|]. split; [done|]. split.
      - intros x Hx. destruct (H5 x Hx) as [? [lt' Hlt]].
        split; [done|]. exists lt'. by right.
      - intros v' lt' [[= -> ->]|Hv']%elem_of_cons Hs.
        + rewrite fmap_app. apply elem_of_app. left. by rewrite <- Hk.
        + by eapply H6. }
    destruct (objs !! v) as [o|] eqn:Hv.
    2:{ rewrite visit_absent by done.
        destruct (IH cluster queue L Hk Ho Hnd) as (N & H1 & H2 & H3 & H4 & H5 & H6).
        exists N. split; [done|]. split; [done|]. split; [done|]. split; [done|]. split.
        - intros x Hx. destruct (H5 x Hx) as [? [lt' Hlt]].
          split; [done|]. exists lt'. by right.
        - intros v' lt' [[= -> ->]|Hv']%elem_of_cons Hs.
          + rewrite Hv in Hs. by destruct Hs.
          + by eapply H6. }
    rewrite (visit_new _ _ _ _ _ o) by done.
    destruct (IH (cluster ++ [(v, o)]) (queue ++ [(v, (Z.of_nat d + 1)%Z)])
                 (L ++ [(v, S d)]))
      as (N & H1 & H2 & H3 & H4 & H5 & H6).
    { by rewrite !fmap_app, Hk. }
    { intros u o' [Hu|[= -> ->]%list_elem_of_singleton]%elem_of_app; [by apply Ho|done]. }
    { rewrite fmap_app. apply NoDup_app. split; [done|]. split.
      - intros x Hx [= ->]%list_elem_of_singleton. apply Hnin. by rewrite Hk.
      - apply NoDup_singleton. }
    exists ((v, S d) :: N).
    rewrite <- !(assoc_L (++)) in *. simpl in *.
    split; [done|]. split.
    { rewrite H2. unfold queued at 2. simpl. by rewrite Nat2Z.inj_succ, Z.add_1_r. }
    split; [done|]. split; [done|]. split.
    + intros x [->|Hx]%elem_of_cons.
      * split; [done|]. exists lt. by left.
      * destruct (H5 x Hx) as [? [lt' Hlt]]. split; [done|]. exists lt'. by right.
    + intros v' lt' [[= -> ->]|Hv']%elem_of_cons Hs.
      * rewrite fmap_app. apply elem_of_app. right. by left.
      * by eapply H6.
Qed.

Variables (seed : string) (k : nat).

Lemma StronglySorted_const (c : nat) (l : list nat) :
  (∀ x, x ∈ l → x = c) → StronglySorted le l.
Proof.
  induction l as [|a l IH]; intros Hl; constructor.
  - apply IH. intros x Hx. apply Hl. by right.
  - apply Forall_forall. intros x Hx.
    rewrite (Hl a), (Hl x); [done|by right|by left].
Qed.

Lemma cluster_lookup (cluster : list (string * GraphObject)) (L : list (string * nat)) u :
  cluster.*1 = L.*1 → u ∈ L.*1 → ∃ o, (u, o) ∈ cluster.
Proof.
  intros Hk Hu. rewrite <- Hk in Hu.
  apply list_elem_of_fmap in Hu as ([u' o] & -> & Ho). by exists o.
Qed.

Lemma bfs_inv_length P Q cluster queue :
  bfs_inv objs seed k P Q cluster queue → length (P ++ Q) ≤ size objs.
Proof.
  intros Hinv. rewrite <- (length_fmap fst), <- size_dom.
  rewrite <- (size_list_to_set (C := gset string)) by apply Hinv.
  apply subseteq_size. intros u Hu%elem_of_list_to_set.
  destruct (cluster_lookup cluster (P ++ Q) u) as [o Ho]; [apply Hinv|done|].
  apply elem_of_dom. rewrite (inv_objs _ _ _ _ _ _ _ Hinv u o Ho). eauto.
Qed.

Lemma bfs_inv_skip P u d Q cluster queue :
  bfs_inv objs seed k P ((u, d) :: Q) cluster queue → k ≤ d →
  bfs_inv objs seed k (P ++ [(u, d)]) Q cluster (queued <$> Q).
Proof.
  intros Hinv Hd.
  assert ((P ++ [(u, d)]) ++ Q = P ++ (u, d) :: Q) as Heq
    by (by rewrite <- (assoc_L (++))).
  constructor; rewrite ?Heq; try apply Hinv; try done.
  - intros x q Hx Hq. apply (inv_near _ _ _ _ _ _ _ Hinv); [done|by right].
  - intros x v [Hx|Hx]%elem_of_app Hlt.
    + by apply (inv_done _ _ _ _ _ _ _ Hinv).
    + apply list_elem_of_singleton in Hx as ->. simpl in Hlt. lia.
Qed.

Lemma bfs_inv_expand P u d Q cluster queue o :
  bfs_inv objs seed k P ((u, d) :: Q) cluster queue → d < k → objs !! u = Some o →
  ∃ N, bfs_inv objs seed k (P ++ [(u, d)]) (Q ++ N)
         (foldl (visit objs (Z.of_nat d)) (cluster, queued <$> Q) (iter (links o))).1
         (foldl (visit objs (Z.of_nat d)) (cluster, queued <$> Q) (iter (links o))).2.
Proof.
  intros Hinv Hd Ho.
  destruct (visit_fold (iter (links o)) d cluster (queued <$> Q) (P ++ (u, d) :: Q))
    as (N & H1 & H2 & H3 & H4 & H5 & H6); [apply Hinv..|].
  exists N.
  assert ((P ++ [(u, d)]) ++ Q ++ N = (P ++ (u, d) :: Q) ++ N) as Heq
    by (by rewrite <- !(assoc_L (++))).
  assert ((u, d) ∈ P ++ (u, d) :: Q) as Hin by (apply elem_of_app; right; by left).
  assert (∀ x, x ∈ P ++ (u, d) :: Q → x.2 ≤ S d) as Hle.
  { intros x Hx. apply (inv_near _ _ _ _ _ _ _ Hinv x (u, d) Hx). by left. }
  assert (∀ q, q ∈ Q → d ≤ q.2) as Hge.
  { intros q Hq. pose proof (inv_sorted _ _ _ _ _ _ _ Hinv) as Hs.
    rewrite fmap_app, fmap_cons in Hs. apply StronglySorted_app_1_r in Hs.
    apply StronglySorted_inv in Hs as [_ Hall].
    rewrite Forall_forall in Hall. apply Hall. by apply list_elem_of_fmap_2. }
  constructor; rewrite ?Heq.
  - done.
  - by rewrite H2, fmap_app.
  - done.
  - done.
  - pose proof (inv_head _ _ _ _ _ _ _ Hinv) as Hh.
    destruct (P ++ (u, d) :: Q); [done|]. done.
  - rewrite fmap_app. apply StronglySorted_app_2.
    + intros x1 x2 ([u1 d1] & -> & Hx1)%list_elem_of_fmap
                   ([u2 d2] & -> & Hx2)%list_elem_of_fmap. simpl.
      destruct (H5 _ Hx2) as [Hd2 _]. simpl in Hd2. subst d2. by apply (Hle _ Hx1).
    + apply Hinv.
    + apply (StronglySorted_const (S d)).
      intros x ([u2 d2] & -> & Hx2)%list_elem_of_fmap. by destruct (H5 _ Hx2).
  - intros x q Hx Hq.
    assert (d ≤ q.2) as Hq'.
    { apply elem_of_app in Hq as [Hq|Hq]; [by apply Hge|].
      destruct (H5 _ Hq) as [-> _]. lia. }
    apply elem_of_app in Hx as [Hx|Hx].
    + pose proof (Hle _ Hx). lia.
    + destruct (H5 _ Hx) as [-> _]. lia.
  - intros x [Hx|Hx]%elem_of_app; [by apply (inv_path _ _ _ _ _ _ _ Hinv)|].
    destruct (H5 _ Hx) as [-> [lt Hlt]]. split; [lia|].
    apply (path_step _ _ _ u).
    + by apply (inv_path _ _ _ _ _ _ _ Hinv (u, d)).
    + exists o, lt. split; [done|]. by apply iter_spec.
  - intros x v [Hx|Hx]%elem_of_app Hlt Hhop Hv.
    + destruct (inv_done _ _ _ _ _ _ _ Hinv x v Hx Hlt Hhop Hv) as (y & Hy & Hy1 & Hy2).
      exists y. split; [|done]. apply elem_of_app. by left.
    + apply list_elem_of_singleton in Hx as ->. destruct Hhop as (o' & lt & Ho' & Hl). simpl in Ho'. simplify_eq.
      apply iter_spec in Hl.
      apply (H6 _ _ Hl) in Hv.
      apply list_elem_of_fmap in Hv as (y & -> & Hy). exists y.
      split; [done|]. split; [done|]. simpl.
      apply elem_of_app in Hy as [Hy|Hy]; [by apply Hle|].
      by destruct (H5 _ Hy) as [-> _].
Qed.

(** The loop ends within the fuel [get_neighborhood] gives it, raises
    nothing, and ends with the queue empty. *)
Lemma bfs_returns fuel P Q cluster queue :
  bfs_inv objs seed k P Q cluster queue → size objs ≤ fuel + length P →
  ∃ L cluster',
    bfs iter fuel objs (Z.of_nat k) cluster queue = Some (Ok cluster')
    ∧ bfs_inv objs seed k L [] cluster' [].
Proof.
  revert P Q cluster queue.
  induction fuel as [|fuel IH]; intros P Q cluster queue Hinv Hfuel;
    pose proof (bfs_inv_length _ _ _ _ Hinv) as Hlen; rewrite length_app in Hlen;
    destruct Q as [|[u d] Q]; pose proof (inv_queue _ _ _ _ _ _ _ Hinv) as Hq; subst queue.
  - exists P, cluster. split; [done|]. exact Hinv.
  - simpl in *. lia.
  - exists P, cluster. split; [done|]. exact Hinv.
  - cbn [fmap list_fmap queued bfs fst snd].
    assert (fuel + length (P ++ [(u, d)]) ≥ size objs) as Hfuel'
      by (rewrite length_app; simpl; lia).
    destruct (Z.of_nat d >=? Z.of_nat k)%Z eqn:Hd.
    + apply (IH (P ++ [(u, d)]) Q); [|done].
      apply (bfs_inv_skip _ _ _ _ _ _ Hinv). apply Z.geb_le in Hd. lia.
    + assert (d < k) as Hd'.
      { rewrite Z.geb_leb in Hd. apply Z.leb_gt in Hd. lia. }
      destruct (cluster_lookup cluster (P ++ (u, d) :: Q) u) as [o Ho].
      { apply Hinv. }
      { rewrite fmap_app. apply elem_of_app. right. by left. }
      apply (inv_objs _ _ _ _ _ _ _ Hinv) in Ho. rewrite Ho.
      destruct (bfs_inv_expand P u d Q cluster _ o Hinv Hd' Ho) as [N HN].
      by apply (IH (P ++ [(u, d)]) (Q ++ N)).
Qed.

Lemma bfs_inv_init o :
  objs !! seed = Some o → bfs_inv objs seed k [] [(seed, 0)] [(seed, o)] [(seed, 0%Z)].
Proof.
  intros Ho. constructor; simpl; try done.
  - by intros u o' [= -> ->]%list_elem_of_singleton.
  - apply NoDup_singleton.
  - repeat constructor.
  - intros x q ->%list_elem_of_singleton ->%list_elem_of_singleton. simpl. lia.
  - intros x ->%list_elem_of_singleton. simpl. split; [lia|constructor].
  - intros x v Hx. by apply not_elem_of_nil in Hx.
Qed.

(** When the loop has ended, every object within [k] links of the seed is in
    the cluster, at a depth no larger than the length of any chain to it. *)
Lemma bfs_inv_complete L cluster n w :
  bfs_inv objs seed k L [] cluster [] → path objs seed n w → n ≤ k → is_Some (objs !! w) →
  ∃ y : string * nat, y ∈ L ∧ y.1 = w ∧ y.2 ≤ n.
Proof.
  intros Hinv Hp. induction Hp as [|n v w Hp IH Hhop]; intros Hn Hw.
  - pose proof (inv_head _ _ _ _ _ _ _ Hinv) as Hh. rewrite app_nil_r in Hh.
    exists (seed, 0). split; [|done]. destruct L; simplify_eq/=. by left.
  - destruct IH as (y & Hy & <- & Hyn); [lia|..].
    { destruct Hhop as (o & lt & -> & _). eauto. }
    destruct (inv_done _ _ _ _ _ _ _ Hinv y w Hy) as (z & Hz & <- & Hzn); [lia|done..|].
    rewrite app_nil_r in Hz. exists z. split; [done|]. split; [done|lia].
Qed.

Lemma bfs_inv_shortest L cluster (x : string * nat) n :
  bfs_inv objs seed k L [] cluster [] → x ∈ L → path objs seed n x.1 → x.2 ≤ n.
Proof.
  intros Hinv Hx Hp.
  pose proof (inv_path _ _ _ _ _ _ _ Hinv x) as [Hk _]; [by rewrite app_nil_r|].
  destruct (decide (n ≤ k)) as [Hn|Hn]; [|lia].
  destruct (bfs_inv_complete L cluster n x.1 Hinv Hp Hn) as (y & Hy & Hy1 & Hy2).
  { destruct (cluster_lookup cluster L x.1) as [o Ho].
    - rewrite (inv_keys _ _ _ _ _ _ _ Hinv). by rewrite app_nil_r.
    - by apply list_elem_of_fmap_2.
    - rewrite (inv_objs _ _ _ _ _ _ _ Hinv _ _ Ho). eauto. }
  pose proof (inv_nodup _ _ _ _ _ _ _ Hinv) as Hnd. rewrite app_nil_r in Hnd.
  assert (y = x) as ->; [|done].
  apply list_elem_of_lookup in Hy as [i Hi]. apply list_elem_of_lookup in Hx as [j Hj].
  assert (i = j) as ->; [|congruence].
  eapply (NoDup_lookup _ _ _ _ Hnd); rewrite list_lookup_fmap.
  - by rewrite Hi.
  - rewrite Hj. simpl. by rewrite Hy1.
Qed.

Lemma cluster_objects (cluster : list (string * GraphObject)) (L : list (string * nat)) :
  cluster.*1 = L.*1 → (∀ u o, (u, o) ∈ cluster → objs !! u = Some o) →
  Forall2 (λ (o : GraphObject) (x : string * nat), objs !! x.1 = Some o) cluster.*2 L.
Proof.
  revert L. induction cluster as [|[u o] cluster IH]; intros [|[u' d] L] Hk Ho;
    simplify_eq/=; constructor.
  - simpl. apply Ho. by left.
  - apply IH; [done|]. intros u2 o2 Hin. apply Ho. by right.
Qed.

End traversal_properties.

(** X1: With a depth that is not positive only the seed is returned. *)
Lemma get_neighborhood_seed_only iter (objs : gmap string GraphObject) uid o depth :
  objs !! uid = Some o → (depth ≤ 0)%Z →
  get_neighborhood iter objs uid depth = Some (Ok [o]).
Proof.
  intros Ho Hd. unfold get_neighborhood. rewrite Ho.
  destruct (size objs) as [|fuel] eqn:Hs.
  - apply map_size_empty_iff in Hs. subst. by rewrite lookup_empty in Ho.
  - simpl. assert ((0 >=? depth)%Z = true) as -> by (apply Z.geb_le; lia).
    by destruct fuel.
Qed.

(** C8: [get_neighborhood uid k] returns the empty list when [uid] is not in
    the index.  Otherwise it returns (within its fuel, raising nothing) the
    objects stored under a list [L] of uids, each with its depth, such that:
    no uid occurs twice; the seed comes first, at depth 0; depths never
    decrease along the list (breadth-first order); each depth is at most [k]
    and is the length of a shortest chain of links from the seed, so nothing
    farther than [k] links is returned; and every object of the index within
    [k] links of the seed is in the list. *)
Theorem get_neighborhood_bfs
    (iter : gset (string * string) → list (string * string))
    (objs : gmap string GraphObject) (uid : string) (k : nat) :
  (∀ s x, x ∈ iter s ↔ x ∈ s) →
  (objs !! uid = None → get_neighborhood iter objs uid (Z.of_nat k) = Some (Ok []))
  ∧ (∀ o, objs !! uid = Some o →
     ∃ (L : list (string * nat)) (result : list GraphObject),
       get_neighborhood iter objs uid (Z.of_nat k) = Some (Ok result)
       ∧ Forall2 (λ (o : GraphObject) (x : string * nat), objs !! x.1 = Some o) result L
       ∧ NoDup L.*1
       ∧ head L = Some (uid, 0)
       ∧ head result = Some o
       ∧ StronglySorted le L.*2
       ∧ (∀ x : string * nat, x ∈ L →
            x.2 ≤ k ∧ path objs uid x.2 x.1 ∧ ∀ n, path objs uid n x.1 → x.2 ≤ n)
       ∧ (∀ n w, n ≤ k → path objs uid n w → is_Some (objs !! w) → w ∈ L.*1)).
Proof.
  intros iter_spec. split.
  - intros Hu. unfold get_neighborhood. by rewrite Hu.
  - intros o Ho. unfold get_neighborhood. rewrite Ho.
    destruct (bfs_returns iter iter_spec objs uid k (size objs) []
                [(uid, 0)] [(uid, o)] [(uid, 0%Z)])
      as (L & cluster & -> & Hinv); [by apply bfs_inv_init|simpl; lia|].
    pose proof (inv_keys _ _ _ _ _ _ _ Hinv) as Hkeys.
    pose proof (inv_head _ _ _ _ _ _ _ Hinv) as Hhead.
    pose proof (inv_nodup _ _ _ _ _ _ _ Hinv) as Hnd.
    pose proof (inv_sorted _ _ _ _ _ _ _ Hinv) as Hsorted.
    rewrite app_nil_r in Hkeys, Hhead, Hnd, Hsorted.
    pose proof (cluster_objects objs cluster L Hkeys (inv_objs _ _ _ _ _ _ _ Hinv)) as Hall.
    exists L, cluster.*2.
    split; [done|]. split; [done|]. split; [done|]. split; [done|]. split.
    { destruct Hall as [|o' [u d] result L' Ho' _]; simplify_eq/=. congruence. }
    split; [done|]. split.
    + intros x Hx.
      destruct (inv_path _ _ _ _ _ _ _ Hinv x) as [Hk Hp]; [by rewrite app_nil_r|].
      split; [done|]. split; [done|].
      intros n Hn. by eapply bfs_inv_shortest.
    + intros n w Hn Hp Hw.
      destruct (bfs_inv_complete objs uid k L cluster n w Hinv Hp Hn Hw) as (y & Hy & <- & _).
      by apply list_elem_of_fmap_2.
Qed.

Lemma get_neighborhood_bfs_witness :
  get_neighborhood elements ring "zz" (Z.of_nat 1) = Some (Ok [])
  ∧ ∃ (L : list (string * nat)) (result : list GraphObject),
      get_neighborhood elements ring "a" (Z.of_nat 1) = Some (Ok result)
      ∧ Forall2 (λ (o : GraphObject) (x : string * nat), ring !! x.1 = Some o) result L
      ∧ NoDup L.*1
      ∧ head L = Some ("a", 0)
      ∧ head result = ring !! "a"
      ∧ StronglySorted le L.*2
      ∧ (∀ x : string * nat, x ∈ L →
           x.2 ≤ 1 ∧ path ring "a" x.2 x.1 ∧ ∀ n, path ring "a" n x.1 → x.2 ≤ n)
      ∧ (∀ n w, n ≤ 1 → path ring "a" n w → is_Some (ring !! w) → w ∈ L.*1).
Proof.
  split.
  - apply (get_neighborhood_bfs elements ring "zz" 1).
    + intros s x. apply elem_of_elements.
    + vm_compute. reflexivity.
  - assert (ring !! "a" = Some {| uid := "a"; type := "symbol"; properties := ∅;
               links := {[ ("b", "calls"); ("zz", "calls") ]}; created_at := "t" |})
      as Ha by (vm_compute; reflexivity).
    rewrite Ha.
    apply (get_neighborhood_bfs elements ring "a" 1).
    + intros s x. apply elem_of_elements.
    + exact Ha.
Defined.

Example get_neighborhood_ring :
  match get_neighborhood elements ring "a" 1%Z with
  | Some (Ok result) => uid <$> result
  | _ => []
  end = ["a"; "b"]
  ∧ match get_neighborhood elements ring "a" 2%Z with
    | Some (Ok result) => uid <$> result
    | _ => []
    end = ["a"; "b"; "c"].
Proof. split; vm_compute; reflexivity. Qed.

(** ** The matcher and the languages of the patterns *)

Lemma lastc_app prev w1 w2 : lastc prev (w1 ++ w2) = lastc (lastc prev w1) w2.
Proof. apply foldl_app. Qed.

Lemma rep_sound p s : ∀ lo hi prev k n,
  rep p lo hi prev s k = Some n →
  ∃ w rest m, s = w ++ rest ∧ sem (Rep p lo hi) w
    ∧ k (lastc prev w) rest = Some m ∧ n = length w + m.
Proof.
  induction s as [|c s IH]; intros lo hi prev k n Hn; simpl in Hn.
  - destruct lo; [|done]. exists [], [], n. simpl. repeat split; try done.
    destruct hi; simpl; lia.
  - assert (match lo with 0 => k prev (c :: s) | S _ => None end = Some n →
            ∃ w rest m, c :: s = w ++ rest ∧ sem (Rep p lo hi) w
              ∧ k (lastc prev w) rest = Some m ∧ n = length w + m) as Hstop.
    { destruct lo; [|done]. intros Hk. exists [], (c :: s), n. simpl.
      repeat split; try done. destruct hi; simpl; lia. }
    destruct (p c) eqn:Hc; [|by apply Hstop].
    destruct (hi_open hi) eqn:Hhi; [|by apply Hstop]. simpl in Hn.
    destruct (rep p (pred lo) (hi_pred hi) (Some c) s k) as [n'|] eqn:Hrec;
      [|by apply Hstop].
    injection Hn as <-.
    destruct (IH _ _ _ _ _ Hrec) as (w & rest & m & -> & (Hall & Hlo & Hw) & Hk & ->).
    exists (c :: w), rest, m. simpl. repeat split; try done.
    + by constructor.
    + lia.
    + destruct hi as [[|h]|]; simpl in *; try done. lia.
Qed.

Lemma mt_sound r : ∀ prev s k n,
  mt r prev s k = Some n →
  ∃ w rest m, s = w ++ rest ∧ sem r w ∧ k (lastc prev w) rest = Some m
    ∧ n = length w + m.
Proof.
  induction r as [|p| |r1 IH1 r2 IH2|r1 IH1 r2 IH2|p lo hi]; intros prev s k n Hn;
    simpl in Hn.
  - by exists [], s, n.
  - destruct s as [|c s]; [done|]. destruct (p c) eqn:Hc; [|done].
    destruct (k (Some c) s) as [m|] eqn:Hk; [|done]. injection Hn as <-.
    exists [c], s, m. repeat split; try done. by exists c.
  - destruct (boundary prev s); [|done]. by exists [], s, n.
  - destruct (IH1 _ _ _ _ Hn) as (w1 & rest1 & m1 & -> & Hw1 & Hk1 & ->).
    destruct (IH2 _ _ _ _ Hk1) as (w2 & rest & m & -> & Hw2 & Hk & ->).
    exists (w1 ++ w2), rest, m. rewrite lastc_app, length_app, <- (assoc_L (++)).
    repeat split; try done; [by exists w1, w2|lia].
  - destruct (mt r1 prev s k) as [n1|] eqn:H1.
    + injection Hn as <-.
      destruct (IH1 _ _ _ _ H1) as (w & rest & m & -> & Hw & Hk & ->).
      exists w, rest, m. repeat split; try done. by left.
    + destruct (IH2 _ _ _ _ Hn) as (w & rest & m & -> & Hw & Hk & ->).
      exists w, rest, m. repeat split; try done. by right.
  - by apply rep_sound.
Qed.

Lemma rep_complete p w : ∀ lo hi prev rest k,
  sem (Rep p lo hi) w → is_Some (k (lastc prev w) rest) →
  is_Some (rep p lo hi prev (w ++ rest) k).
Proof.
  induction w as [|c w IH]; intros lo hi prev rest k (Hall & Hlo & Hhi) Hk.
  - simpl in *. assert (lo = 0) as -> by lia.
    destruct rest as [|c rest]; simpl; [done|].
    destruct (p c && hi_open hi); [|done].
    by destruct (rep p _ _ _ _ _).
  - simpl in *. apply Forall_cons in Hall as [Hc Hall]. rewrite Hc.
    assert (hi_open hi = true) as ->.
    { destruct hi as [[|h]|]; simpl in *; try done. lia. }
    simpl.
    destruct (IH (pred lo) (hi_pred hi) (Some c) rest k) as [n Hn]; [|done|].
    { repeat split; [done|lia|]. destruct hi as [h|]; simpl in *; [lia|done]. }
    rewrite Hn. eauto.
Qed.

Lemma mt_complete r : ∀ w prev rest k,
  bfree r = true → sem r w → is_Some (k (lastc prev w) rest) →
  is_Some (mt r prev (w ++ rest) k).
Proof.
  induction r as [|p| |r1 IH1 r2 IH2|r1 IH1 r2 IH2|p lo hi]; intros w prev rest k Hb Hw Hk;
    simpl in *.
  - by subst.
  - destruct Hw as (c & -> & Hc). simpl in *. rewrite Hc.
    destruct Hk as [m ->]. simpl. eauto.
  - done.
  - apply andb_prop in Hb as [Hb1 Hb2].
    destruct Hw as (w1 & w2 & -> & Hw1 & Hw2). rewrite <- (assoc_L (++)).
    apply IH1; [done..|]. apply IH2; [done..|]. by rewrite <- lastc_app.
  - apply andb_prop in Hb as [Hb1 Hb2].
    destruct (mt r1 prev (w ++ rest) k) as [n|] eqn:H1; [eauto|].
    destruct Hw as [Hw|Hw].
    + destruct (IH1 w prev rest k Hb1 Hw Hk) as [n Hn]. congruence.
    + by apply IH2.
  - by apply rep_complete.
Qed.

Lemma sem_accepts r : ∀ w, sem r w → Forall (λ c, accepts r c = true) w.
Proof.
  induction r as [|p| |r1 IH1 r2 IH2|r1 IH1 r2 IH2|p lo hi]; intros w Hw; simpl in *.
  - by subst.
  - destruct Hw as (c & -> & Hc). by repeat constructor.
  - by subst.
  - destruct Hw as (w1 & w2 & -> & Hw1 & Hw2). apply Forall_app. split.
    + eapply Forall_impl; [by apply IH1|]. intros c Hc. simpl in Hc. by rewrite Hc.
    + eapply Forall_impl; [by apply IH2|]. intros c Hc. simpl in Hc.
      rewrite Hc. apply orb_true_r.
  - destruct Hw as [Hw|Hw].
    + eapply Forall_impl; [by apply IH1|]. intros c Hc. simpl in Hc. by rewrite Hc.
    + eapply Forall_impl; [by apply IH2|]. intros c Hc. simpl in Hc.
      rewrite Hc. apply orb_true_r.
  - apply Hw.
Qed.

Lemma sem_nonempty r : ∀ w, nullable r = false → sem r w → w ≠ [].
Proof.
  induction r as [|p| |r1 IH1 r2 IH2|r1 IH1 r2 IH2|p lo hi]; intros w Hn Hw;
    simpl in *; try done.
  - by destruct Hw as (c & -> & _).
  - destruct Hw as (w1 & w2 & -> & Hw1 & Hw2).
    apply andb_false_iff in Hn as [Hn|Hn]; intros [-> ->]%app_eq_nil.
    + by apply (IH1 [] Hn).
    + by apply (IH2 [] Hn).
  - apply orb_false_iff in Hn as [Hn1 Hn2]. destruct Hw; [by apply IH1|by apply IH2].
  - destruct lo; [done|]. destruct Hw as (_ & Hlo & _). intros ->. simpl in Hlo. lia.
Qed.

Lemma match_at_sound r prev s n :
  match_at r prev s = Some n → ∃ w rest, s = w ++ rest ∧ sem r w ∧ n = length w.
Proof.
  intros (w & rest & m & -> & Hw & [= <-] & ->)%mt_sound.
  exists w, rest. repeat split; [done|lia].
Qed.

Lemma match_at_complete r prev w rest :
  bfree r = true → sem r w → is_Some (match_at r prev (w ++ rest)).
Proof. intros Hb Hw. by apply mt_complete. Qed.

(** A pattern that is not nullable has no empty match. *)
Lemma match_at_pos r prev s n :
  nullable r = false → match_at r prev s = Some n →
  ∃ c w rest, s = c :: w ++ rest ∧ sem r (c :: w) ∧ n = S (length w).
Proof.
  intros Hn (w & rest & -> & Hw & ->)%match_at_sound.
  destruct w as [|c w]; [by apply sem_nonempty in Hw|]. by exists c, w, rest.
Qed.

(** ** Scanning *)

Lemma is_char_eq a c : is_char a c = true → a = c.
Proof.
  unfold is_char, code. intros H%N.eqb_eq.
  by rewrite <- (ascii_N_embedding a), <- (ascii_N_embedding c), H.
Qed.

Lemma sem_plain d w : bracketless d = true → sem d w → plain w.
Proof.
  intros [H1 H2]%andb_prop Hw. apply negb_true_iff in H1, H2.
  eapply Forall_impl; [by apply sem_accepts|]. intros c Hc. simpl in Hc.
  unfold is_bracket.
  destruct (is_char "[" c) eqn:E1; [apply is_char_eq in E1; congruence|].
  destruct (is_char "]" c) eqn:E2; [apply is_char_eq in E2; congruence|]. done.
Qed.

Lemma findall_from_nil_iff r s : ∀ prev,
  findall_from r prev s 0 = [] ↔ ∀ A B, s = A ++ B → match_at r (lastc prev A) B = None.
Proof.
  induction s as [|c s IH]; intros prev; simpl.
  - split.
    + intros H A B [-> ->]%eq_sym%app_eq_nil. simpl. by destruct (match_at r prev []).
    + intros H. specialize (H [] [] eq_refl). simpl in H. by rewrite H.
  - destruct (match_at r prev (c :: s)) as [[|n]|] eqn:Hm.
    + split; [done|]. intros H. specialize (H [] (c :: s) eq_refl). simpl in H. congruence.
    + split; [done|]. intros H. specialize (H [] (c :: s) eq_refl). simpl in H. congruence.
    + rewrite IH. split.
      * intros H [|a A] B HAB; simpl in *; [by subst|].
        injection HAB as <- ->. by apply H.
      * intros H A B ->. by apply (H (c :: A) B).
Qed.

Lemma matchless_findall d s : matchless d s → findall d s = [].
Proof.
  intros Hs. apply findall_from_nil_iff. intros A B ->.
  destruct (match_at d _ B) as [n|] eqn:Hm; [|done].
  apply match_at_sound in Hm as (w & rest & -> & Hw & _).
  by destruct (Hs A w rest).
Qed.

Lemma findall_matchless d s : bfree d = true → findall d s = [] → matchless d s.
Proof.
  intros Hb Hf A w B -> Hw.
  pose proof (proj1 (findall_from_nil_iff d _ None) Hf A (w ++ B) eq_refl) as Hn.
  destruct (match_at_complete d (lastc None A) w B Hb Hw) as [n Hn']. congruence.
Qed.

(** A text none of whose characters the pattern accepts. *)
Lemma matchless_foreign d s :
  nullable d = false → forallb (λ c, negb (accepts d c)) s = true → matchless d s.
Proof.
  intros Hn Hs A w B -> Hw.
  pose proof (sem_nonempty d w Hn Hw) as Hne. apply sem_accepts in Hw.
  destruct w as [|c w]; [done|]. apply Forall_cons in Hw as [Hc _].
  rewrite !forallb_app in Hs. simpl in Hs.
  apply andb_prop in Hs as [_ [[Hc' _]%andb_prop _]%andb_prop].
  rewrite Hc in Hc'. done.
Qed.

Section substitution.

(** The pattern substituted and the inside of its placeholder. *)
Variables (r : regex) (iq : list ascii).
Hypothesis r_nonnull : nullable r = false.

#[local] Notation ph := (bracketed iq).

Lemma sub_from_skip w : ∀ prev rest,
  sub_from r ph prev (w ++ rest) (length w) = sub_from r ph (lastc prev w) rest 0.
Proof.
  induction w as [|c w IH]; intros prev rest; simpl.
  - by destruct rest.
  - apply IH.
Qed.

Lemma sub_from_nil prev : sub_from r ph prev [] 0 = [].
Proof.
  simpl. destruct (match_at r prev []) as [n|] eqn:Hm; [|done].
  by apply match_at_pos in Hm as (c & w & rest & ? & _).
Qed.

Lemma sub_from_match prev s n :
  match_at r prev s = Some n →
  ∃ w rest, s = w ++ rest ∧ sem r w ∧ w ≠ []
    ∧ sub_from r ph prev s 0 = ph ++ sub_from r ph (lastc prev w) rest 0.
Proof.
  intros Hm. pose proof Hm as (c & w & rest & -> & Hw & ->)%match_at_pos; [|done].
  exists (c :: w), rest. split; [done|]. split; [done|]. split; [done|].
  cbn [sub_from app]. rewrite Hm. f_equal. exact (sub_from_skip w (Some c) rest).
Qed.

Lemma sub_from_nomatch prev c s :
  match_at r prev (c :: s) = None →
  sub_from r ph prev (c :: s) 0 = c :: sub_from r ph (Some c) s 0.
Proof. intros Hm. cbn [sub_from]. by rewrite Hm. Qed.

Lemma plain_cons_inv c w : plain (c :: w) → is_bracket c = false ∧ plain w.
Proof. intros H. by apply Forall_cons in H. Qed.

Lemma plain_app_inv w1 w2 : plain (w1 ++ w2) → plain w1 ∧ plain w2.
Proof. intros H. by apply Forall_app in H. Qed.

(** A bracket-free text at the head of the output stood at the head of the
    input. *)
Lemma sub_prefix w : plain w → ∀ prev s B,
  sub_from r ph prev s 0 = w ++ B → ∃ B', s = w ++ B'.
Proof.
  induction w as [|x w IH]; intros Hw prev s B Hs; [by exists s|].
  apply plain_cons_inv in Hw as [Hx Hw].
  destruct s as [|c s]; [by rewrite sub_from_nil in Hs|].
  destruct (match_at r prev (c :: s)) as [n|] eqn:Hm.
  - destruct (sub_from_match _ _ _ Hm) as (w' & rest & _ & _ & _ & Hsub).
    rewrite Hsub in Hs. injection Hs as <- _. done.
  - rewrite sub_from_nomatch in Hs by done. injection Hs as -> Hs.
    destruct (IH Hw _ _ _ Hs) as [B' ->]. by exists B'.
Qed.

(** A bracket-free text inside the placeholder is inside [iq]. *)
Lemma inside_placeholder A w Z :
  plain w → w ≠ [] → ph = A ++ w ++ Z → ∃ A' B', iq = A' ++ w ++ B'.
Proof.
  intros Hw Hne Hph. unfold bracketed in Hph.
  destruct A as [|a A].
  { destruct w as [|c w]; [done|]. injection Hph as <- _.
    by apply plain_cons_inv in Hw as [? _]. }
  injection Hph as <- Hph.
  destruct Z as [|z Z _] using rev_ind.
  - rewrite app_nil_r in Hph.
    destruct w as [|x w _] using rev_ind; [done|].
    rewrite (assoc_L (++)) in Hph. apply app_inj_tail in Hph as [_ <-].
    by apply plain_app_inv in Hw as [_ [? _]%plain_cons_inv].
  - rewrite !(assoc_L (++)) in Hph. apply app_inj_tail in Hph as [-> _].
    exists A, Z. by rewrite (assoc_L (++)).
Qed.

(** Where a bracket-free text of the output comes from: the inside of a
    placeholder, or a place of the input where the scan found no match. *)
Lemma sub_occurrence n : ∀ s, length s ≤ n → ∀ prev A w B,
  plain w → w ≠ [] → sub_from r ph prev s 0 = A ++ w ++ B →
  (∃ A' B', iq = A' ++ w ++ B')
  ∨ (∃ A' B', s = A' ++ w ++ B' ∧ match_at r (lastc prev A') (w ++ B') = None).
Proof.
  induction n as [|n IH]; intros s Hlen prev A w B Hw Hne Hs.
  { destruct s; [|simpl in Hlen; lia]. rewrite sub_from_nil in Hs.
    symmetry in Hs. apply app_eq_nil in Hs as [_ [? _]%app_eq_nil]. done. }
  destruct s as [|c s].
  { rewrite sub_from_nil in Hs.
    symmetry in Hs. apply app_eq_nil in Hs as [_ [? _]%app_eq_nil]. done. }
  simpl in Hlen.
  destruct (match_at r prev (c :: s)) as [m|] eqn:Hm.
  - destruct (sub_from_match _ _ _ Hm) as (w' & rest & Heq & Hw' & Hne' & Hsub).
    rewrite Hsub in Hs.
    assert (length rest ≤ n) as Hrest.
    { apply (f_equal length) in Heq. rewrite length_app in Heq. simpl in Heq.
      destruct w'; [done|]. simpl in Heq. lia. }
    apply app_eq_inv in Hs as [[Z [HA HZ]]|[Z [-> HZ]]].
    + (* the text starts inside the placeholder *)
      apply app_eq_inv in HZ as [[Z' [HwZ HB]]|[Z' [HZ' _]]].
      * destruct Z as [|z Z _] using rev_ind.
        { change ([] ++ Z') with Z' in HwZ. subst Z'.
          destruct (IH rest Hrest _ [] _ _ Hw Hne HB) as [Hin|(A' & B' & -> & Hnone)];
            [by left|right].
          exists (w' ++ A'), B'. rewrite Heq, <- (assoc_L (++)). split; [done|].
          by rewrite lastc_app. }
        exfalso. unfold bracketed in HA.
        rewrite app_comm_cons, (assoc_L (++)) in HA.
        apply app_inj_tail in HA as [_ <-]. subst w.
        by apply plain_app_inv in Hw as [[_ [? _]%plain_cons_inv]%plain_app_inv _].
      * left. apply (inside_placeholder A w Z'); [done..|]. by rewrite HA, HZ'.
    + (* the text starts after the placeholder *)
      destruct (IH rest Hrest _ _ _ _ Hw Hne HZ) as [Hin|(A' & B' & -> & Hnone)];
        [by left|right].
      exists (w' ++ A'), B'. rewrite Heq, <- (assoc_L (++)). split; [done|].
      by rewrite lastc_app.
  - rewrite sub_from_nomatch in Hs by done.
    destruct A as [|a A].
    + destruct w as [|x w]; [done|]. simpl in Hs. injection Hs as <- Hs.
      apply plain_cons_inv in Hw as [_ Hw].
      destruct (sub_prefix w Hw _ _ _ Hs) as [B' ->].
      right. by exists [], B'.
    + simpl in Hs. injection Hs as <- Hs.
      destruct (IH s ltac:(lia) _ _ _ _ Hw Hne Hs) as [Hin|(A' & B' & -> & Hnone)];
        [by left|right].
      by exists (c :: A'), B'.
Qed.

(** A pattern that matched nowhere in the input matches nowhere in the
    output, when its matches are bracket-free and none fits inside the
    placeholder. *)
Lemma matchless_sub_keep d prev s :
  bracketless d = true → nullable d = false → matchless d iq →
  matchless d s → matchless d (sub_from r ph prev s 0).
Proof.
  intros Hb Hn Hiq Hs A w B Hsub Hw.
  destruct (sub_occurrence (length s) s (le_n _) prev A w B) as
    [(A' & B' & Hin)|(A' & B' & Hin & _)];
    [by apply (sem_plain d)|by apply (sem_nonempty d)|done|..].
  - by apply (Hiq _ _ _ Hin).
  - by apply (Hs _ _ _ Hin).
Qed.

(** After its own substitution a pattern without [\b] matches nowhere. *)
Lemma matchless_sub_own prev s :
  bfree r = true → bracketless r = true → matchless r iq →
  matchless r (sub_from r ph prev s 0).
Proof.
  intros Hf Hb Hiq A w B Hsub Hw.
  destruct (sub_occurrence (length s) s (le_n _) prev A w B) as
    [(A' & B' & Hin)|(A' & B' & Hin & Hnone)];
    [by apply (sem_plain r)|by apply (sem_nonempty r)|done|..].
  - by apply (Hiq _ _ _ Hin).
  - destruct (match_at_complete r (lastc prev A') w B' Hf Hw) as [m Hm]. congruence.
Qed.

(** A match found means a placeholder written. *)
Lemma sub_inserts s : ∀ prev,
  findall_from r prev s 0 ≠ [] → ∃ A B, sub_from r ph prev s 0 = A ++ ph ++ B.
Proof.
  induction s as [|c s IH]; intros prev Hf.
  - simpl in Hf. destruct (match_at r prev []) as [n|] eqn:Hm; [|done].
    by apply match_at_pos in Hm as (c & w & rest & ? & _).
  - destruct (match_at r prev (c :: s)) as [n|] eqn:Hm.
    + destruct (sub_from_match _ _ _ Hm) as (w' & rest & _ & _ & _ & ->).
      by exists [], (sub_from r ph (lastc prev w') rest 0).
    + rewrite sub_from_nomatch by done. cbn [findall_from] in Hf. rewrite Hm in Hf.
      destruct (IH _ Hf) as (A & B & ->). by exists (c :: A), B.
Qed.

(** A bracket-free text that starts before a bracket ends before it. *)
Lemma plain_prefix w b : is_bracket b = true → plain w → ∀ u rest B,
  w ++ rest = u ++ b :: B → ∃ u', u = w ++ u'.
Proof.
  intros Hb. induction w as [|x w IH]; intros Hw u rest B Heq; [by exists u|].
  apply plain_cons_inv in Hw as [Hx Hw].
  destruct u as [|y u]; simpl in Heq; injection Heq as -> Heq; [congruence|].
  destruct (IH Hw _ _ _ Heq) as [u' ->]. by exists u'.
Qed.

Lemma match_at_bracket prev b s :
  bracketless r = true → is_bracket b = true → match_at r prev (b :: s) = None.
Proof.
  intros Hr Hb. destruct (match_at r prev (b :: s)) as [n|] eqn:Hm; [|done].
  apply match_at_pos in Hm as (c & w & rest & [= <- _] & Hw & _); [|done].
  apply (sem_plain r _ Hr), plain_cons_inv in Hw as [? _]. congruence.
Qed.

(** The scan walks through the inside [jq] of a placeholder that is already
    in the text, and leaves it as it is. *)
Lemma sub_through_inside jq j2 : bracketless r = true → matchless r jq →
  ∀ j1 prev B, jq = j1 ++ j2 →
  sub_from r ph prev (j2 ++ "]"%char :: B) 0
  = j2 ++ "]"%char :: sub_from r ph (Some "]"%char) B 0.
Proof.
  intros Hr Hjq. induction j2 as [|c j2 IH]; intros j1 prev B Hj; simpl.
  - change (sub_from r ph prev ("]"%char :: B) 0
            = "]"%char :: sub_from r ph (Some "]"%char) B 0).
    apply sub_from_nomatch. by apply match_at_bracket.
  - change (sub_from r ph prev (c :: j2 ++ "]"%char :: B) 0
            = c :: j2 ++ "]"%char :: sub_from r ph (Some "]"%char) B 0).
    destruct (match_at r prev (c :: j2 ++ "]"%char :: B)) as [n|] eqn:Hm.
    + exfalso. apply match_at_pos in Hm as (c' & w & rest & Heq & Hw & _); [|done].
      destruct (plain_prefix (c' :: w) "]" eq_refl (sem_plain r _ Hr Hw)
                  (c :: j2) rest B (eq_sym Heq)) as [u' Hu].
      apply (Hjq j1 (c' :: w) u'); [|done]. by rewrite Hj, Hu.
    + rewrite sub_from_nomatch by done. f_equal.
      apply (IH (j1 ++ [c])). by rewrite <- (assoc_L (++)).
Qed.

(** A placeholder that is in the text is in the text after the substitution
    of another pattern, when that pattern's matches are bracket-free and none
    fits inside the placeholder. *)
Lemma sub_keeps_placeholder jq n : bracketless r = true → matchless r jq →
  ∀ A, length A ≤ n → ∀ prev B,
  ∃ A2 B2, sub_from r ph prev (A ++ "["%char :: jq ++ "]"%char :: B) 0
           = A2 ++ "["%char :: jq ++ "]"%char :: B2.
Proof.
  intros Hr Hjq. induction n as [|n IH]; intros A Hlen prev B.
  - destruct A; [|simpl in Hlen; lia]. simpl.
    exists [], (sub_from r ph (Some "]"%char) B 0).
    change (sub_from r ph prev ("["%char :: jq ++ "]"%char :: B) 0
            = "["%char :: jq ++ "]"%char :: sub_from r ph (Some "]"%char) B 0).
    rewrite sub_from_nomatch by (by apply match_at_bracket). f_equal.
    by apply (sub_through_inside jq jq Hr Hjq []).
  - destruct A as [|a A].
    { apply (IH []). simpl. lia. }
    simpl in Hlen.
    change ((a :: A) ++ "["%char :: jq ++ "]"%char :: B)
      with (a :: A ++ "["%char :: jq ++ "]"%char :: B).
    destruct (match_at r prev (a :: A ++ "["%char :: jq ++ "]"%char :: B))
      as [m|] eqn:Hm.
    + destruct (sub_from_match _ _ _ Hm) as (w & rest & Heq & Hw & Hne & ->).
      destruct (plain_prefix w "[" eq_refl (sem_plain r _ Hr Hw)
                  (a :: A) rest (jq ++ "]"%char :: B)) as [A' HA]; [by rewrite <- Heq|].
      assert (rest = A' ++ "["%char :: jq ++ "]"%char :: B) as ->.
      { apply (app_inv_head w). rewrite <- Heq, (assoc_L (++)), <- HA. done. }
      destruct (IH A') with (prev := lastc prev w) (B := B) as (A2 & B2 & ->).
      { apply (f_equal length) in HA. rewrite length_app in HA. simpl in HA.
        destruct w; [done|]. simpl in HA. lia. }
      exists (ph ++ A2), B2. by rewrite <- (assoc_L (++)).
    + rewrite sub_from_nomatch by done.
      destruct (IH A ltac:(lia) (Some a) B) as (A2 & B2 & ->).
      by exists (a :: A2), B2.
Qed.

(** A substitution that finds a match changes the text. *)
Lemma sub_from_changes s : bracketless r = true → ∀ prev,
  findall_from r prev s 0 ≠ [] → sub_from r ph prev s 0 ≠ s.
Proof.
  intros Hr. induction s as [|c s IH]; intros prev Hf.
  - simpl in Hf. destruct (match_at r prev []) as [n|] eqn:Hm; [|done].
    by apply match_at_pos in Hm as (c & w & rest & ? & _).
  - destruct (match_at r prev (c :: s)) as [n|] eqn:Hm.
    + destruct (sub_from_match _ _ _ Hm) as (w & rest & Heq & Hw & Hne & ->).
      intros Hsub. rewrite Heq in Hsub.
      apply (sem_plain r _ Hr) in Hw.
      destruct w as [|x w]; [done|]. injection Hsub as <- _.
      by apply plain_cons_inv in Hw as [? _].
    + rewrite sub_from_nomatch by done. cbn [findall_from] in Hf. rewrite Hm in Hf.
      intros [= Hsub]. by apply (IH _ Hf).
Qed.

End substitution.

(** ** The scrubber's detectors *)

Lemma placeholder_interior name : placeholder name = bracketed (interior name).
Proof. reflexivity. Qed.

Lemma is_char_refl a : is_char a a = true.
Proof. apply N.eqb_refl. Qed.

Lemma prefixb_spec w : ∀ s, prefixb w s = true ↔ ∃ B, s = w ++ B.
Proof.
  induction w as [|x w IH]; intros s; simpl.
  - split; [by exists s|done].
  - destruct s as [|y s]; [split; [done|by intros [B ?]]|].
    rewrite andb_true_iff, IH. split.
    + intros [->%is_char_eq [B ->]]. by exists B.
    + intros [B [= -> ->]]. split; [apply is_char_refl|by exists B].
Qed.

Lemma occursb_spec w s : occursb w s = true ↔ part_of w s.
Proof.
  induction s as [|y s IH]; simpl; rewrite orb_true_iff, prefixb_spec.
  - split.
    + intros [[B HB]|?]; [|done]. by exists [], B.
    + intros ([|a A] & B & HAB); [left; by exists B|done].
  - rewrite IH. split.
    + intros [[B HB]|(A & B & ->)]; [by exists [], B|by exists (y :: A), B].
    + intros ([|a A] & B & HAB); [left; by exists B|].
      injection HAB as -> ->. right. by exists A, B.
Qed.

Lemma PATTERNS_sound : Forall sound_detector PATTERNS.
Proof. repeat constructor. Qed.

(** No registered pattern matches inside a placeholder. *)
Lemma matchless_interior d x :
  d ∈ PATTERNS → x ∈ PATTERNS → matchless d.2 (interior x.1).
Proof.
  intros Hd Hx.
  assert (d.1 = "ip" ∨ bfree d.2 = true) as [Hip|Hb].
  { repeat (apply elem_of_cons in Hd as [->|Hd]; [by (left + right)|]).
    by apply not_elem_of_nil in Hd. }
  - assert (d = ("ip", ip_re)) as ->.
    { repeat (apply elem_of_cons in Hd as [->|Hd]; [done|]).
      by apply not_elem_of_nil in Hd. }
    apply matchless_foreign; [done|].
    repeat (apply elem_of_cons in Hx as [->|Hx]; [vm_compute; reflexivity|]).
    by apply not_elem_of_nil in Hx.
  - apply findall_matchless; [done|].
    repeat (apply elem_of_cons in Hd as [->|Hd];
      [repeat (apply elem_of_cons in Hx as [->|Hx]; [vm_compute; reflexivity|]);
       by apply not_elem_of_nil in Hx|]).
    by apply not_elem_of_nil in Hd.
Qed.

Lemma scrub_step_sub (T : list ascii) (d : string * regex) :
  scrub_step T d = T ∨ scrub_step T d = sub_from d.2 (placeholder d.1) None T 0.
Proof. unfold scrub_step, sub. destruct (findall d.2 T); by (left + right). Qed.

(** A round of the loop does not bring a pattern to match. *)
Lemma scrub_step_keep (T : list ascii) (d x : string * regex) :
  sound_detector x → sound_detector d → matchless d.2 (interior x.1) →
  matchless d.2 T → matchless d.2 (scrub_step T x).
Proof.
  intros [Hxn _] [Hdn Hdb] Hin HT.
  destruct (scrub_step_sub T x) as [->| ->]; [done|].
  rewrite placeholder_interior. by apply matchless_sub_keep.
Qed.

(** After its own round a pattern without [\b] matches nowhere. *)
Lemma scrub_step_own (T : list ascii) (d : string * regex) :
  sound_detector d → bfree d.2 = true → matchless d.2 (interior d.1) →
  matchless d.2 (scrub_step T d).
Proof.
  intros [Hn Hb] Hf Hin. unfold scrub_step, sub.
  destruct (findall d.2 T) eqn:HT; [by apply findall_matchless|].
  rewrite placeholder_interior. by apply matchless_sub_own.
Qed.

(** A round whose pattern matches writes its placeholder. *)
Lemma scrub_step_inserts (T : list ascii) (d : string * regex) :
  sound_detector d → findall d.2 T ≠ [] → part_of (placeholder d.1) (scrub_step T d).
Proof.
  intros [Hn _] HT. unfold scrub_step, sub.
  destruct (findall d.2 T) eqn:HT'; [done|].
  rewrite placeholder_interior. apply sub_inserts; [done|].
  unfold findall in HT'. by rewrite HT'.
Qed.

(** A round keeps the placeholders that are in the text. *)
Lemma scrub_step_keeps_placeholder (T : list ascii) (d x : string * regex) :
  sound_detector x → matchless x.2 (interior d.1) →
  part_of (placeholder d.1) T → part_of (placeholder d.1) (scrub_step T x).
Proof.
  intros [Hn Hb] Hin (A & B & ->).
  destruct (scrub_step_sub (A ++ placeholder d.1 ++ B) x) as [->| ->]; [by exists A, B|].
  rewrite (placeholder_interior x.1), (placeholder_interior d.1).
  assert (∀ X Y : list ascii,
            X ++ ("["%char :: interior d.1 ++ ["]"%char]) ++ Y
            = X ++ "["%char :: interior d.1 ++ "]"%char :: Y) as Heq.
  { intros X Y. cbn [app]. by rewrite <- (assoc_L (++)). }
  rewrite Heq.
  destruct (sub_keeps_placeholder x.2 (interior x.1) Hn (interior d.1) (length A)
              Hb Hin A (le_n _) None B) as (A2 & B2 & ->).
  exists A2, B2. by rewrite Heq.
Qed.

Lemma scrub_rounds_keep ds : ∀ (T : list ascii) (d : string * regex),
  Forall sound_detector ds → sound_detector d →
  (∀ x, x ∈ ds → matchless d.2 (interior x.1)) →
  matchless d.2 T → matchless d.2 (foldl scrub_step T ds).
Proof.
  induction ds as [|x ds IH]; intros T d Hds Hd Hin HT; [done|].
  apply Forall_cons in Hds as [Hx Hds]. simpl. apply IH; [done..| |].
  - intros y Hy. apply Hin. by right.
  - apply scrub_step_keep; [done..| |done]. apply Hin. by left.
Qed.

Lemma scrub_rounds_keep_placeholder ds : ∀ (T : list ascii) (d : string * regex),
  Forall sound_detector ds →
  (∀ x, x ∈ ds → matchless x.2 (interior d.1)) →
  part_of (placeholder d.1) T → part_of (placeholder d.1) (foldl scrub_step T ds).
Proof.
  induction ds as [|x ds IH]; intros T d Hds Hin HT; [done|].
  apply Forall_cons in Hds as [Hx Hds]. simpl. apply IH; [done| |].
  - intros y Hy. apply Hin. by right.
  - apply scrub_step_keeps_placeholder; [done| |done]. apply Hin. by left.
Qed.

(** In the output of the scrubber no pattern without [\b] has a match. *)
Lemma scrub_chars_matchless (T : list ascii) pre (d : string * regex) post :
  PATTERNS = pre ++ d :: post → bfree d.2 = true → matchless d.2 (scrub_chars T).
Proof.
  intros HP Hf. unfold scrub_chars.
  pose proof PATTERNS_sound as Hs.
  assert (∀ x, x ∈ pre ++ d :: post → x ∈ PATTERNS) as Hin by (by rewrite HP).
  rewrite HP in Hs |- *. rewrite foldl_app. simpl.
  apply Forall_app in Hs as [_ [Hd Hpost]%Forall_cons].
  apply scrub_rounds_keep; [done..| |].
  - intros x Hx. apply matchless_interior; apply Hin, elem_of_app; right;
      [by left|by right].
  - apply scrub_step_own; [done..|].
    apply matchless_interior; apply Hin, elem_of_app; right; by left.
Qed.

(** A detector that found a match has its placeholder in the output. *)
Lemma scrub_chars_placeholder (T : list ascii) pre (d : string * regex) post :
  PATTERNS = pre ++ d :: post →
  findall d.2 (foldl scrub_step T pre) ≠ [] →
  part_of (placeholder d.1) (scrub_chars T).
Proof.
  intros HP Hm. unfold scrub_chars.
  pose proof PATTERNS_sound as Hs.
  assert (∀ x, x ∈ pre ++ d :: post → x ∈ PATTERNS) as Hin by (by rewrite HP).
  rewrite HP in Hs |- *. rewrite foldl_app. simpl.
  apply Forall_app in Hs as [_ [Hd Hpost]%Forall_cons].
  apply scrub_rounds_keep_placeholder; [done| |].
  - intros x Hx. apply matchless_interior; apply Hin, elem_of_app; right;
      [by right|by left].
  - by apply scrub_step_inserts.
Qed.

Lemma scrub_text_chars s : chars (scrub_text s) = scrub_chars (chars s).
Proof.
  destruct s; [done|]. unfold scrub_text, chars.
  by rewrite list_ascii_of_string_of_list_ascii.
Qed.

Lemma scrub_text_of_chars s : scrub_text s = string_of_list_ascii (scrub_chars (chars s)).
Proof. by destruct s. Qed.

(** A text in which no pattern matches is left as it is. *)
Lemma scrub_chars_fixed T :
  (∀ d : string * regex, d ∈ PATTERNS → findall d.2 T = []) → scrub_chars T = T.
Proof.
  intros HT. unfold scrub_chars.
  assert (∀ ds, (∀ d, d ∈ ds → d ∈ PATTERNS) → foldl scrub_step T ds = T) as Hfold.
  { induction ds as [|d ds IH]; intros Hds; [done|]. simpl.
    unfold scrub_step at 2. rewrite HT by (apply Hds; by left).
    apply IH. intros x Hx. apply Hds. by right. }
  by apply Hfold.
Qed.

Lemma PATTERNS_bfree (d : string * regex) :
  d ∈ PATTERNS → d.1 ≠ "ip" → bfree d.2 = true.
Proof.
  intros Hd Hip.
  repeat (apply elem_of_cons in Hd as [->|Hd]; [done|]).
  by apply not_elem_of_nil in Hd.
Qed.

Lemma PATTERNS_ip (d : string * regex) : d ∈ PATTERNS → d.1 = "ip" → d.2 = ip_re.
Proof.
  intros Hd Hip.
  repeat (apply elem_of_cons in Hd as [->|Hd]; [done|]).
  by apply not_elem_of_nil in Hd.
Qed.

(** C5, as stated, fails: after an access key of the longest length that the
    pattern takes, an address is not at a word boundary, and is at one once
    the key has become a placeholder. *)
Lemma scrub_text_not_idempotent :
  scrub_text key_then_address = "[REDACTED_AWS_KEY]1.2.3.4"
  ∧ scrub_text (scrub_text key_then_address) = "[REDACTED_AWS_KEY][REDACTED_IP]"
  ∧ scrub_text (scrub_text key_then_address) ≠ scrub_text key_then_address.
Proof.
  assert (scrub_text key_then_address = "[REDACTED_AWS_KEY]1.2.3.4") as H1
    by (vm_compute; reflexivity).
  assert (scrub_text (scrub_text key_then_address) = "[REDACTED_AWS_KEY][REDACTED_IP]")
    as H2 by (vm_compute; reflexivity).
  split; [done|]. split; [done|]. rewrite H2, H1. discriminate.
Qed.

(** Where the ip pattern matches in the output, scrubbing again replaces
    the match, and nothing after that changes the text back. *)
Lemma scrub_text_changes_again (s : string) :
  (∀ d : string * regex, d ∈ PATTERNS → d.1 ≠ "ip" →
     findall d.2 (chars (scrub_text s)) = []) →
  findall ip_re (chars (scrub_text s)) ≠ [] →
  scrub_text (scrub_text s) ≠ scrub_text s.
Proof.
  intros Hfour Hip.
  set (O := chars (scrub_text s)) in *.
  set (O' := sub ip_re (placeholder "ip") O).
  assert (O' ≠ O) as Hne.
  { unfold O', sub. rewrite placeholder_interior. by apply sub_from_changes. }
  assert (∀ d : string * regex, d ∈ PATTERNS → d.1 ≠ "ip" → findall d.2 O' = [])
    as Hfour'.
  { intros d Hd Hd'. apply matchless_findall.
    assert (sound_detector d) as Hsd.
    { pose proof PATTERNS_sound as Hs. rewrite Forall_forall in Hs. by apply Hs. }
    unfold O', sub. rewrite placeholder_interior.
    apply matchless_sub_keep; [done|apply Hsd..| |].
    - apply (matchless_interior d ("ip", ip_re)); [done|]. right. by left.
    - apply findall_matchless; [by apply PATTERNS_bfree|by apply Hfour]. }
  assert (findall email_re O = []) as E1
    by (apply (Hfour ("email", email_re)); [by left|done]).
  assert (findall bearer_token_re O' = []) as E3
    by (apply (Hfour' ("bearer_token", bearer_token_re)); [do 2 right; by left|done]).
  assert (findall aws_key_re O' = []) as E4
    by (apply (Hfour' ("aws_key", aws_key_re)); [do 3 right; by left|done]).
  assert (findall generic_secret_re O' = []) as E5
    by (apply (Hfour' ("generic_secret", generic_secret_re));
        [do 4 right; by left|done]).
  assert (scrub_chars O = O') as Hscrub.
  { unfold scrub_chars, PATTERNS. cbn [foldl]. unfold scrub_step. cbn [fst snd].
    rewrite E1. destruct (findall ip_re O); [done|]. fold O'.
    by rewrite E3, E4, E5. }
  rewrite (scrub_text_of_chars (scrub_text s)). fold O. rewrite Hscrub.
  intros Heq. apply Hne. apply (f_equal chars) in Heq. fold O in Heq.
  unfold chars at 1 in Heq. by rewrite list_ascii_of_string_of_list_ascii in Heq.
Qed.

(** C5 (amended): in the output of [scrub_text] the email, bearer-token,
    access-key and generic-secret patterns match nowhere; scrubbing the output
    again changes nothing when the ip pattern does not match in it, and
    changes it when the ip pattern does; each placeholder by itself is left
    as it is. *)
Theorem scrub_text_idempotent_unless_ip (s : string) :
  (∀ d : string * regex, d ∈ PATTERNS → d.1 ≠ "ip" →
     findall d.2 (chars (scrub_text s)) = [])
  ∧ (findall ip_re (chars (scrub_text s)) = [] →
     scrub_text (scrub_text s) = scrub_text s)
  ∧ (findall ip_re (chars (scrub_text s)) ≠ [] →
     scrub_text (scrub_text s) ≠ scrub_text s)
  ∧ (∀ d : string * regex, d ∈ PATTERNS →
     scrub_text (string_of_list_ascii (placeholder d.1))
     = string_of_list_ascii (placeholder d.1)).
Proof.
  assert (∀ d : string * regex, d ∈ PATTERNS → d.1 ≠ "ip" →
            findall d.2 (chars (scrub_text s)) = []) as Hfour.
  { intros d Hd Hip. rewrite scrub_text_chars. apply matchless_findall.
    destruct (list_elem_of_split _ _ Hd) as (pre & post & HP).
    apply (scrub_chars_matchless _ pre d post HP). by apply PATTERNS_bfree. }
  split; [done|]. split.
  - intros Hip. rewrite (scrub_text_of_chars (scrub_text s)), scrub_chars_fixed.
    + unfold chars. apply string_of_list_ascii_of_string.
    + intros d Hd. destruct (decide (d.1 = "ip")) as [Heq|Hne]; [|by apply Hfour].
      by rewrite (PATTERNS_ip d Hd Heq).
  - split; [by apply scrub_text_changes_again|].
    intros d Hd.
    repeat (apply elem_of_cons in Hd as [->|Hd]; [vm_compute; reflexivity|]).
    by apply not_elem_of_nil in Hd.
Qed.

Lemma scrub_text_idempotent_unless_ip_witness :
  scrub_text (scrub_text "contact me at a@b.com") = scrub_text "contact me at a@b.com"
  ∧ findall email_re (chars (scrub_text "contact me at a@b.com")) = [].
Proof.
  split.
  - apply (proj1 (proj2 (scrub_text_idempotent_unless_ip "contact me at a@b.com"))).
    vm_compute. reflexivity.
  - apply (proj1 (scrub_text_idempotent_unless_ip "contact me at a@b.com")
             ("email", email_re)); [by left|done].
Defined.

(** C6, as stated, fails.  A bearer token that begins with an e-mail address
    matches the bearer pattern, yet the output has no bearer placeholder, the
    e-mail detector having run first.  And an address that the ip pattern
    matched stays in the output where it also stands after a letter. *)
Lemma scrub_text_misses :
  (match_at bearer_token_re None (chars "Bearer a@b.co") = Some 8
   ∧ scrub_text "Bearer a@b.co" = "Bearer [REDACTED_EMAIL]"
   ∧ occursb (placeholder "bearer_token") (chars (scrub_text "Bearer a@b.co")) = false)
  ∧ (findall ip_re (chars "1.2.3.4 x1.2.3.4") = [chars "1.2.3.4"]
     ∧ scrub_text "1.2.3.4 x1.2.3.4" = "[REDACTED_IP] x1.2.3.4"
     ∧ occursb (chars "1.2.3.4") (chars (scrub_text "1.2.3.4 x1.2.3.4")) = true).
Proof. repeat split; vm_compute; reflexivity. Qed.

(** C6 (amended): a detector that finds a match in the text as the detectors
    before it have left it has its placeholder in the output of [scrub_text];
    and, for every detector but ip, no text that its pattern matches, at any
    place of any text, occurs in the output. *)
Theorem scrub_text_redacts (s : string) (pre : list (string * regex))
    (d : string * regex) (post : list (string * regex)) :
  PATTERNS = pre ++ d :: post →
  (findall d.2 (foldl scrub_step (chars s) pre) ≠ [] →
     part_of (placeholder d.1) (chars (scrub_text s)))
  ∧ (d.1 ≠ "ip" → ∀ prev w rest,
       match_at d.2 prev (w ++ rest) = Some (length w) →
       ¬ part_of w (chars (scrub_text s))).
Proof.
  intros HP. rewrite scrub_text_chars. split.
  - by apply (scrub_chars_placeholder _ pre d post).
  - intros Hip prev w rest Hm (A & B & HAB).
    assert (d ∈ PATTERNS) as Hd by (rewrite HP; apply elem_of_app; right; by left).
    apply match_at_sound in Hm as (w' & rest' & Heq & Hw' & Hlen).
    assert (w = w') as <-.
    { apply (f_equal (take (length w))) in Heq.
      by rewrite take_app_length, Hlen, take_app_length in Heq. }
    apply (scrub_chars_matchless (chars s) pre d post HP (PATTERNS_bfree d Hd Hip)
             A w B HAB Hw').
Qed.

Lemma scrub_text_redacts_witness :
  part_of (placeholder "email") (chars (scrub_text "contact me at a@b.com"))
  ∧ ¬ part_of (chars "a@b.com") (chars (scrub_text "contact me at a@b.com")).
Proof.
  pose proof (scrub_text_redacts "contact me at a@b.com" [] ("email", email_re)
                (tail PATTERNS) eq_refl) as [H1 H2].
  split.
  - apply H1. vm_compute. discriminate.
  - apply (H2 ltac:(done) None (chars "a@b.com") []). vm_compute. reflexivity.
Defined.

(** ** The scenarios of the specification *)

(** Ingesting a symbol and then an intent that names it: both, and the
    module created on the way, are in the symbol's neighbourhood of depth 1
    (the order after the seed is that of [elements]). *)
Example neighborhood_of_ingested_symbol :
  let r1 := ingest_symbol "billing.py" "process_payment" "function" ∅
              (fresh_kernel empty_disk [] ["t0"; "t1"; "t2"]) in
  let r2 := ingest_intent (λ _, "") "d1" "Limit is 10000"
              {[ "focus_symbol" := JStr "symbol:billing.py:process_payment" ]} r1.2 in
  r1.1 = Ok "symbol:billing.py:process_payment"
  ∧ r2.1 = Ok "intent:d1"
  ∧ match get_neighborhood elements (objects r2.2)
            "symbol:billing.py:process_payment" 1%Z with
    | Some (Ok result) => uid <$> result
    | _ => []
    end = ["symbol:billing.py:process_payment"; "module:billing.py"; "intent:d1"].
Proof. repeat split; vm_compute; reflexivity. Qed.

Example scrub_text_scenarios :
  scrub_text "contact me at a@b.com" = "contact me at [REDACTED_EMAIL]"
  ∧ scrub_text "Leaked info: erhan@example.com and AKIAJSSECRETKEY123."
    = "Leaked info: [REDACTED_EMAIL] and [REDACTED_AWS_KEY]."
  ∧ scrub_text "" = "".
Proof. repeat split; vm_compute; reflexivity. Qed.

Lemma get_neighborhood_seed_only_witness :
  get_neighborhood elements ring "a" (-1)%Z
  = Some (Ok [ {| uid := "a"; type := "symbol"; properties := ∅;
                  links := {[ ("b", "calls"); ("zz", "calls") ]}; created_at := "t" |} ]).
Proof.
  apply (get_neighborhood_seed_only elements ring "a"); [vm_compute; reflexivity|lia].
Defined.

Lemma upsert_object_keeps_created_at_witness :
  ∃ o, objects (upsert_object second_version upsert_first.2).2 !! "intent:d1" = Some o
       ∧ created_at o = created_at first_version.
Proof.
  apply (upsert_object_keeps_created_at second_version upsert_first.2 "intent:d1"
           first_version).
  vm_compute. reflexivity.
Defined.

(** ** What a write never undoes *)

Lemma extends_refl o : extends o o.
Proof. by repeat split. Qed.

Lemma extends_trans o1 o2 o3 : extends o1 o2 → extends o2 o3 → extends o1 o3.
Proof.
  intros (?&?&?&?&?) (?&?&?&?&?). repeat split; try congruence; set_solver.
Qed.

Lemma index_grows_refl objs : index_grows objs objs.
Proof. intros u o Ho. exists o. split; [done|apply extends_refl]. Qed.

Lemma index_grows_trans m1 m2 m3 :
  index_grows m1 m2 → index_grows m2 m3 → index_grows m1 m3.
Proof.
  intros H12 H23 u o Ho. destruct (H12 u o Ho) as (o2 & Ho2 & He2).
  destruct (H23 u o2 Ho2) as (o3 & Ho3 & He3). exists o3.
  split; [done|by eapply extends_trans].
Qed.

Lemma disk_grows_refl d : disk_grows d d.
Proof. split; [done|]. intros r Hr. by exists r. Qed.

Lemma disk_grows_trans d1 d2 d3 : disk_grows d1 d2 → disk_grows d2 d3 → disk_grows d1 d3.
Proof.
  intros [Hl12 Hr12] [Hl23 Hr23]. split; [set_solver|].
  intros r Hr. destruct (Hr12 r Hr) as (r2 & Hr2 & <-). by apply Hr23.
Qed.

Lemma index_grows_merge_into obj objs : index_grows objs (merge_into obj objs).
Proof.
  intros u o Ho. destruct (decide (uid obj = u)) as [<-|Hne].
  - unfold merge_into. rewrite Ho, lookup_insert_eq. eexists. split; [done|].
    repeat split; simpl; [set_solver|]. rewrite dom_union. set_solver.
  - rewrite merge_into_lookup_ne by done. exists o. split; [done|apply extends_refl].
Qed.

Lemma index_grows_linked a b t bidi objs : index_grows objs (linked a b t bidi objs).
Proof.
  intros u o Ho. rewrite linked_lookup, Ho. simpl. eexists. split; [done|].
  repeat split; simpl; set_solver.
Qed.

Lemma links_rel_persist_all obj d :
  links_rel (persist obj d)
  = links_rel d ∪ set_map (λ l : string * string, (uid obj, l.1, l.2)) (links obj).
Proof.
  unfold persist.
  apply (set_fold_ind_L (λ d' X, links_rel d'
           = links_rel d ∪ set_map (λ l : string * string, (uid obj, l.1, l.2)) X)).
  - simpl. set_solver.
  - intros x X d' Hx IH. simpl. rewrite IH. set_solver.
Qed.

Lemma disk_grows_persist obj d : disk_grows d (persist obj d).
Proof.
  split; [rewrite links_rel_persist_all; set_solver|].
  intros r Hr. rewrite objects_rel_persist.
  destruct (decide (row_uid r = uid obj)) as [Hu|Hu].
  - exists (row_of obj). split; [|done]. apply elem_of_app. right. by left.
  - exists r. split; [|done]. apply elem_of_app. left. by apply list_elem_of_filter.
Qed.

Lemma disk_grows_link_disk a b t bidi d : disk_grows d (link_disk a b t bidi d).
Proof.
  split.
  - unfold link_disk. destruct bidi; simpl; set_solver.
  - intros r Hr. exists r. by rewrite objects_rel_link_disk.
Qed.

Lemma append_only_ret {A} (a : A) : append_only (mret a).
Proof. intros k. split; [apply index_grows_refl|apply disk_grows_refl]. Qed.

Lemma append_only_bind {A B} (m : M A) (f : A → M B) :
  append_only m → (∀ a, append_only (f a)) → append_only (m ≫= f).
Proof.
  intros Hm Hf k. unfold mbind, M_bind. specialize (Hm k).
  destruct (m k) as [[a|e] k1]; simpl in *; [|done].
  destruct Hm as [Hi Hd]. destruct (Hf a k1) as [Hi' Hd']. split.
  - by eapply index_grows_trans.
  - by eapply disk_grows_trans.
Qed.

Lemma append_only_raise {A} e : append_only (@raise A e).
Proof. intros k. split; [apply index_grows_refl|apply disk_grows_refl]. Qed.

Lemma append_only_get_objects : append_only get_objects.
Proof. intros k. split; [apply index_grows_refl|apply disk_grows_refl]. Qed.

Lemma append_only_warning msg : append_only (warning msg).
Proof. intros k. split; [apply index_grows_refl|apply disk_grows_refl]. Qed.

Lemma append_only_now : append_only now.
Proof. intros k. split; [apply index_grows_refl|apply disk_grows_refl]. Qed.

(** The index and the file after [upsert_object], however it ends. *)
Lemma upsert_object_leaves obj k :
  objects (upsert_object obj k).2 = merge_into (scrubbed obj) (objects k)
  ∧ (disk (upsert_object obj k).2 = persist (scrubbed obj) (disk k)
     ∨ disk (upsert_object obj k).2 = disk k).
Proof.
  destruct (faults k) as [|[] fs] eqn:Hf.
  - rewrite upsert_object_commits by (by rewrite Hf). split; [done|by left].
  - rewrite upsert_object_commits by (by rewrite Hf). split; [done|by left].
  - rewrite (upsert_object_fails _ _ fs) by done. split; [done|by right].
Qed.

(** The index and the file after [link], however it ends. *)
Lemma link_leaves a b t bidi k :
  (objects (link a b t bidi k).2 = linked a b t bidi (objects k)
   ∨ objects (link a b t bidi k).2 = objects k)
  ∧ (disk (link a b t bidi k).2 = link_disk a b t bidi (disk k)
     ∨ disk (link a b t bidi k).2 = disk k).
Proof.
  destruct (decide (is_Some (objects k !! a) ∧ is_Some (objects k !! b))) as [[Ha Hb]|Hn].
  - destruct (faults k) as [|[] fs] eqn:Hf.
    + rewrite link_commits by (done || by rewrite Hf). split; by left.
    + rewrite link_commits by (done || by rewrite Hf). split; by left.
    + rewrite (link_fails _ _ _ _ _ fs) by done. split; [by left|by right].
  - rewrite link_skips by done. split; by right.
Qed.

Lemma append_only_upsert_object obj : append_only (upsert_object obj).
Proof.
  intros k. destruct (upsert_object_leaves obj k) as [-> [->| ->]];
    (split; [apply index_grows_merge_into|]);
    [apply disk_grows_persist|apply disk_grows_refl].
Qed.

Lemma append_only_link a b t bidi : append_only (link a b t bidi).
Proof.
  intros k. destruct (link_leaves a b t bidi k) as [[->| ->] [->| ->]]; split;
    first [apply index_grows_linked|apply index_grows_refl
          |apply disk_grows_link_disk|apply disk_grows_refl].
Qed.

Create HintDb grow discriminated.
#[local] Hint Resolve append_only_ret append_only_raise append_only_get_objects
  append_only_warning append_only_now append_only_upsert_object append_only_link : grow.

Ltac grow_step :=
  repeat first
    [ solve [eauto with grow]
    | apply append_only_bind; [|intros ?]
    | match goal with
      | |- append_only (match ?x with Some _ => _ | None => _ end) => destruct x
      | |- append_only (if ?x then _ else _) => destruct x
      end ].

Lemma append_only_new_object u t p : append_only (new_object u t p).
Proof. unfold new_object. grow_step. Qed.

#[local] Hint Resolve append_only_new_object : grow.

Lemma append_only_ensure_module u n : append_only (ensure_module u n).
Proof. unfold ensure_module. grow_step. Qed.

Lemma append_only_link_if_known u v t : append_only (link_if_known u v t).
Proof. unfold link_if_known. destruct v; grow_step. Qed.

#[local] Hint Resolve append_only_ensure_module append_only_link_if_known : grow.

Lemma append_only_ingest_symbol p n t props : append_only (ingest_symbol p n t props).
Proof. unfold ingest_symbol. grow_step. Qed.

Lemma append_only_ingest_intent py_str i c props :
  append_only (ingest_intent py_str i c props).
Proof. unfold ingest_intent. grow_step. Qed.

Lemma append_only_ingest_finding py_str p f s m props :
  append_only (ingest_finding py_str p f s m props).
Proof. unfold ingest_finding. grow_step. Qed.

(** X2: However a write path ends, whatever the environment does, an object
    that was in the index is still there with its uid, type and [created_at],
    with every link and every property key it had; and the file still has
    every edge and a row for every uid it had. *)
Theorem write_paths_append_only (py_str : json → string) :
  (∀ obj, append_only (upsert_object obj))
  ∧ (∀ a b t bidi, append_only (link a b t bidi))
  ∧ (∀ p n t props, append_only (ingest_symbol p n t props))
  ∧ (∀ i c props, append_only (ingest_intent py_str i c props))
  ∧ (∀ p f s m props, append_only (ingest_finding py_str p f s m props)).
Proof.
  split; [apply append_only_upsert_object|]. split; [apply append_only_link|].
  split; [|split].
  - apply append_only_ingest_symbol.
  - apply append_only_ingest_intent.
  - apply append_only_ingest_finding.
Qed.

(** ** Objects are stored under their own uid *)

Lemma keyed_empty : keyed ∅.
Proof. intros u o Ho. by rewrite lookup_empty in Ho. Qed.

Lemma keyed_insert u o objs : uid o = u → keyed objs → keyed (<[u := o]> objs).
Proof.
  intros Hu Hk u' o'. destruct (decide (u = u')) as [<-|Hne].
  - rewrite lookup_insert_eq. by intros [= <-].
  - rewrite lookup_insert_ne by done. apply Hk.
Qed.

Lemma keyed_alter f u objs : (∀ o, uid (f o) = uid o) → keyed objs → keyed (alter f u objs).
Proof.
  intros Hf Hk u' o'. destruct (decide (u = u')) as [<-|Hne].
  - rewrite lookup_alter_eq. destruct (objs !! u) as [o|] eqn:Ho; [|done].
    intros [= <-]. rewrite Hf. by apply Hk.
  - rewrite lookup_alter_ne by done. apply Hk.
Qed.

Lemma keyed_merge_into obj objs : keyed objs → keyed (merge_into obj objs).
Proof.
  intros Hk. unfold merge_into. destruct (objs !! uid obj) as [old|] eqn:Ho.
  - apply keyed_insert; [|done]. simpl. by apply Hk.
  - by apply keyed_insert.
Qed.

Lemma keyed_linked a b t bidi objs : keyed objs → keyed (linked a b t bidi objs).
Proof.
  intros Hk. unfold linked. destruct bidi; repeat apply keyed_alter; done.
Qed.

Lemma keyed_load_objects rows objs : keyed objs → keyed (load_objects rows objs).2.
Proof.
  revert objs. induction rows as [|r rows IH]; intros objs Hk; [done|].
  simpl. destruct (json_loads (row_data r)); [|done].
  apply IH. by apply keyed_insert.
Qed.

Lemma keyed_load_links es objs : keyed objs → keyed (load_links es objs).
Proof.
  revert objs. induction es as [|[[s t] lt] es IH]; intros objs Hk; [done|].
  apply IH. unfold load_link. destruct (objs !! s); [|done]. by apply keyed_alter.
Qed.

Lemma keeps_keyed_ret {A} (a : A) : keeps_keyed (mret a).
Proof. by intros k. Qed.

Lemma keeps_keyed_bind {A B} (m : M A) (f : A → M B) :
  keeps_keyed m → (∀ a, keeps_keyed (f a)) → keeps_keyed (m ≫= f).
Proof.
  intros Hm Hf k Hk. unfold mbind, M_bind. specialize (Hm k Hk).
  destruct (m k) as [[a|e] k1]; simpl in *; [|done]. by apply Hf.
Qed.

Lemma keeps_keyed_raise {A} e : keeps_keyed (@raise A e).
Proof. by intros k. Qed.

Lemma keeps_keyed_get_objects : keeps_keyed get_objects.
Proof. by intros k. Qed.

Lemma keeps_keyed_warning msg : keeps_keyed (warning msg).
Proof. by intros k. Qed.

Lemma keeps_keyed_now : keeps_keyed now.
Proof. by intros k. Qed.

Lemma keeps_keyed_upsert_object obj : keeps_keyed (upsert_object obj).
Proof.
  intros k Hk. destruct (upsert_object_leaves obj k) as [-> _].
  by apply keyed_merge_into.
Qed.

Lemma keeps_keyed_link a b t bidi : keeps_keyed (link a b t bidi).
Proof.
  intros k Hk. destruct (link_leaves a b t bidi k) as [[->| ->] _]; [|done].
  by apply keyed_linked.
Qed.

Lemma keeps_keyed__load : keeps_keyed _load.
Proof.
  intros k Hk. unfold _load, transaction.
  destruct (faults k) as [|[] fs]; simpl; try done;
    destruct (load_objects _ _) as [[[]|e] objs] eqn:Hl; simpl;
    pose proof (keyed_load_objects (objects_rel (disk k)) (objects k) Hk) as Hk';
    rewrite Hl in Hk'; simpl in Hk'; try done; by apply keyed_load_links.
Qed.

Create HintDb keyed discriminated.
#[local] Hint Resolve keeps_keyed_ret keeps_keyed_raise keeps_keyed_get_objects
  keeps_keyed_warning keeps_keyed_now keeps_keyed_upsert_object keeps_keyed_link : keyed.

Ltac keyed_step :=
  repeat first
    [ solve [eauto with keyed]
    | apply keeps_keyed_bind; [|intros ?]
    | match goal with
      | |- keeps_keyed (match ?x with Some _ => _ | None => _ end) => destruct x
      | |- keeps_keyed (if ?x then _ else _) => destruct x
      end ].

Lemma keeps_keyed_new_object u t p : keeps_keyed (new_object u t p).
Proof. unfold new_object. keyed_step. Qed.

#[local] Hint Resolve keeps_keyed_new_object : keyed.

Lemma keeps_keyed_ensure_module u n : keeps_keyed (ensure_module u n).
Proof. unfold ensure_module. keyed_step. Qed.

Lemma keeps_keyed_link_if_known u v t : keeps_keyed (link_if_known u v t).
Proof. unfold link_if_known. destruct v; keyed_step. Qed.

#[local] Hint Resolve keeps_keyed_ensure_module keeps_keyed_link_if_known : keyed.

(** X3: The constructor, however it ends and whatever the file holds, leaves
    every object of the index stored under its own uid, and every write path
    keeps it so. *)
Theorem index_keyed_by_uid (py_str : json → string) :
  (∀ k, keyed (objects (__init__ k).2))
  ∧ (∀ obj, keeps_keyed (upsert_object obj))
  ∧ (∀ a b t bidi, keeps_keyed (link a b t bidi))
  ∧ (∀ p n t props, keeps_keyed (ingest_symbol p n t props))
  ∧ (∀ i c props, keeps_keyed (ingest_intent py_str i c props))
  ∧ (∀ p f s m props, keeps_keyed (ingest_finding py_str p f s m props)).
Proof.
  split.
  { intros k. unfold __init__, mbind, M_bind, set_objects, transaction. simpl.
    destruct (faults k) as [|[] fs]; simpl; try apply keyed_empty;
      apply keeps_keyed__load, keyed_empty. }
  split; [apply keeps_keyed_upsert_object|]. split; [apply keeps_keyed_link|].
  split; [|split].
  - intros. unfold ingest_symbol. keyed_step.
  - intros. unfold ingest_intent. keyed_step.
  - intros. unfold ingest_finding. keyed_step.
Qed.

(** ** The index and the file in step *)

Lemma load_objects_lookup rows (objs : gmap string GraphObject) u :
  Forall parses rows →
  (load_objects rows objs).2 !! u
  = match last (filter (λ r, row_uid r = u) rows) with
    | Some r => loaded r <$> json_loads (row_data r)
    | None => objs !! u
    end.
Proof.
  intros Hrows. revert objs. induction Hrows as [|r rows [p Hp] _ IH]; intros objs; [done|].
  simpl. rewrite Hp, IH. destruct (decide (row_uid r = u)) as [Hu|Hu].
  - rewrite filter_cons_True by done. rewrite last_cons.
    destruct (last _); [done|]. rewrite Hu, lookup_insert_eq, Hp. done.
  - rewrite filter_cons_False by done.
    destruct (last _); [done|]. by rewrite lookup_insert_ne.
Qed.

Lemma stored_lookup d u :
  Forall parses (objects_rel d) → stored d !! u = stored_at d u.
Proof.
  intros Hrows. unfold stored, stored_at, rows_of.
  rewrite load_links_lookup, load_objects_lookup, lookup_empty by done.
  destruct (last _) as [r|]; [|done]. simpl.
  destruct (json_loads (row_data r)) as [p|]; [|done]. simpl.
  f_equal. unfold loaded, with_links. simpl. f_equal. set_solver.
Qed.

Lemma last_rows_of d u r : last (rows_of u d) = Some r → r ∈ objects_rel d ∧ row_uid r = u.
Proof.
  intros Hl. apply last_Some_elem_of in Hl.
  by apply list_elem_of_filter in Hl as [? ?].
Qed.

Lemma rows_of_last d u r :
  r ∈ objects_rel d → row_uid r = u → is_Some (last (rows_of u d)).
Proof.
  intros Hr Hu. apply last_is_Some. intros Hnil.
  assert (r ∈ rows_of u d) as Hin by (by apply list_elem_of_filter).
  rewrite Hnil in Hin. by apply not_elem_of_nil in Hin.
Qed.

Lemma stored_at_is_Some d u :
  Forall parses (objects_rel d) →
  is_Some (stored_at d u) ↔ ∃ r, r ∈ objects_rel d ∧ row_uid r = u.
Proof.
  intros Hrows. unfold stored_at. split.
  - intros [o Ho]. destruct (last (rows_of u d)) as [r|] eqn:Hl; [|done].
    exists r. by apply last_rows_of.
  - intros (r & Hr & Hu). destruct (rows_of_last d u r Hr Hu) as [r' Hr'].
    rewrite Hr'. simpl. apply last_rows_of in Hr' as [Hin _].
    rewrite Forall_forall in Hrows. destruct (Hrows r' Hin) as [p ->]. simpl. eauto.
Qed.

Lemma out_links_elements (S : gset (string * string * string)) u t lt :
  (t, lt) ∈ out_links (elements S) u ↔ (u, t, lt) ∈ S.
Proof. by rewrite elem_of_out_links, elem_of_elements. Qed.

Lemma out_links_link_disk a b t bidi d u :
  out_links (elements (links_rel (link_disk a b t bidi d))) u
  = out_links (elements (links_rel d)) u ∪ added_links a b t bidi u.
Proof.
  apply set_eq. intros [t' lt']. rewrite elem_of_union, !out_links_elements.
  unfold link_disk, added_links. destruct bidi; simpl; repeat case_decide; set_solver.
Qed.

Lemma out_links_persist obj d u :
  out_links (elements (links_rel (persist obj d))) u
  = out_links (elements (links_rel d)) u ∪ (if decide (uid obj = u) then links obj else ∅).
Proof.
  apply set_eq. intros [t' lt']. rewrite elem_of_union, !out_links_elements.
  rewrite links_rel_persist_all, elem_of_union, elem_of_map. split.
  - intros [?|([t2 lt2] & [= <- <- <-] & Hl)]; [by left|right]. by rewrite decide_True.
  - intros [?|Hl]; [by left|right]. case_decide as Hu; [|set_solver].
    exists (t', lt'). by rewrite Hu.
Qed.

Lemma well_formed_empty : well_formed empty_disk.
Proof. split; [constructor|]. intros s t lt Hin. set_solver. Qed.

Lemma well_formed_link_disk a b t bidi d :
  well_formed d →
  (∃ r, r ∈ objects_rel d ∧ row_uid r = a) → (∃ r, r ∈ objects_rel d ∧ row_uid r = b) →
  well_formed (link_disk a b t bidi d).
Proof.
  intros [Hrows Hsrc] Ha Hb. split; [by rewrite objects_rel_link_disk|].
  intros s t' lt'. rewrite objects_rel_link_disk.
  unfold link_disk. destruct bidi; simpl; rewrite ?elem_of_union, ?elem_of_singleton;
    intros Hin; destruct_or?; simplify_eq; eauto.
Qed.

Lemma parses_row_of obj : parses (row_of obj).
Proof. unfold parses, row_of, json_dumps. simpl. eauto. Qed.

Lemma well_formed_persist obj d : well_formed d → well_formed (persist obj d).
Proof.
  intros [Hrows Hsrc]. split.
  - rewrite objects_rel_persist. apply Forall_app. split.
    + apply Forall_forall. intros r [_ Hr]%list_elem_of_filter.
      rewrite Forall_forall in Hrows. by apply Hrows.
    + repeat constructor. apply parses_row_of.
  - intros s t lt. rewrite links_rel_persist_all, elem_of_union, elem_of_map.
    intros [Hin|([t2 lt2] & [= -> -> ->] & Hl)].
    + destruct (Hsrc s t lt Hin) as (r & Hr & <-).
      by apply (disk_grows_persist obj d).
    + exists (row_of obj). split; [|done]. rewrite objects_rel_persist.
      apply elem_of_app. right. by left.
Qed.

Lemma in_sync_lookup k u : in_sync k → objects k !! u = stored_at (disk k) u.
Proof. intros [[Hrows _] <-]. by apply stored_lookup. Qed.

Lemma in_sync_row k u : in_sync k →
  is_Some (objects k !! u) ↔ ∃ r, r ∈ objects_rel (disk k) ∧ row_uid r = u.
Proof.
  intros Hs. rewrite (in_sync_lookup k u Hs). apply stored_at_is_Some, Hs.
Qed.

(** An in-step kernel has no edge of the file leaving a uid that is not in
    the index. *)
Lemma in_sync_no_edges k u :
  in_sync k → objects k !! u = None → out_links (elements (links_rel (disk k))) u = ∅.
Proof.
  intros Hs Hu. apply set_eq. intros [t lt]. rewrite out_links_elements.
  split; [|set_solver]. intros Hin.
  destruct Hs as [[Hrows Hsrc] Heq].
  destruct (Hsrc u t lt Hin) as (r & Hr & Hru).
  assert (is_Some (objects k !! u)) as [o Ho]; [|congruence].
  rewrite <- Heq, stored_lookup by done. apply stored_at_is_Some; eauto.
Qed.

Lemma in_sync_fresh fs ts : in_sync (fresh_kernel empty_disk fs ts).
Proof. split; [apply well_formed_empty|done]. Qed.

Lemma in_sync_link a b t bidi k :
  in_sync k → is_Some (objects k !! a) → is_Some (objects k !! b) →
  in_sync {| objects := linked a b t bidi (objects k);
             disk := link_disk a b t bidi (disk k);
             warnings := warnings k; faults := tl (faults k); clock := clock k |}.
Proof.
  intros Hs Ha Hb. pose proof Hs as [Hwf Heq]. split; simpl.
  - apply well_formed_link_disk; [done|by apply (in_sync_row k)..].
  - apply map_eq. intros u.
    rewrite stored_lookup by (rewrite objects_rel_link_disk; apply Hwf).
    rewrite linked_lookup, (in_sync_lookup k u Hs). unfold stored_at.
    rewrite rows_of_link_disk, out_links_link_disk.
    destruct (last _) as [r|]; [|done]. simpl.
    by destruct (json_loads (row_data r)).
Qed.

Lemma map_union_absorbs {V} (m1 m2 : gmap string V) :
  m1 ∪ m2 = m1 ↔ dom m2 ⊆ dom m1.
Proof.
  split.
  - intros Heq. rewrite <- Heq, dom_union. set_solver.
  - intros Hd. apply map_eq. intros i. rewrite lookup_union.
    destruct (m1 !! i) as [x|] eqn:H1; [by destruct (m2 !! i)|].
    apply not_elem_of_dom in H1.
    assert (m2 !! i = None) as -> by (apply not_elem_of_dom; set_solver). done.
Qed.

Lemma dom_validate_ingestion u t p : dom (validate_ingestion u t p) = dom p.
Proof. apply dom_fmap_L. Qed.

Lemma stored_at_persist_ne obj d u :
  uid obj ≠ u → stored_at (persist obj d) u = stored_at d u.
Proof.
  intros Hne. unfold stored_at.
  rewrite rows_of_persist_ne, out_links_persist, decide_False by done.
  destruct (last _) as [r|]; [|done]. simpl.
  destruct (json_loads _); [|done]. simpl. do 2 f_equal. set_solver.
Qed.

Lemma stored_at_persist obj d :
  stored_at (persist obj d) (uid obj)
  = Some {| uid := uid obj; type := type obj; properties := properties obj;
            links := out_links (elements (links_rel d)) (uid obj) ∪ links obj;
            created_at := created_at obj |}.
Proof.
  unfold stored_at. rewrite rows_of_persist, out_links_persist, decide_True by done.
  done.
Qed.

(** What an [upsert_object] that commits leaves of an in-step kernel is in
    step exactly when the incoming object has the type, the [created_at] and
    all the property keys of the one stored under its uid, if there is one. *)
Lemma in_sync_upsert obj k :
  in_sync k →
  in_sync {| objects := merge_into (scrubbed obj) (objects k);
             disk := persist (scrubbed obj) (disk k);
             warnings := warnings k; faults := tl (faults k); clock := clock k |}
  ↔ ∀ old, objects k !! uid obj = Some old → same_record obj old.
Proof.
  intros Hs. pose proof Hs as [Hwf Heq].
  assert (well_formed (persist (scrubbed obj) (disk k))) as Hwf'
    by (by apply well_formed_persist).
  assert (uid (scrubbed obj) = uid obj) as Hu by done.
  split.
  - intros [_ Heq'] old Hold. simpl in Heq'.
    apply (f_equal (λ m, m !! uid obj)) in Heq'.
    rewrite stored_lookup in Heq' by apply Hwf'.
    pose proof (stored_at_persist (scrubbed obj) (disk k)) as Hp.
    rewrite Hu in Hp. rewrite Hp in Heq'.
    unfold merge_into in Heq'. rewrite Hu, Hold, lookup_insert_eq in Heq'.
    injection Heq' as H1 H2 H3 H4 H5. simpl in *.
    unfold same_record. split; [exact H2|]. split; [exact H5|].
    rewrite <- (dom_validate_ingestion (uid obj) (type obj) (properties obj)).
    apply map_union_absorbs. symmetry. exact H3.
  - intros Hcond. split; [done|]. simpl. apply map_eq. intros u.
    rewrite stored_lookup by apply Hwf'.
    destruct (decide (uid obj = u)) as [<-|Hne].
    + pose proof (stored_at_persist (scrubbed obj) (disk k)) as Hp.
      rewrite Hu in Hp. rewrite Hp.
      unfold merge_into. rewrite Hu.
      destruct (objects k !! uid obj) as [old|] eqn:Hold; rewrite lookup_insert_eq.
      * destruct (Hcond old eq_refl) as (Ht & Hc & Hd).
        pose proof Hold as Hold'. rewrite (in_sync_lookup k _ Hs) in Hold'.
        unfold stored_at in Hold'.
        destruct (last _) as [r|] eqn:Hl; [|done]. simpl in Hold'.
        destruct (json_loads (row_data r)) as [p|]; [|done]. simpl in Hold'.
        injection Hold' as <-. simpl in *. apply last_rows_of in Hl as [_ Hr].
        f_equal. unfold with_links, with_properties, scrubbed. simpl.
        f_equal; try done.
        symmetry. apply map_union_absorbs. by rewrite dom_validate_ingestion.
      * rewrite (in_sync_no_edges k _ Hs Hold). f_equal.
        unfold scrubbed, with_properties. simpl. f_equal. set_solver.
    + rewrite stored_at_persist_ne, merge_into_lookup_ne by done.
      symmetry. by apply in_sync_lookup.
Qed.

Lemma in_sync_ext k k' :
  in_sync k → disk k' = disk k → objects k' = objects k → in_sync k'.
Proof. intros [Hwf Heq] Hd Ho. unfold in_sync. by rewrite Hd, Ho. Qed.

Lemma __init___commits k :
  faults k = [] → Forall parses (objects_rel (disk k)) →
  __init__ k =
    (Ok (), {| objects := stored (disk k); disk := disk k; warnings := warnings k;
               faults := []; clock := clock k |}).
Proof.
  intros Hf Hrows. unfold __init__, mbind, M_bind, set_objects, transaction.
  simpl. rewrite Hf. simpl. rewrite _load_commits by done. done.
Qed.

Lemma in_sync_restart k : in_sync k → faults k = [] → __init__ k = (Ok (), k).
Proof.
  intros [[Hrows Hsrc] Heq] Hf. rewrite __init___commits by done.
  rewrite Heq. destruct k. simpl in *. by rewrite Hf.
Qed.

Lemma durable_ret {A} (a : A) : durable (mret a).
Proof. by intros k. Qed.

Lemma durable_bind {A B} (m : M A) (f : A → M B) :
  durable m → (∀ a, durable (f a)) → durable (m ≫= f).
Proof.
  intros Hm Hf k Hs Hfl. unfold mbind, M_bind. specialize (Hm k Hs Hfl).
  destruct (m k) as [[a|e] k1]; simpl in *; [|done].
  destruct Hm as [Hs1 Hf1]. by apply Hf.
Qed.

Lemma durable_raise {A} e : durable (@raise A e).
Proof. by intros k. Qed.

Lemma durable_get_objects : durable get_objects.
Proof. by intros k. Qed.

Lemma durable_warning msg : durable (warning msg).
Proof. intros k Hs Hf. split; [by apply (in_sync_ext k)|done]. Qed.

Lemma durable_now : durable now.
Proof. intros k Hs Hf. split; [by apply (in_sync_ext k)|done]. Qed.

Lemma durable_link a b t bidi : durable (link a b t bidi).
Proof.
  intros k Hs Hf.
  destruct (decide (is_Some (objects k !! a) ∧ is_Some (objects k !! b))) as [[Ha Hb]|Hn].
  - rewrite link_commits by (done || by rewrite Hf). simpl.
    split; [by apply in_sync_link|by rewrite Hf].
  - rewrite link_skips by done. simpl. split; [by apply (in_sync_ext k)|done].
Qed.

(** Storing an object under a uid that the index does not have keeps the
    index and the file in step. *)
Lemma upsert_new_in_sync obj k :
  in_sync k → faults k = [] → objects k !! uid obj = None →
  (upsert_object obj k).1 = Ok ()
  ∧ in_sync (upsert_object obj k).2 ∧ faults (upsert_object obj k).2 = [].
Proof.
  intros Hs Hf Hnew. rewrite upsert_object_commits by (by rewrite Hf). simpl.
  split; [done|]. split; [|by rewrite Hf].
  apply in_sync_upsert; [done|]. intros old Hold. congruence.
Qed.

Lemma durable_ensure_module u n : durable (ensure_module u n).
Proof.
  intros k Hs Hf. unfold ensure_module, mbind, M_bind, get_objects. simpl.
  destruct (objects k !! u) eqn:Hu; [done|].
  unfold new_object, mbind, M_bind, now, mret, M_ret. simpl.
  apply upsert_new_in_sync; [by apply (in_sync_ext k)|done..].
Qed.

Create HintDb durable discriminated.
#[local] Hint Resolve durable_ret durable_raise durable_get_objects durable_warning
  durable_now durable_link durable_ensure_module : durable.

Ltac durable_step :=
  repeat first
    [ solve [eauto with durable]
    | apply durable_bind; [|intros ?]
    | match goal with
      | |- durable (match ?x with Some _ => _ | None => _ end) => destruct x
      | |- durable (if ?x then _ else _) => destruct x
      end ].

Lemma durable_link_if_known u v t : durable (link_if_known u v t).
Proof. unfold link_if_known. destruct v; durable_step. Qed.

#[local] Hint Resolve durable_link_if_known : durable.

(** An ingestion: a new object is stored under a uid that the index does not
    have, and what follows only adds modules that are missing and links. *)
Lemma durable_after_new {A} u ty props (rest : M A) k :
  durable rest → in_sync k → faults k = [] → objects k !! u = None →
  in_sync ((obj ← new_object u ty props; upsert_object obj;; rest) k).2
  ∧ faults ((obj ← new_object u ty props; upsert_object obj;; rest) k).2 = [].
Proof.
  intros Hrest Hs Hf Hnew.
  unfold mbind at 1 2, M_bind at 1 2, new_object, mbind, M_bind, now, mret, M_ret. simpl.
  set (k0 := {| objects := objects k; disk := disk k; warnings := warnings k;
                faults := faults k; clock := tl (clock k) |}).
  set (obj := {| uid := u; type := ty; properties := props; links := ∅;
                 created_at := hd "" (clock k) |}).
  destruct (upsert_new_in_sync obj k0) as (Hok & Hs1 & Hf1);
    [by apply (in_sync_ext k)|done..|].
  destruct (upsert_object obj k0) as [[[]|e] k1]; simpl in *; [|done].
  by apply Hrest.
Qed.

Lemma restart_back k :
  faults k = [] → well_formed (disk k) → __init__ k = (Ok (), k) → in_sync k.
Proof.
  intros Hf Hwf Hinit. split; [done|].
  rewrite __init___commits in Hinit by (done || apply Hwf).
  injection Hinit as Hk. by rewrite <- Hk at 2.
Qed.



(** X5: With the index and the file in step and no fault, [link] returns
    normally and leaves them in step, whether it adds the links or skips: a
    kernel constructed on the file afterwards has the same index, the new
    links included. *)
Theorem link_in_step (k : Kernel) (a b t : string) (bidi : bool) :
  in_sync k → faults k = [] →
  ∃ k1, link a b t bidi k = (Ok (), k1) ∧ in_sync k1 ∧ __init__ k1 = (Ok (), k1).
Proof.
  intros Hs Hf. destruct (durable_link a b t bidi k Hs Hf) as [Hs1 Hf1].
  exists (link a b t bidi k).2. split.
  - destruct (decide (is_Some (objects k !! a) ∧ is_Some (objects k !! b))) as [[Ha Hb]|Hn].
    + by rewrite link_commits by (done || by rewrite Hf).
    + by rewrite link_skips.
  - split; [done|]. by apply in_sync_restart.
Qed.

Lemma link_in_step_witness :
  ∃ k1, link "module:a.py" "symbol:a.py:f" "defines" true
             (upsert_object (plain_object "symbol:a.py:f" "symbol" ∅ "t1")
                (upsert_object (plain_object "module:a.py" "module" ∅ "t0")
                   (fresh_kernel empty_disk [] [])).2).2
        = (Ok (), k1)
    ∧ in_sync k1 ∧ __init__ k1 = (Ok (), k1).
Proof.
  apply link_in_step.
  - apply upsert_new_in_sync; [|reflexivity|reflexivity].
    apply upsert_new_in_sync; [apply in_sync_fresh|reflexivity|reflexivity].
  - reflexivity.
Defined.





(** ** The neighbourhood as a set *)

(** The traversal ends with the invariant on its final cluster. *)
Lemma get_neighborhood_final iter (objs : gmap string GraphObject) uid (k : nat) o :
  (∀ s x, x ∈ iter s ↔ x ∈ s) → objs !! uid = Some o →
  ∃ L cluster,
    get_neighborhood iter objs uid (Z.of_nat k) = Some (Ok cluster.*2)
    ∧ bfs_inv objs uid k L [] cluster [].
Proof.
  intros iter_spec Ho. unfold get_neighborhood. rewrite Ho.
  destruct (bfs_returns iter iter_spec objs uid k (size objs) []
              [(uid, 0)] [(uid, o)] [(uid, 0%Z)])
    as (L & cluster & -> & Hinv); [by apply bfs_inv_init|simpl; lia|].
  by exists L, cluster.
Qed.

(** The final cluster holds exactly the entries of the index within reach. *)
Lemma final_cluster_members (objs : gmap string GraphObject) uid k L cluster u o :
  bfs_inv objs uid k L [] cluster [] →
  (u, o) ∈ cluster ↔ objs !! u = Some o ∧ within_reach objs uid k u.
Proof.
  intros Hinv. pose proof (inv_keys _ _ _ _ _ _ _ Hinv) as Hkeys.
  rewrite app_nil_r in Hkeys. split.
  - intros Hin. split; [by apply (inv_objs _ _ _ _ _ _ _ Hinv)|].
    assert (u ∈ L.*1) as ([u' d] & -> & Hx)%list_elem_of_fmap.
    { rewrite <- Hkeys. apply list_elem_of_fmap. by exists (u, o). }
    destruct (inv_path _ _ _ _ _ _ _ Hinv (u', d)) as [Hd Hp]; [by rewrite app_nil_r|].
    by exists d.
  - intros [Ho (n & Hn & Hp)].
    destruct (bfs_inv_complete objs uid k L cluster n u Hinv Hp Hn) as (y & Hy & Hy1 & _);
      [eauto|].
    destruct (cluster_lookup cluster L u) as [o' Ho']; [done|..].
    { rewrite <- Hy1. by apply list_elem_of_fmap_2. }
    pose proof (inv_objs _ _ _ _ _ _ _ Hinv u o' Ho'). by simplify_eq.
Qed.

Lemma final_cluster_NoDup (objs : gmap string GraphObject) uid k L cluster :
  bfs_inv objs uid k L [] cluster [] → NoDup cluster.
Proof.
  intros Hinv. apply (NoDup_fmap_1 fst).
  rewrite (inv_keys _ _ _ _ _ _ _ Hinv). apply Hinv.
Qed.

(** X8: The objects that [get_neighborhood] returns do not depend on the order
    in which the link sets are iterated: two orders give the same objects,
    each as often, in a possibly different order. *)
Theorem get_neighborhood_order_independent
    (iter1 iter2 : gset (string * string) → list (string * string))
    (objs : gmap string GraphObject) (uid : string) (k : nat) :
  (∀ s x, x ∈ iter1 s ↔ x ∈ s) → (∀ s x, x ∈ iter2 s ↔ x ∈ s) →
  ∃ r1 r2,
    get_neighborhood iter1 objs uid (Z.of_nat k) = Some (Ok r1)
    ∧ get_neighborhood iter2 objs uid (Z.of_nat k) = Some (Ok r2)
    ∧ r1 ≡ₚ r2.
Proof.
  intros H1 H2. destruct (objs !! uid) as [o|] eqn:Ho.
  - destruct (get_neighborhood_final iter1 objs uid k o H1 Ho) as (L1 & c1 & -> & Hinv1).
    destruct (get_neighborhood_final iter2 objs uid k o H2 Ho) as (L2 & c2 & -> & Hinv2).
    exists c1.*2, c2.*2. split; [done|]. split; [done|].
    apply fmap_Permutation. apply NoDup_Permutation.
    + by eapply final_cluster_NoDup.
    + by eapply final_cluster_NoDup.
    + intros [u o']. by rewrite !final_cluster_members.
  - exists [], []. unfold get_neighborhood. by rewrite Ho.
Qed.

Lemma get_neighborhood_order_independent_witness :
  ∃ r1 r2,
    get_neighborhood elements ring "a" (Z.of_nat 2) = Some (Ok r1)
    ∧ get_neighborhood (λ s, reverse (elements s)) ring "a" (Z.of_nat 2) = Some (Ok r2)
    ∧ r1 ≡ₚ r2.
Proof.
  apply (get_neighborhood_order_independent elements (λ s, reverse (elements s))).
  - intros s x. apply elem_of_elements.
  - intros s x. rewrite elem_of_reverse. apply elem_of_elements.
Defined.

(** X9: A larger depth returns every object that a smaller one returns. *)
Theorem get_neighborhood_monotone
    (iter : gset (string * string) → list (string * string))
    (objs : gmap string GraphObject) (uid : string) (k k' : nat) :
  (∀ s x, x ∈ iter s ↔ x ∈ s) → k ≤ k' →
  ∃ r r',
    get_neighborhood iter objs uid (Z.of_nat k) = Some (Ok r)
    ∧ get_neighborhood iter objs uid (Z.of_nat k') = Some (Ok r')
    ∧ r ⊆+ r'.
Proof.
  intros Hi Hk. destruct (objs !! uid) as [o|] eqn:Ho.
  - destruct (get_neighborhood_final iter objs uid k o Hi Ho) as (L1 & c1 & -> & Hinv1).
    destruct (get_neighborhood_final iter objs uid k' o Hi Ho) as (L2 & c2 & -> & Hinv2).
    exists c1.*2, c2.*2. split; [done|]. split; [done|].
    apply fmap_submseteq. apply NoDup_submseteq.
    + by eapply final_cluster_NoDup.
    + intros [u o']. rewrite !final_cluster_members by done.
      intros [Hu (n & Hn & Hp)]. split; [done|]. exists n. split; [lia|done].
  - exists [], []. unfold get_neighborhood. by rewrite Ho.
Qed.

Lemma get_neighborhood_monotone_witness :
  ∃ r r',
    get_neighborhood elements ring "a" (Z.of_nat 1) = Some (Ok r)
    ∧ get_neighborhood elements ring "a" (Z.of_nat 2) = Some (Ok r')
    ∧ r ⊆+ r'.
Proof.
  apply (get_neighborhood_monotone elements ring "a" 1 2).
  - intros s x. apply elem_of_elements.
  - lia.
Defined.

(** In the final cluster the depth below a depth that occurs occurs too. *)
Lemma final_cluster_level (objs : gmap string GraphObject) uid k L cluster d :
  bfs_inv objs uid k L [] cluster [] → S d ∈ L.*2 → d ∈ L.*2.
Proof.
  intros Hinv ([w d'] & Hd & Hx)%list_elem_of_fmap. simpl in Hd. subst d'.
  destruct (inv_path _ _ _ _ _ _ _ Hinv (w, S d)) as [Hk Hp]; [by rewrite app_nil_r|].
  simpl in *. inversion Hp as [|n v w' Hpv Hhop]; subst.
  destruct (bfs_inv_complete objs uid k L cluster d v Hinv Hpv) as (y & Hy & Hy1 & Hy2);
    [lia|destruct Hhop as (o & lt & -> & _); eauto|].
  destruct (inv_path _ _ _ _ _ _ _ Hinv y) as [_ Hpy]; [by rewrite app_nil_r|].
  rewrite Hy1 in Hpy.
  pose proof (bfs_inv_shortest objs uid k L cluster (w, S d) (S y.2) Hinv Hx
                (path_step _ _ _ _ _ Hpy Hhop)) as Hs. simpl in Hs.
  assert (y.2 = d) as <- by lia. by apply list_elem_of_fmap_2.
Qed.

Lemma final_cluster_levels (objs : gmap string GraphObject) uid k L cluster d :
  bfs_inv objs uid k L [] cluster [] → d ∈ L.*2 → seq 0 (S d) ⊆ L.*2.
Proof.
  intros Hinv. induction d as [|d IH]; intros Hd.
  - intros x ->%list_elem_of_singleton. done.
  - intros x Hx. rewrite seq_S in Hx. apply elem_of_app in Hx as [Hx|Hx].
    + apply IH; [|done]. by eapply final_cluster_level.
    + apply list_elem_of_singleton in Hx as ->. done.
Qed.

(** No depth in the final cluster reaches the number of objects. *)
Lemma final_cluster_depth (objs : gmap string GraphObject) uid k L cluster d :
  bfs_inv objs uid k L [] cluster [] → d ∈ L.*2 → d < size objs.
Proof.
  intros Hinv Hd.
  pose proof (final_cluster_levels objs uid k L cluster d Hinv Hd) as Hsub.
  apply NoDup_submseteq in Hsub; [|apply NoDup_seq].
  apply submseteq_length in Hsub. rewrite length_seq, length_fmap in Hsub.
  pose proof (bfs_inv_length objs uid k L [] cluster [] Hinv) as Hlen.
  rewrite app_nil_r in Hlen. lia.
Qed.

(** X10: With a depth of at least the number of objects less one,
    [get_neighborhood] returns everything that can be reached from the seed
    at all: a larger depth adds nothing. *)
Theorem get_neighborhood_saturates
    (iter : gset (string * string) → list (string * string))
    (objs : gmap string GraphObject) (uid : string) (k : nat) :
  (∀ s x, x ∈ iter s ↔ x ∈ s) → size objs ≤ S k →
  ∃ r, get_neighborhood iter objs uid (Z.of_nat k) = Some (Ok r)
    ∧ ∀ o', o' ∈ r ↔ is_Some (objs !! uid)
                      ∧ ∃ w n, path objs uid n w ∧ objs !! w = Some o'.
Proof.
  intros Hi Hk. destruct (objs !! uid) as [o|] eqn:Ho.
  2:{ exists []. unfold get_neighborhood. rewrite Ho. split; [done|].
      intros o'. split; [by intros ?%not_elem_of_nil|]. by intros [[? ?] _]. }
  destruct (get_neighborhood_final iter objs uid k o Hi Ho) as (L & c & -> & Hinv).
  exists c.*2. split; [done|]. intros o'. rewrite list_elem_of_fmap. split.
  - intros ([u o''] & -> & Hin). split; [eauto|].
    apply (final_cluster_members objs uid k L c u o'' Hinv) in Hin
      as [Hu (n & _ & Hp)]. by exists u, n.
  - intros [_ (w & n & Hp & Hw)]. exists (w, o'). split; [done|].
    apply (final_cluster_members objs uid k L c w o' Hinv). split; [done|].
    destruct (get_neighborhood_final iter objs uid (n `max` k) o Hi Ho)
      as (L' & c' & _ & Hinv').
    destruct (bfs_inv_complete objs uid _ L' c' n w Hinv' Hp) as (y & Hy & Hy1 & Hy2);
      [lia|eauto|].
    pose proof (final_cluster_depth objs uid _ L' c' y.2 Hinv'
                  (list_elem_of_fmap_2 snd _ _ Hy)) as Hd.
    destruct (inv_path _ _ _ _ _ _ _ Hinv' y) as [_ Hpy]; [by rewrite app_nil_r|].
    rewrite Hy1 in Hpy. exists y.2. split; [lia|done].
Qed.

Lemma get_neighborhood_saturates_witness :
  ∃ r, get_neighborhood elements ring "a" (Z.of_nat 2) = Some (Ok r)
    ∧ ∀ o', o' ∈ r ↔ is_Some (ring !! "a")
                      ∧ ∃ w n, path ring "a" n w ∧ ring !! w = Some o'.
Proof.
  apply (get_neighborhood_saturates elements ring "a" 2).
  - intros s x. apply elem_of_elements.
  - vm_compute. lia.
Defined.

(** ** How the ingestion calls end *)

Lemma returns_ret {A} (a : A) (P : A → Prop) : P a → returns (mret a) P.
Proof. intros Ha k Hf. by exists a. Qed.

Lemma returns_bind {A B} (m : M A) (f : A → M B) (P : A → Prop) (Q : B → Prop) :
  returns m P → (∀ a, P a → returns (f a) Q) → returns (m ≫= f) Q.
Proof.
  intros Hm Hf k Hk. unfold mbind, M_bind.
  destruct (Hm k Hk) as (a & Ha & HP & Hfa).
  destruct (m k) as [[a'|e] k1]; simpl in *; simplify_eq. by apply Hf.
Qed.

Lemma returns_seq {A B} (m : M A) (f : A → M B) (Q : B → Prop) :
  returns m (λ _, True) → (∀ a, returns (f a) Q) → returns (m ≫= f) Q.
Proof. intros Hm Hf. eapply returns_bind; [exact Hm|]. intros a _. apply Hf. Qed.

Lemma returns_get_objects : returns get_objects (λ _, True).
Proof. intros k Hk. by eexists. Qed.

Lemma returns_warning msg : returns (warning msg) (λ _, True).
Proof. intros k Hk. by eexists. Qed.

Lemma returns_now : returns now (λ _, True).
Proof. intros k Hk. by eexists. Qed.

Lemma returns_upsert_object obj : returns (upsert_object obj) (λ _, True).
Proof.
  intros k Hk. rewrite upsert_object_commits by (by rewrite Hk).
  exists (). simpl. by rewrite Hk.
Qed.

Lemma returns_link a b t bidi : returns (link a b t bidi) (λ _, True).
Proof.
  intros k Hk. exists ().
  destruct (decide (is_Some (objects k !! a) ∧ is_Some (objects k !! b))) as [[Ha Hb]|Hn].
  - rewrite link_commits by (done || by rewrite Hk). simpl. by rewrite Hk.
  - by rewrite link_skips.
Qed.

Create HintDb returns discriminated.
#[local] Hint Resolve returns_get_objects returns_warning returns_now
  returns_upsert_object returns_link : returns.

Ltac returns_step :=
  repeat first
    [ solve [eauto with returns]
    | apply returns_ret; by simpl
    | apply returns_seq; [|intros ?]
    | match goal with
      | |- returns (match ?x with Some _ => _ | None => _ end) _ => destruct x
      | |- returns (if ?x then _ else _) _ => destruct x
      end ].

Lemma returns_new_object u t p : returns (new_object u t p) (λ _, True).
Proof. unfold new_object. returns_step. Qed.

#[local] Hint Resolve returns_new_object : returns.

Lemma returns_ensure_module u n : returns (ensure_module u n) (λ _, True).
Proof. unfold ensure_module. returns_step. Qed.

#[local] Hint Resolve returns_ensure_module : returns.

Lemma returns_link_if_known u v t :
  unhashable v = false → returns (link_if_known u v t) (λ _, True).
Proof. intros Hv. unfold link_if_known. destruct v; try done; returns_step. Qed.

(** After the object of an ingestion is stored, in the index and in the
    file, nothing that follows takes it away. *)
Lemma stored_then {A} u ty props (rest : M A) k :
  append_only rest → hd true (faults k) = true →
  let r := (obj ← new_object u ty props; upsert_object obj;; rest) k in
  is_Some (objects r.2 !! u) ∧ ∃ row, row ∈ objects_rel (disk r.2) ∧ row_uid row = u.
Proof.
  intros Hrest Hf.
  unfold mbind at 1 2, M_bind at 1 2, new_object, mbind, M_bind, now, mret, M_ret. simpl.
  rewrite upsert_object_commits by done. simpl.
  set (obj := {| uid := u; type := ty; properties := props; links := ∅;
                 created_at := hd "" (clock k) |}).
  set (k1 := {| objects := merge_into (scrubbed obj) (objects k);
                disk := persist (scrubbed obj) (disk k) |}).
  destruct (Hrest k1) as [Hi [_ Hd]].
  destruct (merge_into_lookup_self (scrubbed obj) (objects k)) as [o Ho].
  destruct (Hi u o Ho) as (o' & Ho' & _).
  destruct (Hd (row_of (scrubbed obj))) as (row & Hrow & Hu).
  { simpl. rewrite objects_rel_persist. apply elem_of_app. right. by left. }
  split; [eauto|]. by exists row.
Qed.

(** X11: With every write committing, [ingest_symbol] and [ingest_finding] return
    the uid they built, the finding's ending in the reading of the clock,
    and [ingest_intent] returns its uid unless [focus_symbol] holds a list or
    a dictionary: then it raises [TypeError], after the intent has been
    stored in the index and in the file. *)
Theorem ingestion_outcome (py_str : json → string) (k : Kernel) :
  faults k = [] →
  (∀ rel_path name symbol_type props,
     (ingest_symbol rel_path name symbol_type props k).1
     = Ok ("symbol:" +:+ rel_path +:+ ":" +:+ name))
  ∧ (∀ rel_path finding_type severity message props,
     (ingest_finding py_str rel_path finding_type severity message props k).1
     = Ok ("finding:" +:+ rel_path +:+ ":" +:+ finding_type +:+ ":" +:+ hd "" (clock k)))
  ∧ (∀ intent_id content props,
     let r := ingest_intent py_str intent_id content props k in
     r.1 = match props !! "focus_symbol" with
           | Some (JList _) | Some (JDict _) => Raise TypeError
           | _ => Ok ("intent:" +:+ intent_id)
           end
     ∧ is_Some (objects r.2 !! ("intent:" +:+ intent_id))
     ∧ ∃ row, row ∈ objects_rel (disk r.2) ∧ row_uid row = "intent:" +:+ intent_id).
Proof.
  intros Hf. split; [|split].
  - intros. by rewrite ingest_symbol_commits.
  - intros p f s m props.
    unfold ingest_finding, mbind at 1, M_bind at 1, now at 1. cbn [fst snd].
    set (k0 := {| objects := objects k; disk := disk k; warnings := warnings k;
                  faults := faults k; clock := tl (clock k) |}).
    set (u := "finding:" +:+ p +:+ ":" +:+ f +:+ ":" +:+ hd "" (clock k)).
    match goal with |- (?rest k0).1 = _ => assert (returns rest (eq u)) as Hr end.
    { returns_step. }
    by destruct (Hr k0 Hf) as (a & -> & -> & _).
  - intros i c props r. split; [|by apply stored_then; [grow_step|rewrite Hf]].
    unfold r, ingest_intent.
    destruct (props !! "focus_symbol") as [v|] eqn:Hfocus.
    + destruct (unhashable v) eqn:Hv.
      * unfold mbind, M_bind, new_object, now, mret, M_ret. simpl.
        rewrite upsert_object_commits by (by rewrite Hf). simpl.
        by destruct v.
      * match goal with |- (?m k).1 = _ =>
          assert (returns m (eq ("intent:" +:+ i))) as Hr end.
        { pose proof (returns_link_if_known ("intent:" +:+ i) v "clarifies" Hv).
          returns_step. }
        destruct (Hr k Hf) as (a & -> & -> & _). by destruct v.
    + match goal with |- (?m k).1 = _ =>
        assert (returns m (eq ("intent:" +:+ i))) as Hr end.
      { returns_step. }
      by destruct (Hr k Hf) as (a & -> & -> & _).
Qed.

Lemma ingestion_outcome_witness :
  let props : gmap string json := {[ "focus_symbol" := JList [JStr "symbol:a.py:f"] ]} in
  let r := ingest_intent (λ _, "") "d1" "Limit is 10000" props
             (fresh_kernel empty_disk [] ["t0"]) in
  r.1 = match props !! "focus_symbol" with
        | Some (JList _) | Some (JDict _) => Raise TypeError
        | _ => Ok ("intent:" +:+ "d1")
        end
  ∧ is_Some (objects r.2 !! ("intent:" +:+ "d1"))
  ∧ ∃ row, row ∈ objects_rel (disk r.2) ∧ row_uid row = "intent:" +:+ "d1".
Proof.
  exact (proj2 (proj2 (ingestion_outcome (λ _, "") (fresh_kernel empty_disk [] ["t0"])
                         eq_refl))
           "d1" "Limit is 10000" {[ "focus_symbol" := JList [JStr "symbol:a.py:f"] ]}).
Defined.

(** ** Calling twice *)

Lemma disk_eq d1 d2 :
  objects_rel d1 = objects_rel d2 → links_rel d1 = links_rel d2 → d1 = d2.
Proof. destruct d1, d2. simpl. by intros -> ->. Qed.

Lemma link_disk_idem a b t bidi d :
  link_disk a b t bidi (link_disk a b t bidi d) = link_disk a b t bidi d.
Proof.
  apply disk_eq; [by rewrite !objects_rel_link_disk|].
  unfold link_disk. destruct bidi; simpl; set_solver.
Qed.

Lemma merge_into_idem obj (objs : gmap string GraphObject) :
  merge_into obj (merge_into obj objs) = merge_into obj objs.
Proof.
  unfold merge_into at 1.
  destruct (merge_into obj objs !! uid obj) as [o|] eqn:Ho.
  2:{ destruct (merge_into_lookup_self obj objs) as [o' Ho']. rewrite Ho' in Ho. discriminate. }
  apply insert_id. rewrite Ho. f_equal.
  unfold merge_into in Ho. destruct (objs !! uid obj) as [old|];
    rewrite lookup_insert_eq in Ho; injection Ho as <-.
  - unfold with_links, with_properties. simpl. f_equal.
    + by rewrite map_union_assoc, map_union_idemp.
    + set_solver.
  - destruct obj. unfold with_links, with_properties. simpl. f_equal.
    + by rewrite map_union_idemp.
    + set_solver.
Qed.

Lemma persist_idem obj d : persist obj (persist obj d) = persist obj d.
Proof.
  apply disk_eq.
  - rewrite !objects_rel_persist, filter_app, list_filter_filter.
    rewrite filter_cons_False, filter_nil, app_nil_r by (by intros ?).
    f_equal. apply list_filter_iff. intros r. tauto.
  - rewrite !links_rel_persist_all. set_solver.
Qed.

(** X12: With every write committing, a second [link] with the same arguments
    changes neither the index nor the file. *)
Theorem link_idempotent (k : Kernel) (a b t : string) (bidi : bool) :
  faults k = [] →
  ∃ k1 k2, link a b t bidi k = (Ok (), k1) ∧ link a b t bidi k1 = (Ok (), k2)
    ∧ objects k2 = objects k1 ∧ disk k2 = disk k1.
Proof.
  intros Hf.
  destruct (decide (is_Some (objects k !! a) ∧ is_Some (objects k !! b))) as [[Ha Hb]|Hn].
  - do 2 eexists. split; [apply link_commits; [done..|by rewrite Hf]|].
    split; [apply link_commits; simpl; [by apply linked_is_Some..|by rewrite Hf]|].
    simpl. split; [apply linked_idem|apply link_disk_idem].
  - do 2 eexists. split; [by apply link_skips|]. split; [by apply link_skips|]. done.
Qed.

Lemma link_idempotent_witness :
  ∃ k1 k2, link "module:a.py" "symbol:a.py:f" "defines" true two_objects_kernel = (Ok (), k1)
    ∧ link "module:a.py" "symbol:a.py:f" "defines" true k1 = (Ok (), k2)
    ∧ objects k2 = objects k1 ∧ disk k2 = disk k1.
Proof.
  exact (link_idempotent two_objects_kernel "module:a.py" "symbol:a.py:f" "defines" true
           eq_refl).
Defined.



(** ** A write that fails part of the way *)

(** X14: [ingest_symbol] is three transactions.  When the first two commit and
    the third, the one of the link, raises, the call raises; the rows of the
    symbol and of the module stay in the file, without the edge between
    them, and the index has the two objects linked. *)
Theorem ingest_symbol_not_atomic (k : Kernel) (rel_path name symbol_type : string)
    (props : gmap string json) (fs : list bool) :
  faults k = true :: true :: false :: fs →
  objects k !! ("module:" +:+ rel_path) = None →
  ∃ k' mo, ingest_symbol rel_path name symbol_type props k = (Raise OperationalError, k')
    ∧ (∃ r, r ∈ objects_rel (disk k')
            ∧ row_uid r = "symbol:" +:+ rel_path +:+ ":" +:+ name)
    ∧ (∃ r, r ∈ objects_rel (disk k') ∧ row_uid r = "module:" +:+ rel_path)
    ∧ links_rel (disk k') = links_rel (disk k)
    ∧ objects k' !! ("module:" +:+ rel_path) = Some mo
    ∧ ("symbol:" +:+ rel_path +:+ ":" +:+ name, "defines") ∈ links mo.
Proof.
  intros Hf Hm. unfold ingest_symbol.
  fold (symbol_uid_of rel_path name) (module_uid_of rel_path) in *.
  unfold new_object, ensure_module, mbind, M_bind, now, get_objects, mret, M_ret. simpl.
  rewrite upsert_object_commits by (simpl; by rewrite Hf). simpl.
  rewrite merge_into_lookup_ne, Hm by (symmetry; apply symbol_uid_not_module). simpl.
  rewrite upsert_object_commits by (simpl; by rewrite Hf). simpl.
  set (obj := scrubbed {| uid := symbol_uid_of rel_path name |}).
  set (mobj := scrubbed {| uid := module_uid_of rel_path |}).
  rewrite (link_fails _ _ _ _ _ fs); cbn [objects faults];
    [|apply (merge_into_lookup_self mobj)
     |apply merge_into_is_Some, (merge_into_lookup_self obj)|by rewrite Hf].
  destruct (merge_into_lookup_self mobj (merge_into obj (objects k))) as [mo Hmo].
  eexists _, _. split; [done|]. cbn [objects disk]. split; [|split; [|split; [|split]]].
  - exists (row_of obj). split; [|done].
    rewrite !objects_rel_persist. apply elem_of_app. left.
    apply list_elem_of_filter. split; [apply not_eq_sym, symbol_uid_not_module|].
    apply elem_of_app. right. by left.
  - exists (row_of mobj). split; [|done].
    rewrite objects_rel_persist. apply elem_of_app. right. by left.
  - by rewrite !links_rel_persist.
  - rewrite linked_lookup. change (uid mobj) with (module_uid_of rel_path) in Hmo.
    rewrite Hmo. done.
  - simpl. unfold added_links. rewrite decide_True by done. set_solver.
Qed.

Lemma ingest_symbol_not_atomic_witness :
  ∃ k' mo, ingest_symbol "billing.py" "process_payment" "function" ∅
             (fresh_kernel empty_disk [true; true; false] ["t0"; "t1"])
           = (Raise OperationalError, k')
    ∧ (∃ r, r ∈ objects_rel (disk k')
            ∧ row_uid r = "symbol:" +:+ "billing.py" +:+ ":" +:+ "process_payment")
    ∧ (∃ r, r ∈ objects_rel (disk k') ∧ row_uid r = "module:" +:+ "billing.py")
    ∧ links_rel (disk k') = links_rel (disk (fresh_kernel empty_disk [true; true; false]
                                               ["t0"; "t1"]))
    ∧ objects k' !! ("module:" +:+ "billing.py") = Some mo
    ∧ ("symbol:" +:+ "billing.py" +:+ ":" +:+ "process_payment", "defines") ∈ links mo.
Proof.
  exact (ingest_symbol_not_atomic
           (fresh_kernel empty_disk [true; true; false] ["t0"; "t1"])
           "billing.py" "process_payment" "function" ∅ [] eq_refl eq_refl).
Defined.

(** ** Findings *)

Lemma ingest_finding_ends py_str p f s m props k :
  faults k = [] →
  let r := ingest_finding py_str p f s m props k in
  r.1 = Ok (finding_uid_of p f (hd "" (clock k)))
  ∧ faults r.2 = []
  ∧ is_Some (objects r.2 !! finding_uid_of p f (hd "" (clock k))).
Proof.
  intros Hf r. unfold r, ingest_finding, mbind at 1, M_bind at 1, now at 1. cbn [fst snd].
  set (k0 := {| objects := objects k; disk := disk k; warnings := warnings k;
                faults := faults k; clock := tl (clock k) |}).
  fold (finding_uid_of p f (hd "" (clock k))).
  set (u := finding_uid_of p f (hd "" (clock k))).
  match goal with |- (?rest k0).1 = _ ∧ _ => assert (returns rest (eq u)) as Hr end.
  { returns_step. }
  destruct (Hr k0 Hf) as (a & Ha & Hu & Hfa). subst a.
  split; [exact Ha|]. split; [exact Hfa|].
  apply (stored_then u "finding" _ _ k0); [grow_step|]. simpl. by rewrite Hf.
Qed.

(** X15: [ingest_finding] builds the uid from a reading of the clock: with every
    write committing, two calls with the same arguments between which the
    clock has moved return two uids, and the index has an object under
    each. *)
Theorem ingest_finding_not_idempotent (py_str : json → string) (k : Kernel)
    (rel_path finding_type severity message : string) (props : gmap string json) :
  let r1 := ingest_finding py_str rel_path finding_type severity message props k in
  let r2 := ingest_finding py_str rel_path finding_type severity message props r1.2 in
  faults k = [] → hd "" (clock k) ≠ hd "" (clock r1.2) →
  ∃ u1 u2, r1.1 = Ok u1 ∧ r2.1 = Ok u2 ∧ u1 ≠ u2
    ∧ is_Some (objects r2.2 !! u1) ∧ is_Some (objects r2.2 !! u2).
Proof.
  intros r1 r2 Hf Hclock.
  destruct (ingest_finding_ends py_str rel_path finding_type severity message props k Hf)
    as (H1 & Hf1 & Hs1). fold r1 in H1, Hf1, Hs1.
  destruct (ingest_finding_ends py_str rel_path finding_type severity message props r1.2 Hf1)
    as (H2 & _ & Hs2). fold r2 in H2, Hs2.
  eexists _, _. split; [exact H1|]. split; [exact H2|]. split; [|split; [|done]].
  - unfold finding_uid_of. intros Heq. apply Hclock.
    by repeat apply String.app_inj in Heq.
  - destruct Hs1 as [o Ho].
    destruct (append_only_ingest_finding py_str rel_path finding_type severity message
                props r1.2) as [Hi _].
    destruct (Hi _ _ Ho) as (o' & Ho' & _). fold r2 in Ho'. eauto.
Qed.

Lemma ingest_finding_not_idempotent_witness :
  let k := fresh_kernel empty_disk [] ["1.5"; "t0"; "t1"; "2.5"; "t2"] in
  let r1 := ingest_finding (λ _, "") "a.py" "TODO" "low" "fix it" ∅ k in
  let r2 := ingest_finding (λ _, "") "a.py" "TODO" "low" "fix it" ∅ r1.2 in
  ∃ u1 u2, r1.1 = Ok u1 ∧ r2.1 = Ok u2 ∧ u1 ≠ u2
    ∧ is_Some (objects r2.2 !! u1) ∧ is_Some (objects r2.2 !! u2).
Proof.
  intros k r1 r2.
  apply (ingest_finding_not_idempotent (λ _, "") k "a.py" "TODO" "low" "fix it" ∅ eq_refl).
  vm_compute. discriminate.
Defined.

(** ** A caller's loop *)

Lemma after_ingest_symbol_defined p n t props k :
  defined_in (objects (after_ingest_symbol p n t props k)) p n.
Proof.
  split; [|apply after_ingest_symbol_indexed].
  destruct (after_ingest_symbol_indexed p n t props k) as [_ [mo Hmo]].
  exists mo. split; [done|]. revert Hmo.
  unfold after_ingest_symbol. cbv zeta.
  destruct (merge_into _ (objects k) !! module_uid_of p); cbn [objects];
    rewrite linked_lookup; intros (o & Ho & ->)%fmap_Some; simpl;
    unfold added_links; rewrite decide_True by done; set_solver.
Qed.

Lemma defined_in_grows objs objs' p n :
  index_grows objs objs' → defined_in objs p n → defined_in objs' p n.
Proof.
  intros Hg [(mo & Hmo & Hl) [o Ho]].
  destruct (Hg _ _ Hmo) as (mo' & Hmo' & _ & _ & _ & Hlinks & _).
  destruct (Hg _ _ Ho) as (o' & Ho' & _).
  split; [|eauto]. exists mo'. split; [done|]. set_solver.
Qed.

Lemma ingest_symbols_ends p names t props : ∀ k,
  faults k = [] →
  ∃ k', ingest_symbols p names t props k = (Ok (), k')
    ∧ faults k' = []
    ∧ index_grows (objects k) (objects k')
    ∧ ∀ n, n ∈ names → defined_in (objects k') p n.
Proof.
  induction names as [|n names IH]; intros k Hf.
  - exists k. split; [done|]. split; [done|]. split; [apply index_grows_refl|].
    intros n Hn. by apply not_elem_of_nil in Hn.
  - destruct (IH (after_ingest_symbol p n t props k)) as (k' & Hk' & Hf' & Hg & Hall);
      [apply after_ingest_symbol_faults|].
    exists k'. split.
    { cbn [ingest_symbols foldr]. unfold mbind at 1, M_bind at 1.
      rewrite ingest_symbol_commits by done. exact Hk'. }
    split; [done|]. split.
    { eapply index_grows_trans; [|exact Hg].
      pose proof (append_only_ingest_symbol p n t props k) as [Hi _].
      by rewrite ingest_symbol_commits in Hi. }
    intros n' [->|Hn']%elem_of_cons; [|by apply Hall].
    eapply defined_in_grows; [exact Hg|]. apply after_ingest_symbol_defined.
Qed.

Lemma symbol_uid_of_inj p : Inj (=) (=) (symbol_uid_of p).
Proof.
  intros n1 n2 Heq. unfold symbol_uid_of in Heq.
  by repeat apply String.app_inj in Heq.
Qed.

(** X16: A caller ingests the symbols [names] of one file, with every write
    committing, and then asks for the neighbourhood of the file's module at
    depth 1: the result holds every one of the symbols, and, the names being
    distinct, more objects than there are names. *)
Theorem ingested_symbols_in_neighborhood
    (iter : gset (string * string) → list (string * string))
    (k : Kernel) (rel_path : string) (names : list string) (symbol_type : string)
    (props : gmap string json) :
  (∀ s x, x ∈ iter s ↔ x ∈ s) → faults k = [] → NoDup names → names ≠ [] →
  ∃ k' result,
    ingest_symbols rel_path names symbol_type props k = (Ok (), k')
    ∧ get_neighborhood iter (objects k') ("module:" +:+ rel_path) 1 = Some (Ok result)
    ∧ (∀ n, n ∈ names →
         ∃ o, objects k' !! ("symbol:" +:+ rel_path +:+ ":" +:+ n) = Some o ∧ o ∈ result)
    ∧ length names < length result.
Proof.
  intros Hi Hf Hnd Hne.
  destruct (ingest_symbols_ends rel_path names symbol_type props k Hf)
    as (k' & Hk' & _ & _ & Hall).
  fold (module_uid_of rel_path).
  assert (∃ mo, objects k' !! module_uid_of rel_path = Some mo) as [mo Hmo].
  { destruct names as [|n names]; [done|].
    destruct (Hall n) as [(mo & Hmo & _) _]; [by left|]. eauto. }
  destruct (get_neighborhood_final iter (objects k') (module_uid_of rel_path) 1 mo Hi Hmo)
    as (L & c & Hres & Hinv).
  exists k', c.*2. split; [done|]. split; [exact Hres|].
  assert (∀ n, n ∈ names → ∃ o, objects k' !! symbol_uid_of rel_path n = Some o
                               ∧ (symbol_uid_of rel_path n, o) ∈ c) as Hin.
  { intros n Hn. destruct (Hall n Hn) as [(mo' & Hmo' & Hl) [o Ho]].
    exists o. split; [done|].
    apply (final_cluster_members _ _ _ _ _ _ _ Hinv). split; [done|].
    exists 1. split; [done|]. apply (path_step _ _ 0 (module_uid_of rel_path)).
    - constructor.
    - by exists mo', "defines". }
  split.
  - intros n Hn. destruct (Hin n Hn) as (o & Ho & Hc). exists o. split; [done|].
    apply list_elem_of_fmap. by exists (symbol_uid_of rel_path n, o).
  - rewrite length_fmap, <- (length_fmap fst c).
    change (S (length names) ≤ length c.*1).
    rewrite <- (length_fmap (symbol_uid_of rel_path) names).
    change (length (module_uid_of rel_path :: (symbol_uid_of rel_path <$> names))
            ≤ length c.*1).
    apply submseteq_length, NoDup_submseteq.
    + apply NoDup_cons. split.
      * intros (n & Hn & _)%list_elem_of_fmap. by apply symbol_uid_not_module in Hn.
      * apply NoDup_fmap_2; [apply symbol_uid_of_inj|done].
    + intros u [->|(n & -> & Hn)%list_elem_of_fmap]%elem_of_cons.
      * apply list_elem_of_fmap. exists (module_uid_of rel_path, mo). split; [done|].
        apply (final_cluster_members _ _ _ _ _ _ _ Hinv). split; [done|].
        exists 0. split; [lia|constructor].
      * destruct (Hin n Hn) as (o & _ & Hc). apply list_elem_of_fmap.
        by exists (symbol_uid_of rel_path n, o).
Qed.

Lemma ingested_symbols_in_neighborhood_witness :
  ∃ k' result,
    ingest_symbols "scale.py" ["Node_0"; "Node_1"; "Node_2"] "function" ∅
      (fresh_kernel empty_disk [] []) = (Ok (), k')
    ∧ get_neighborhood elements (objects k') ("module:" +:+ "scale.py") 1 = Some (Ok result)
    ∧ (∀ n, n ∈ ["Node_0"; "Node_1"; "Node_2"] →
         ∃ o, objects k' !! ("symbol:" +:+ "scale.py" +:+ ":" +:+ n) = Some o ∧ o ∈ result)
    ∧ length ["Node_0"; "Node_1"; "Node_2"] < length result.
Proof.
  apply (ingested_symbols_in_neighborhood elements (fresh_kernel empty_disk [] [])
           "scale.py" ["Node_0"; "Node_1"; "Node_2"] "function" ∅).
  - intros s x. apply elem_of_elements.
  - reflexivity.
  - apply (bool_decide_unpack (NoDup ["Node_0"; "Node_1"; "Node_2"])). vm_compute. exact I.
  - discriminate.
Defined.

(** ** Counting placeholders *)

Lemma opened_app s1 s2 : opened (s1 ++ s2) = opened s1 + opened s2.
Proof. unfold opened. by rewrite filter_app, length_app. Qed.

Lemma opened_plain w : plain w → opened w = 0.
Proof.
  intros Hw. unfold opened. rewrite filter_none; [done|].
  intros c Hc Hb. unfold plain in Hw. rewrite Forall_forall in Hw.
  specialize (Hw c Hc). unfold is_bracket in Hw. by rewrite Hb in Hw.
Qed.

Lemma opened_bracketed iq : plain iq → opened (bracketed iq) = 1.
Proof.
  intros Hiq. unfold bracketed.
  change ("["%char :: iq ++ ["]"%char]) with (["["%char] ++ iq ++ ["]"%char]).
  rewrite !opened_app, (opened_plain iq Hiq). reflexivity.
Qed.

Section counting.

Variables (r : regex) (iq : list ascii).
Hypothesis r_nonnull : nullable r = false.
Hypothesis r_bracketless : bracketless r = true.
Hypothesis iq_plain : plain iq.

#[local] Notation ph := (bracketed iq).

Lemma findall_from_skip w : ∀ prev rest,
  findall_from r prev (w ++ rest) (length w) = findall_from r (lastc prev w) rest 0.
Proof.
  induction w as [|c w IH]; intros prev rest; simpl.
  - by destruct rest.
  - apply IH.
Qed.

Lemma findall_from_nil prev : findall_from r prev [] 0 = [].
Proof.
  simpl. destruct (match_at r prev []) as [n|] eqn:Hm; [|done].
  by apply match_at_pos in Hm as (c & w & rest & ? & _).
Qed.

(** At a match both scans take the same word and go on behind it. *)
Lemma scan_match prev s n :
  match_at r prev s = Some n →
  ∃ w rest, s = w ++ rest ∧ sem r w ∧ w ≠ []
    ∧ sub_from r ph prev s 0 = ph ++ sub_from r ph (lastc prev w) rest 0
    ∧ findall_from r prev s 0 = w :: findall_from r (lastc prev w) rest 0.
Proof.
  intros Hm. pose proof Hm as (c & w & rest & -> & Hw & ->)%match_at_pos; [|done].
  exists (c :: w), rest. split; [done|]. split; [done|]. split; [done|]. split.
  - cbn [sub_from app]. rewrite Hm. f_equal. exact (sub_from_skip r iq w (Some c) rest).
  - cbn [findall_from app]. rewrite Hm. f_equal.
    + simpl. by rewrite take_app_length.
    + exact (findall_from_skip w (Some c) rest).
Qed.

(** A substitution puts in one opening bracket for each match that
    [findall] lists, and takes none away. *)
Lemma sub_from_opened n : ∀ s, length s ≤ n → ∀ prev,
  opened (sub_from r ph prev s 0) = opened s + length (findall_from r prev s 0).
Proof.
  induction n as [|n IH]; intros s Hlen prev.
  { destruct s; [|simpl in Hlen; lia].
    by rewrite (sub_from_nil r iq r_nonnull), findall_from_nil. }
  destruct s as [|c s]; [by rewrite (sub_from_nil r iq r_nonnull), findall_from_nil|].
  destruct (match_at r prev (c :: s)) as [m|] eqn:Hm.
  - destruct (scan_match _ _ _ Hm) as (w & rest & Heq & Hw & Hne & -> & ->).
    rewrite Heq in *. rewrite !opened_app, (opened_bracketed iq iq_plain).
    rewrite (opened_plain w (sem_plain r w r_bracketless Hw)).
    rewrite IH; [simpl; lia|].
    rewrite length_app in Hlen. destruct w; [done|]. simpl in Hlen. lia.
  - rewrite (sub_from_nomatch r iq), ?Hm by done.
    cbn [findall_from]. rewrite Hm.
    change (c :: ?l) with ([c] ++ l). rewrite !opened_app.
    rewrite IH by (simpl in Hlen; lia). lia.
Qed.

End counting.

Lemma interior_plain (d : string * regex) : d ∈ PATTERNS → plain (interior d.1).
Proof.
  intros Hd. apply Forall_forall. intros c Hc. revert c Hc. apply Forall_forall.
  repeat (apply elem_of_cons in Hd as [->|Hd]; [by repeat constructor|]).
  by apply not_elem_of_nil in Hd.
Qed.

Lemma scrub_step_opened (T : list ascii) (d : string * regex) :
  d ∈ PATTERNS → opened (scrub_step T d) = opened T + length (findall d.2 T).
Proof.
  intros Hd.
  assert (sound_detector d) as [Hn Hb].
  { pose proof PATTERNS_sound as Hs. rewrite Forall_forall in Hs. by apply Hs. }
  pose proof (sub_from_opened d.2 (interior d.1) Hn Hb (interior_plain d Hd)
                (length T) T (le_n _) None) as Hc.
  unfold scrub_step, sub. rewrite placeholder_interior. unfold findall in *.
  destruct (findall_from d.2 None T 0); [simpl; lia|exact Hc].
Qed.

Lemma redactions_from_cons d ds T :
  redactions_from (d :: ds) T
  = match findall d.2 T with
    | [] => redactions_from ds T
    | _ :: _ => (d.1, length (findall d.2 T)) :: redactions_from ds (scrub_step T d)
    end.
Proof. unfold scrub_step. simpl. by destruct (findall d.2 T). Qed.

Lemma scrub_rounds_opened ds : ∀ T : list ascii,
  (∀ d, d ∈ ds → d ∈ PATTERNS) →
  opened (foldl scrub_step T ds) = opened T + sum_list (redactions_from ds T).*2.
Proof.
  induction ds as [|d ds IH]; intros T Hds; [simpl; lia|].
  cbn [foldl]. rewrite IH by (intros d' Hd'; apply Hds; by right).
  rewrite scrub_step_opened by (apply Hds; by left).
  rewrite redactions_from_cons.
  destruct (findall d.2 T) eqn:Hf.
  - unfold scrub_step. rewrite Hf. simpl. lia.
  - rewrite fmap_cons. cbn [sum_list sum_list_with snd]. unfold id. lia.
Qed.

Lemma scrub_rounds_unchanged ds : ∀ T : list ascii,
  (∀ d, d ∈ ds → d ∈ PATTERNS) → foldl scrub_step T ds = T →
  ∀ d, d ∈ ds → findall d.2 T = [].
Proof.
  induction ds as [|d ds IH]; intros T Hds Heq d' Hd'; [by apply not_elem_of_nil in Hd'|].
  cbn [foldl] in Heq.
  assert (findall d.2 T = []) as Hnil.
  { assert (∀ d0, d0 ∈ ds → d0 ∈ PATTERNS) as Hds' by (intros; apply Hds; by right).
    pose proof (scrub_rounds_opened ds (scrub_step T d) Hds') as Ho.
    rewrite Heq, scrub_step_opened in Ho by (apply Hds; by left).
    destruct (findall d.2 T) eqn:Hf; [done|]. cbn [length] in Ho. lia. }
  apply elem_of_cons in Hd' as [->|Hd']; [done|].
  apply (IH T); [intros; apply Hds; by right| |done].
  unfold scrub_step in Heq. by rewrite Hnil in Heq.
Qed.

Lemma redactions_from_nil ds : ∀ T : list ascii,
  redactions_from ds T = [] ↔ ∀ d, d ∈ ds → findall d.2 T = [].
Proof.
  induction ds as [|d ds IH]; intros T.
  - split; [|done]. intros _ d Hd. by apply not_elem_of_nil in Hd.
  - rewrite redactions_from_cons. destruct (findall d.2 T) eqn:Hf.
    + rewrite IH. split.
      * intros H d' [->|Hd']%elem_of_cons; [done|by apply H].
      * intros H d' Hd'. apply H. by right.
    + split; [done|]. intros H. specialize (H d). rewrite Hf in H.
      discriminate H. by left.
Qed.

Lemma findall_nil_text r : nullable r = false → findall r [] = [].
Proof.
  intros Hn. unfold findall. simpl.
  destruct (match_at r None []) as [n|] eqn:Hm; [|done].
  by apply match_at_pos in Hm as (c & w & rest & ? & _).
Qed.

(** X17: [scrub_text] leaves a text as it is exactly when no pattern matches in
    it, which is exactly when it hands nothing to the audit log. *)
Theorem scrub_text_unchanged_iff (s : string) :
  (scrub_text s = s ↔ ∀ d : string * regex, d ∈ PATTERNS → findall d.2 (chars s) = [])
  ∧ (scrub_text s = s ↔ redactions s = []).
Proof.
  assert (scrub_text s = s
          ↔ ∀ d : string * regex, d ∈ PATTERNS → findall d.2 (chars s) = []) as Hiff.
  { split.
    - intros Heq. apply scrub_rounds_unchanged; [done|].
      fold (scrub_chars (chars s)). by rewrite <- scrub_text_chars, Heq.
    - intros Hall. rewrite scrub_text_of_chars, scrub_chars_fixed by done.
      apply string_of_list_ascii_of_string. }
  split; [exact Hiff|]. rewrite Hiff. destruct s as [|a s].
  - split; [done|]. intros _ d Hd. apply findall_nil_text.
    pose proof PATTERNS_sound as Hs. rewrite Forall_forall in Hs. by apply Hs.
  - symmetry. apply redactions_from_nil.
Qed.

(** X18: The counts that [scrub_text] hands to the audit log add up to the number
    of placeholders it puts in: the output has that many opening brackets
    more than the input. *)
Theorem redaction_counts (s : string) :
  opened (chars (scrub_text s)) = opened (chars s) + sum_list (redactions s).*2.
Proof.
  destruct s as [|a s]; [done|].
  rewrite scrub_text_chars. apply scrub_rounds_opened. done.
Qed.

(** ** The audit log *)

Lemma logged_app es1 es2 a : logged (es1 ++ es2) a = logged es2 (logged es1 a).
Proof. apply foldl_app. Qed.

Lemma scrub_rounds_audited ds : ∀ (T : list ascii) (a : Audit),
  foldl scrub_step_audited (T, a) ds
  = (foldl scrub_step T ds, logged (redactions_from ds T) a).
Proof.
  induction ds as [|d ds IH]; intros T a; [done|].
  cbn [foldl]. rewrite redactions_from_cons.
  unfold scrub_step_audited at 2, scrub_step at 2 3. cbn [fst snd].
  destruct (findall d.2 T) eqn:Hf; rewrite IH; [done|].
  by rewrite <- Hf.
Qed.

Lemma _log_redaction_records name n a :
  length (audit_file (_log_redaction name n a)) + length (error_log (_log_redaction name n a))
  = S (length (audit_file a) + length (error_log a))
  ∧ audit_file a `prefix_of` audit_file (_log_redaction name n a)
  ∧ error_log a `prefix_of` error_log (_log_redaction name n a).
Proof.
  unfold _log_redaction. destruct (io_faults a) as [|[e|] fs]; simpl;
    rewrite ?length_app; simpl; (split; [lia|]); split;
    first [done|by apply prefix_app_r].
Qed.

Lemma logged_records es : ∀ a,
  length (audit_file (logged es a)) + length (error_log (logged es a))
  = length (audit_file a) + length (error_log a) + length es
  ∧ audit_file a `prefix_of` audit_file (logged es a)
  ∧ error_log a `prefix_of` error_log (logged es a).
Proof.
  induction es as [|e es IH]; intros a; [simpl; split; [lia|done]|].
  cbn [logged foldl]. fold (logged es (_log_redaction e.1 e.2 a)).
  destruct (IH (_log_redaction e.1 e.2 a)) as (H1 & H2 & H3).
  destruct (_log_redaction_records e.1 e.2 a) as (H4 & H5 & H6).
  split; [simpl; lia|]. split; by etrans.
Qed.

Lemma logged_no_fault es : ∀ a,
  io_faults a = [] →
  error_log (logged es a) = error_log a
  ∧ length (audit_file (logged es a)) = length (audit_file a) + length es.
Proof.
  induction es as [|e es IH]; intros a Hf; [simpl; split; [done|lia]|].
  cbn [logged foldl]. fold (logged es (_log_redaction e.1 e.2 a)).
  destruct (IH (_log_redaction e.1 e.2 a)) as [H1 H2].
  { unfold _log_redaction. by rewrite Hf. }
  rewrite H1, H2. unfold _log_redaction. rewrite Hf. simpl.
  rewrite length_app. simpl. split; [done|lia].
Qed.

(** X19: Whatever happens to the audit file, [scrub_text] returns the same text
    and raises nothing.  Each detector that matches at its turn leaves one
    record, a line in the file or, when the file cannot be written, an error
    in the log; no earlier line or error is changed; and with no fault
    every record is a line in the file. *)
Theorem audit_log_never_blocks (s : string) (a : Audit) :
  let r := scrub_text_audited s a in
  r.1 = scrub_text s
  ∧ r.2 = logged (redactions s) a
  ∧ length (audit_file r.2) + length (error_log r.2)
    = length (audit_file a) + length (error_log a) + length (redactions s)
  ∧ audit_file a `prefix_of` audit_file r.2
  ∧ error_log a `prefix_of` error_log r.2
  ∧ (io_faults a = [] →
     error_log r.2 = error_log a
     ∧ length (audit_file r.2) = length (audit_file a) + length (redactions s)).
Proof.
  intros r.
  assert (r = (scrub_text s, logged (redactions s) a)) as ->.
  { unfold r, scrub_text_audited, scrub_text, redactions. destruct s as [|c s]; [done|].
    cbv zeta. rewrite scrub_rounds_audited. done. }
  cbn [fst snd]. split; [done|]. split; [done|].
  pose proof (logged_records (redactions s) a) as (H1 & H2 & H3).
  split; [done|]. split; [done|]. split; [done|]. apply logged_no_fault.
Qed.

(** ** The shape of a value *)

Lemma json_size_elem x l : x ∈ l → json_size x < json_size (JList l).
Proof.
  intros Hx. simpl. induction Hx as [x l|x y l Hx IH]; simpl; lia.
Qed.

Lemma json_size_lookup (m : gmap string json) i x :
  m !! i = Some x → json_size x < json_size (JDict m).
Proof.
  simpl. revert i x.
  apply (map_fold_weak_ind
           (λ r (m : gmap string json), ∀ i x, m !! i = Some x → json_size x < S r)).
  - intros i x Hi. by rewrite lookup_empty in Hi.
  - intros j y m' r Hj IH i x.
    destruct (decide (j = i)) as [->|Hne].
    + rewrite lookup_insert_eq. intros [= ->]. lia.
    + rewrite lookup_insert_ne by done. intros Hi. specialize (IH i x Hi). lia.
Qed.

(** Induction on a value, the lists and the dictionaries in it included. *)
Lemma json_induction (P : json → Prop) :
  P JNull → (∀ b, P (JBool b)) → (∀ z, P (JInt z)) → (∀ x, P (JReal x)) →
  (∀ s, P (JStr s)) →
  (∀ l, Forall P l → P (JList l)) →
  (∀ m, map_Forall (λ _, P) m → P (JDict m)) →
  ∀ j, P j.
Proof.
  intros Hnull Hbool Hint Hreal Hstr Hlist Hdict j.
  remember (json_size j) as n eqn:Hn. revert j Hn.
  induction n as [n IH] using lt_wf_ind. intros j ->.
  destruct j as [| | | | |l|m]; auto.
  - apply Hlist, Forall_forall. intros x Hx.
    apply (IH (json_size x)); [by apply json_size_elem|done].
  - apply Hdict. intros i x Hi.
    apply (IH (json_size x)); [by eapply json_size_lookup|done].
Qed.

(** X20: [scrub_object] changes strings only: the keys of the dictionaries and
    the lengths of the lists, at every depth, and every value that is not a
    string are as they were.  A key is never scrubbed. *)
Theorem scrub_object_skeleton (j : json) : skeleton (scrub_object j) = skeleton j.
Proof.
  induction j as [| | | | |l IH|m IH] using json_induction; try done.
  - simpl. f_equal. change (skeleton <$> (scrub_object <$> l) = skeleton <$> l).
    rewrite <- list_fmap_compose. by apply Forall_fmap_ext_1.
  - simpl. f_equal. rewrite <- map_fmap_compose. apply map_fmap_ext.
    intros i x Hi. by apply (IH i x).
Qed.

Lemma scrub_object_list l : scrub_object (JList l) = JList (scrub_object <$> l).
Proof. done. Qed.

Lemma scrub_object_dict m : scrub_object (JDict m) = JDict (scrub_object <$> m).
Proof. done. Qed.

Lemma list_fmap_fixed {A} (f : A → A) (l : list A) :
  f <$> l = l ↔ Forall (λ x, f x = x) l.
Proof.
  induction l as [|x l IH]; [by split; [constructor|]|].
  rewrite fmap_cons, Forall_cons, <- IH. split; [by intros [= -> ->]|by intros [-> ->]].
Qed.

Lemma map_fmap_fixed {A} (f : A → A) (m : gmap string A) :
  f <$> m = m ↔ map_Forall (λ _ x, f x = x) m.
Proof.
  split.
  - intros Heq i x Hi. apply (f_equal (λ m, m !! i)) in Heq.
    rewrite lookup_fmap, Hi in Heq. by injection Heq.
  - intros Hall. apply map_eq. intros i. rewrite lookup_fmap.
    destruct (m !! i) as [x|] eqn:Hi; [|done]. simpl. f_equal. by apply (Hall i).
Qed.

(** A second [scrub_object] changes nothing exactly when it changes none of
    the strings. *)
Lemma scrub_object_fixed (j : json) :
  scrub_object j = j ↔ every_string (λ s, scrub_text s = s) j.
Proof.
  induction j as [| | | | |l IH|m IH] using json_induction;
    try (split; [intros _; constructor|done]).
  - split; [intros [= Hs]; by constructor|]. intros Hs. inversion Hs. simpl. by f_equal.
  - rewrite scrub_object_list. split.
    + intros [= Hl]. constructor. apply list_fmap_fixed in Hl.
      rewrite Forall_forall in IH, Hl. apply Forall_forall. intros x Hx.
      by apply IH, Hl.
    + intros Hl. inversion Hl as [| | | | |l' Hall|]; subst. f_equal.
      apply list_fmap_fixed. rewrite Forall_forall in IH, Hall. apply Forall_forall.
      intros x Hx. by apply IH, Hall.
  - rewrite scrub_object_dict. split.
    + intros [= Hm]. constructor. apply map_fmap_fixed in Hm.
      intros i x Hi. by apply (IH i x Hi), (Hm i x Hi).
    + intros Hm. inversion Hm as [| | | | | |m' Hall]; subst. f_equal.
      apply map_fmap_fixed. intros i x Hi. by apply (IH i x Hi), (Hall i x Hi).
Qed.

Lemma every_string_scrub_object (Q : string → Prop) (j : json) :
  every_string Q (scrub_object j) ↔ every_string (λ s, Q (scrub_text s)) j.
Proof.
  induction j as [| | | | |l IH|m IH] using json_induction;
    try by (split; intros _; constructor).
  - split; intros Hs; inversion Hs; by constructor.
  - rewrite scrub_object_list. split.
    + intros Hl. inversion Hl as [| | | | |l' Hall|]; subst. constructor.
      rewrite Forall_fmap in Hall. rewrite Forall_forall in IH, Hall.
      apply Forall_forall. intros x Hx. by apply IH, Hall.
    + intros Hl. inversion Hl as [| | | | |l' Hall|]; subst. constructor.
      rewrite Forall_fmap. rewrite Forall_forall in IH, Hall.
      apply Forall_forall. intros x Hx. by apply IH, Hall.
  - rewrite scrub_object_dict. split.
    + intros Hm. inversion Hm as [| | | | | |m' Hall]; subst. constructor.
      intros i x Hi. apply (IH i x Hi). apply (Hall i). by rewrite lookup_fmap, Hi.
    + intros Hm. inversion Hm as [| | | | | |m' Hall]; subst. constructor.
      intros i y. rewrite lookup_fmap. destruct (m !! i) as [x|] eqn:Hi; [|done].
      intros [= <-]. by apply (IH i x Hi), (Hall i).
Qed.

Lemma every_string_iff (P Q : string → Prop) (j : json) :
  (∀ s, P s ↔ Q s) → every_string P j ↔ every_string Q j.
Proof.
  intros HPQ.
  induction j as [| | | | |l IH|m IH] using json_induction;
    try by (split; intros _; constructor).
  - split; intros Hs; inversion Hs; constructor; by apply HPQ.
  - split; intros Hl; inversion Hl as [| | | | |l' Hall|]; subst; constructor;
      rewrite Forall_forall in IH, Hall; apply Forall_forall; intros x Hx;
      by apply IH, Hall.
  - split; intros Hm; inversion Hm as [| | | | | |m' Hall]; subst; constructor;
      intros i x Hi; by apply (IH i x Hi), (Hall i).
Qed.

(** In the output of [scrub_text] no pattern but the ip pattern matches. *)
Lemma scrub_text_leaves_ip (s : string) (d : string * regex) :
  d ∈ PATTERNS → d.1 ≠ "ip" → findall d.2 (chars (scrub_text s)) = [].
Proof.
  intros Hd Hip. rewrite scrub_text_chars. apply matchless_findall.
  destruct (list_elem_of_split _ _ Hd) as (pre & post & HP).
  apply (scrub_chars_matchless _ pre d post HP). by apply PATTERNS_bfree.
Qed.

Lemma scrub_text_again_iff (s : string) :
  scrub_text (scrub_text s) = scrub_text s
  ↔ findall ip_re (chars (scrub_text s)) = [].
Proof.
  split.
  - intros Heq. destruct (findall ip_re (chars (scrub_text s))) eqn:Hf; [done|].
    exfalso. apply (scrub_text_changes_again s); [apply scrub_text_leaves_ip| |done].
    by rewrite Hf.
  - intros Hip. rewrite (scrub_text_of_chars (scrub_text s)), scrub_chars_fixed.
    + unfold chars. apply string_of_list_ascii_of_string.
    + intros d Hd. destruct (decide (d.1 = "ip")) as [Heq|Hne];
        [|by apply scrub_text_leaves_ip].
      by rewrite (PATTERNS_ip d Hd Heq).
Qed.


(** ** What is stored is redacted *)

Lemma every_string_all (P : string → Prop) (j : json) :
  (∀ s, P s) → every_string P j.
Proof.
  intros HP. induction j as [| | | | |l IH|m IH] using json_induction;
    by constructor.
Qed.

Lemma redacted_map_validate_ingestion u t p : redacted_map (validate_ingestion u t p).
Proof.
  unfold redacted_map.
  change (JDict (validate_ingestion u t p)) with (scrub_object (JDict p)).
  apply every_string_scrub_object, every_string_all.
  intros s d Hd Hip. by apply scrub_text_leaves_ip.
Qed.

Lemma redacted_map_union p1 p2 :
  redacted_map p1 → redacted_map p2 → redacted_map (p1 ∪ p2).
Proof.
  intros H1 H2. inversion H1 as [| | | | | |m1 Hm1]; subst.
  inversion H2 as [| | | | | |m2 Hm2]; subst. constructor.
  intros i x [Hi|[_ Hi]]%lookup_union_Some_raw; [by apply (Hm1 i)|by apply (Hm2 i)].
Qed.

Lemma redacted_map_empty : redacted_map ∅.
Proof. constructor. intros i x Hi. by rewrite lookup_empty in Hi. Qed.

Lemma redacted_index_merge_into obj objs :
  redacted_index objs → redacted_index (merge_into (scrubbed obj) objs).
Proof.
  intros Hobjs u o. unfold merge_into. simpl.
  destruct (objs !! uid obj) as [old|] eqn:Hold;
    (destruct (decide (uid obj = u)) as [<-|Hne];
     [rewrite lookup_insert_eq; intros [= <-]; simpl
     |rewrite lookup_insert_ne by done; apply Hobjs]).
  - apply redacted_map_union; [apply redacted_map_validate_ingestion|by eapply Hobjs].
  - apply redacted_map_validate_ingestion.
Qed.

Lemma redacted_index_linked a b t bidi objs :
  redacted_index objs → redacted_index (linked a b t bidi objs).
Proof.
  intros Hobjs u o. rewrite linked_lookup.
  intros (o' & Ho' & ->)%fmap_Some. simpl. by eapply Hobjs.
Qed.

Lemma redacted_row_gate_passed r : gate_passed r → redacted_row r.
Proof.
  intros [p Hp]. eexists. split; [exact Hp|]. apply redacted_map_validate_ingestion.
Qed.

(** A computation that writes no row but scrubbed ones keeps the rows of
    the file redacted. *)
Lemma writes_scrubbed_redacted {A} (m : M A) k :
  writes_scrubbed m → Forall redacted_row (objects_rel (disk k)) →
  Forall redacted_row (objects_rel (disk (m k).2)).
Proof.
  intros Hm Hd. rewrite Forall_forall in Hd. apply Forall_forall. intros r Hr.
  destruct (Hm k r Hr) as [Hold|Hg]; [by apply Hd|by apply redacted_row_gate_passed].
Qed.

Lemma keeps_redacted_ret {A} (a : A) : keeps_redacted (mret a).
Proof. by intros k. Qed.

Lemma keeps_redacted_bind {A B} (m : M A) (f : A → M B) :
  keeps_redacted m → (∀ a, keeps_redacted (f a)) → keeps_redacted (m ≫= f).
Proof.
  intros Hm Hf k Hk. unfold mbind, M_bind. specialize (Hm k Hk).
  destruct (m k) as [[a|e] k1]; simpl in *; [|done]. by apply Hf.
Qed.

Lemma keeps_redacted_raise {A} e : keeps_redacted (@raise A e).
Proof. by intros k. Qed.

Lemma keeps_redacted_get_objects : keeps_redacted get_objects.
Proof. by intros k. Qed.

Lemma keeps_redacted_warning msg : keeps_redacted (warning msg).
Proof. by intros k. Qed.

Lemma keeps_redacted_now : keeps_redacted now.
Proof. by intros k. Qed.

Lemma keeps_redacted_upsert_object obj : keeps_redacted (upsert_object obj).
Proof.
  intros k [Hi Hd]. split.
  - destruct (upsert_object_leaves obj k) as [-> _]. by apply redacted_index_merge_into.
  - by apply writes_scrubbed_redacted; [apply writes_scrubbed_upsert_object|].
Qed.

Lemma keeps_redacted_link a b t bidi : keeps_redacted (link a b t bidi).
Proof.
  intros k [Hi Hd]. split.
  - destruct (link_leaves a b t bidi k) as [[->| ->] _]; [|done].
    by apply redacted_index_linked.
  - by apply writes_scrubbed_redacted; [apply writes_scrubbed_link|].
Qed.

Create HintDb redacted discriminated.
#[local] Hint Resolve keeps_redacted_ret keeps_redacted_raise keeps_redacted_get_objects
  keeps_redacted_warning keeps_redacted_now keeps_redacted_upsert_object
  keeps_redacted_link : redacted.

Ltac redacted_step :=
  repeat first
    [ solve [eauto with redacted]
    | apply keeps_redacted_bind; [|intros ?]
    | match goal with
      | |- keeps_redacted (match ?x with Some _ => _ | None => _ end) => destruct x
      | |- keeps_redacted (if ?x then _ else _) => destruct x
      end ].

Lemma keeps_redacted_new_object u t p : keeps_redacted (new_object u t p).
Proof. unfold new_object. redacted_step. Qed.

#[local] Hint Resolve keeps_redacted_new_object : redacted.

Lemma keeps_redacted_ensure_module u n : keeps_redacted (ensure_module u n).
Proof. unfold ensure_module. redacted_step. Qed.

Lemma keeps_redacted_link_if_known u v t : keeps_redacted (link_if_known u v t).
Proof. unfold link_if_known. destruct v; redacted_step. Qed.

#[local] Hint Resolve keeps_redacted_ensure_module keeps_redacted_link_if_known : redacted.

Lemma redacted_index_load_objects rows : ∀ objs,
  Forall redacted_row rows → redacted_index objs →
  redacted_index (load_objects rows objs).2.
Proof.
  induction rows as [|r rows IH]; intros objs Hrows Hobjs; [done|].
  apply Forall_cons in Hrows as [(p & Hp & Hred) Hrows]. simpl.
  rewrite Hp. simpl. apply IH; [done|].
  intros u o. destruct (decide (row_uid r = u)) as [<-|Hne].
  - rewrite lookup_insert_eq. by intros [= <-].
  - rewrite lookup_insert_ne by done. apply Hobjs.
Qed.

Lemma redacted_index_load_links es objs :
  redacted_index objs → redacted_index (load_links es objs).
Proof.
  intros Hobjs u o. rewrite load_links_lookup.
  intros (o' & Ho' & ->)%fmap_Some. simpl. by eapply Hobjs.
Qed.

Lemma redacted_index_empty : redacted_index ∅.
Proof. intros u o Ho. by rewrite lookup_empty in Ho. Qed.

Lemma keeps_redacted_transaction_id : keeps_redacted (transaction id).
Proof. intros k Hk. unfold transaction. by destruct (faults k) as [|[] fs]. Qed.

Lemma keeps_redacted__load : keeps_redacted _load.
Proof.
  intros k [Hi Hd]. unfold _load, transaction.
  pose proof (redacted_index_load_objects _ _ Hd Hi) as Hl.
  destruct (faults k) as [|[] fs]; simpl; try done;
    destruct (load_objects _ _) as [[[]|e] objs]; simpl in *; (split; [|done]);
    first [by apply redacted_index_load_links|done].
Qed.

(** The constructor on a file whose rows are redacted. *)
Lemma redacted_kernel___init__ k :
  Forall redacted_row (objects_rel (disk k)) → redacted_kernel (__init__ k).2.
Proof.
  intros Hd. unfold __init__, mbind at 1, M_bind at 1, set_objects at 1. cbn [fst snd].
  apply (keeps_redacted_bind (transaction id) (λ _, _load)).
  - apply keeps_redacted_transaction_id.
  - intros _. apply keeps_redacted__load.
  - split; [apply redacted_index_empty|done].
Qed.


(** ** The focus of an intent *)

Lemma merge_into_is_Some_iff obj (objs : gmap string GraphObject) u :
  is_Some (merge_into obj objs !! u) ↔ is_Some (objs !! u) ∨ u = uid obj.
Proof.
  destruct (decide (uid obj = u)) as [<-|Hne].
  - split; [by right|]. intros _. apply merge_into_lookup_self.
  - rewrite merge_into_lookup_ne by done. split; [by left|]. by intros [?|?].
Qed.

(** X23: [ingest_intent] takes [focus_symbol] as the uid to link to, as it is:
    with every write committing and no [file_path], the intent is linked to
    it, both ways, exactly when the index has that uid once the intent is
    stored; when it has not, nothing is linked and nothing is logged, and
    the call returns as if there were no focus. *)
Theorem ingest_intent_focus (py_str : json → string) (k : Kernel)
    (intent_id content : string) (props : gmap string json) (s : string) :
  faults k = [] →
  props !! "focus_symbol" = Some (JStr s) → props !! "file_path" = None →
  let u := "intent:" +:+ intent_id in
  let obj := scrubbed (plain_object u "intent" (props ∪ {[ "content" := JStr content ]})
                         (hd "" (clock k))) in
  let r := ingest_intent py_str intent_id content props k in
  r.1 = Ok u ∧ warnings r.2 = warnings k
  ∧ (is_Some (objects k !! s) ∨ s = u →
     objects r.2 = linked u s "clarifies" true (merge_into obj (objects k))
     ∧ links_rel (disk r.2)
       = links_rel (disk k) ∪ {[ (u, s, "clarifies"); (s, u, "inverse_clarifies") ]})
  ∧ (¬ (is_Some (objects k !! s) ∨ s = u) →
     objects r.2 = merge_into obj (objects k)
     ∧ links_rel (disk r.2) = links_rel (disk k)).
Proof.
  intros Hf Hfocus Hfile u obj r. unfold r, ingest_intent. rewrite Hfocus, Hfile.
  fold u. unfold new_object, link_if_known, mbind, M_bind, now, get_objects, mret, M_ret.
  cbn [fst snd]. rewrite upsert_object_commits by (cbn [faults]; by rewrite Hf).
  cbn [objects disk warnings faults clock]. fold (plain_object u "intent"
    (props ∪ {[ "content" := JStr content ]}) (hd "" (clock k))). fold obj.
  destruct (decide (is_Some (merge_into obj (objects k) !! s))) as [Hs|Hs].
  - rewrite link_commits; cbn [objects disk warnings faults clock];
      [|apply (merge_into_lookup_self obj)|done|by rewrite Hf].
    split; [done|]. split; [done|]. split.
    + intros _. split; [done|]. cbn [snd disk].
      rewrite links_rel_link_disk, links_rel_persist by done.
      change (inverse "clarifies") with "inverse_clarifies". set_solver.
    + intros Hn. destruct Hn. by apply (merge_into_is_Some_iff obj).
  - split; [done|]. split; [done|]. split.
    + intros Hy. destruct Hs. by apply (merge_into_is_Some_iff obj).
    + intros _. split; [done|]. cbn [snd disk]. by rewrite links_rel_persist.
Qed.

Lemma ingest_intent_focus_witness :
  let k := fresh_kernel empty_disk [] ["t0"] in
  let props : gmap string json := {[ "focus_symbol" := JStr "audit_target.py:Vault" ]} in
  let u := "intent:" +:+ "manual_pii_test" in
  let obj := scrubbed (plain_object u "intent" (props ∪ {[ "content" := JStr "Leaked info" ]})
                         (hd "" (clock k))) in
  let r := ingest_intent (λ _, "") "manual_pii_test" "Leaked info" props k in
  r.1 = Ok u ∧ warnings r.2 = warnings k
  ∧ (is_Some (objects k !! "audit_target.py:Vault") ∨ "audit_target.py:Vault" = u →
     objects r.2 = linked u "audit_target.py:Vault" "clarifies" true
                     (merge_into obj (objects k))
     ∧ links_rel (disk r.2)
       = links_rel (disk k) ∪ {[ (u, "audit_target.py:Vault", "clarifies");
                                 ("audit_target.py:Vault", u, "inverse_clarifies") ]})
  ∧ (¬ (is_Some (objects k !! "audit_target.py:Vault") ∨ "audit_target.py:Vault" = u) →
     objects r.2 = merge_into obj (objects k)
     ∧ links_rel (disk r.2) = links_rel (disk k)).
Proof.
  exact (ingest_intent_focus (λ _, "") (fresh_kernel empty_disk [] ["t0"])
           "manual_pii_test" "Leaked info"
           {[ "focus_symbol" := JStr "audit_target.py:Vault" ]} "audit_target.py:Vault"
           eq_refl eq_refl eq_refl).
Defined.

(** ** Letter case *)

Ltac each_ascii c :=
  destruct c as [[] [] [] [] [] [] [] []]; vm_compute; reflexivity.

Lemma upper_upper c : upper (upper c) = upper c.
Proof. each_ascii c. Qed.

Lemma lower_upper c : lower (upper c) = lower c.
Proof. each_ascii c. Qed.

Lemma is_digit_upper c : is_digit (upper c) = is_digit c.
Proof. each_ascii c. Qed.

Lemma is_space_upper c : is_space (upper c) = is_space c.
Proof. each_ascii c. Qed.

Lemma is_word_upper c : is_word (upper c) = is_word c.
Proof. each_ascii c. Qed.

(** A class compiled with [re.IGNORECASE] is blind to case. *)
Lemma ci_upper p c : ci p (upper c) = ci p c.
Proof. unfold ci. by rewrite lower_upper, upper_upper. Qed.

Lemma PATTERNS_case_blind : Forall (λ d : string * regex, case_blind d.2) PATTERNS.
Proof.
  repeat constructor; simpl; repeat split; intros c;
    first [apply ci_upper|apply is_digit_upper|apply is_space_upper].
Qed.

Lemma boundary_upper prev s :
  boundary (upper <$> prev) (upper <$> s) = boundary prev s.
Proof.
  unfold boundary. f_equal.
  - destruct prev as [c|]; [apply is_word_upper|done].
  - destruct s as [|c s]; [done|apply is_word_upper].
Qed.

Lemma rep_upper p : (∀ c, p (upper c) = p c) →
  ∀ s lo hi prev (k k' : option ascii → list ascii → option nat),
    (∀ prev' s', k prev' s' = k' (upper <$> prev') (upper <$> s')) →
    rep p lo hi prev s k = rep p lo hi (upper <$> prev) (upper <$> s) k'.
Proof.
  intros Hp. induction s as [|c s IH]; intros lo hi prev k k' Hk.
  - simpl. destruct lo; [apply Hk|done].
  - cbn [rep fmap list_fmap]. rewrite Hp.
    rewrite (IH (pred lo) (hi_pred hi) (Some c) k k' Hk).
    change (upper <$> Some c) with (Some (upper c)).
    rewrite (Hk prev (c :: s)). done.
Qed.

Lemma mt_upper r : case_blind r →
  ∀ prev s (k k' : option ascii → list ascii → option nat),
    (∀ prev' s', k prev' s' = k' (upper <$> prev') (upper <$> s')) →
    mt r prev s k = mt r (upper <$> prev) (upper <$> s) k'.
Proof.
  induction r as [|p| |r1 IH1 r2 IH2|r1 IH1 r2 IH2|p lo hi]; intros Hr prev s k k' Hk.
  - apply Hk.
  - destruct s as [|c s]; [done|]. cbn [mt fmap list_fmap]. simpl in Hr. rewrite Hr.
    by rewrite (Hk (Some c) s).
  - cbn [mt]. rewrite boundary_upper. by rewrite Hk.
  - destruct Hr as [Hr1 Hr2]. cbn [mt]. apply IH1; [done|].
    intros prev' s'. by apply IH2.
  - destruct Hr as [Hr1 Hr2]. cbn [mt].
    by rewrite (IH1 Hr1 prev s k k' Hk), (IH2 Hr2 prev s k k' Hk).
  - cbn [mt]. by apply rep_upper.
Qed.

Lemma match_at_upper r prev s :
  case_blind r → match_at r (upper <$> prev) (upper <$> s) = match_at r prev s.
Proof. intros Hr. unfold match_at. symmetry. by apply mt_upper. Qed.

Lemma match_at_upper_nil r prev :
  case_blind r → match_at r (upper <$> prev) [] = match_at r prev [].
Proof. intros Hr. exact (match_at_upper r prev [] Hr). Qed.

Lemma match_at_upper_cons r prev c s :
  case_blind r → match_at r (upper <$> prev) (upper c :: (upper <$> s)) = match_at r prev (c :: s).
Proof. intros Hr. exact (match_at_upper r prev (c :: s) Hr). Qed.

Lemma sub_from_upper r repl : case_blind r → upper <$> repl = repl →
  ∀ s prev skip,
    sub_from r repl (upper <$> prev) (upper <$> s) skip
    = upper <$> sub_from r repl prev s skip.
Proof.
  intros Hr Hrepl. induction s as [|c s IH]; intros prev skip.
  - rewrite fmap_nil. cbn [sub_from]. rewrite match_at_upper_nil by done.
    destruct skip; [|done]. by destruct (match_at r prev []).
  - rewrite fmap_cons. cbn [sub_from]. destruct skip as [|n].
    + rewrite match_at_upper_cons by done.
      change (Some (upper c)) with (upper <$> Some c).
      destruct (match_at r prev (c :: s)) as [[|m]|];
        rewrite IH, ?fmap_app, ?fmap_cons, ?Hrepl; done.
    + change (Some (upper c)) with (upper <$> Some c). apply IH.
Qed.

Lemma findall_from_upper r : case_blind r →
  ∀ (s : list ascii) (prev : option ascii) skip,
    findall_from r (upper <$> prev) (upper <$> s) skip
    = (λ w : list ascii, upper <$> w) <$> findall_from r prev s skip.
Proof.
  intros Hr. induction s as [|c s IH]; intros prev skip.
  - rewrite fmap_nil. cbn [findall_from]. rewrite match_at_upper_nil by done.
    destruct skip; [|done]. by destruct (match_at r prev []).
  - rewrite fmap_cons. cbn [findall_from]. destruct skip as [|n].
    + rewrite match_at_upper_cons by done.
      change (Some (upper c)) with (upper <$> Some c).
      destruct (match_at r prev (c :: s)) as [[|m]|]; rewrite IH; try done.
      rewrite fmap_cons. f_equal. rewrite <- fmap_cons. by rewrite fmap_take.
    + change (Some (upper c)) with (upper <$> Some c). apply IH.
Qed.

Lemma placeholder_upper name : upper <$> placeholder name = placeholder name.
Proof.
  unfold placeholder. rewrite !fmap_app. f_equal. f_equal.
  change (map upper (chars name)) with (upper <$> chars name).
  rewrite <- list_fmap_compose. apply list_fmap_ext. intros i c _. apply upper_upper.
Qed.

Lemma scrub_step_upper (T : list ascii) (d : string * regex) :
  case_blind d.2 → scrub_step (upper <$> T) d = upper <$> scrub_step T d.
Proof.
  intros Hd. unfold scrub_step, findall, sub.
  change None with (upper <$> None) at 1 2.
  rewrite findall_from_upper, sub_from_upper by (done || apply placeholder_upper).
  by destruct (findall_from d.2 None T 0).
Qed.

Lemma scrub_rounds_upper ds : Forall (λ d : string * regex, case_blind d.2) ds →
  ∀ T : list ascii, foldl scrub_step (upper <$> T) ds = upper <$> foldl scrub_step T ds.
Proof.
  induction 1 as [|d ds Hd _ IH]; intros T; [done|].
  cbn [foldl]. by rewrite scrub_step_upper, IH.
Qed.

(** X24: The detectors are compiled with [re.IGNORECASE] and the placeholders are
    in capitals: scrubbing a text in capitals gives the scrubbed text in
    capitals. *)
Theorem scrub_text_upper (s : string) :
  scrub_text (upper_string s) = upper_string (scrub_text s).
Proof.
  unfold upper_string. rewrite scrub_text_chars.
  rewrite scrub_text_of_chars. unfold chars at 1.
  rewrite list_ascii_of_string_of_list_ascii. f_equal.
  apply (scrub_rounds_upper PATTERNS PATTERNS_case_blind).
Qed.
